(** * simple-search-rank: the retrieval engine, embedded and verified

    A shallow embedding of the Python back end under [backend/app]:
    [services/preprocessing.py], [services/corpus_manager.py],
    [services/tfidf_service.py], [services/bm25_service.py],
    [services/search_service.py] and [utils/text_processing.py].

    Conventions of the embedding.
    - A Python [str] is a list of code points; the model covers the Latin-1
      block (type [ascii]), which contains the whole alphabet the
      normaliser is configured with.
    - A Python [dict] is an association list in insertion order, which is
      the order Python iterates it in.
    - A Python [float] is a real number, and [log10], [sqrt] and division
      are the exact functions, wherever a property does not turn on
      rounding. Where it does (the bounds of the length filter in the
      snippet extractor, the range of the cosine), the number is a binary64
      double with the rounding of the machine: modules [float64], [np64]
      and [TFIDF64].
    - An exception is a value of the result type; the one library exception
      that arises, the [ZeroDivisionError] of the BM25 package, is followed
      from the constructor of the index up to the HTTP route.
    - Objects with mutable attributes (the two scorers) are records that the
      methods take and give back. *)

From Stdlib Require Import Ascii String.
From Stdlib Require Import Reals Lra Lia List Bool Arith ZArith QArith.
From Stdlib Require Import Permutation Sorted DecimalString DecimalNat.
From Stdlib Require Import SpecFloat.
Import ListNotations.

Set Implicit Arguments.

(* ================================================================== *)
(** * Python values and builtins *)
(* ================================================================== *)

Module Py.

Definition str := list ascii.

(** A string literal. *)
Definition lit (x : string) : str := list_ascii_of_string x.

Definition chr_eqb (a b : ascii) : bool := Ascii.eqb a b.

Fixpoint str_eqb (a b : str) : bool :=
  match a, b with
  | [], [] => true
  | x :: a', y :: b' => chr_eqb x y && str_eqb a' b'
  | _, _ => false
  end.

Definition code (c : ascii) : nat := nat_of_ascii c.

Definition between (lo hi : nat) (c : ascii) : bool :=
  (lo <=? code c)%nat && (code c <=? hi)%nat.

(** [str.isspace] on one code point of the Latin-1 block. *)
Definition isspace (c : ascii) : bool :=
  between 9 13 c || between 28 32 c || (code c =? 133)%nat || (code c =? 160)%nat.

(** [str.lower] on one code point of the Latin-1 block. *)
Definition lower_chr (c : ascii) : ascii :=
  if between 65 90 c then ascii_of_nat (code c + 32)
  else if between 192 222 c && negb (code c =? 215)%nat
       then ascii_of_nat (code c + 32)
  else c.

Definition lower (s : str) : str := map lower_chr s.

(** [s in container] for a list or set of strings. *)
Definition mem (x : str) (l : list str) : bool := existsb (str_eqb x) l.

(** ** dict: association list in insertion order *)

Section Dict.
Variable V : Type.

Definition dict := list (str * V).

Fixpoint get (d : dict) (k : str) : option V :=
  match d with
  | [] => None
  | (k', v) :: d' => if str_eqb k k' then Some v else get d' k
  end.

(** [d.get(k, default)] *)
Definition get_or (d : dict) (k : str) (default : V) : V :=
  match get d k with Some v => v | None => default end.

(** [k in d] *)
Definition has (d : dict) (k : str) : bool :=
  match get d k with Some _ => true | None => false end.

(** [d[k] = v]: an existing key keeps its place, a new key goes last. *)
Fixpoint set (d : dict) (k : str) (v : V) : dict :=
  match d with
  | [] => [(k, v)]
  | (k', v') :: d' =>
      if str_eqb k k' then (k', v) :: d' else (k', v') :: set d' k v
  end.

Definition keys (d : dict) : list str := map fst d.
Definition values (d : dict) : list V := map snd d.

(** What a [dict] object guarantees: no key occurs twice. *)
Definition wf (d : dict) : Prop := NoDup (keys d).
End Dict.

(** [a < b] on strings: lexicographic on code points. *)
Fixpoint str_ltb (a b : str) : bool :=
  match a, b with
  | [], [] => false
  | [], _ :: _ => true
  | _ :: _, [] => false
  | x :: a', y :: b' =>
      if (code x <? code y)%nat then true
      else if (code y <? code x)%nat then false
      else str_ltb a' b'
  end.

(** ** sorted(): the stable sort *)

Section StableSort.
Variable A : Type.
(** [before y x]: [y] must come strictly before [x] in the output. *)
Variable before : A -> A -> bool.

Fixpoint insert (x : A) (l : list A) : list A :=
  match l with
  | [] => [x]
  | y :: l' => if before y x then y :: insert x l' else x :: l
  end.

(** Elements that compare equal keep their input order. *)
Fixpoint sorted (l : list A) : list A :=
  match l with
  | [] => []
  | x :: l' => insert x (sorted l')
  end.
End StableSort.

(** [l[:k]] for a Python int [k]: a negative [k] counts from the end. *)
Definition slice_to (A : Type) (l : list A) (k : Z) : list A :=
  if (0 <=? k)%Z then firstn (Z.to_nat k) l
  else firstn (length l - Z.to_nat (- k)) l.

(** ** str methods *)

Fixpoint drop_while (p : ascii -> bool) (s : str) : str :=
  match s with
  | [] => []
  | c :: s' => if p c then drop_while p s' else s
  end.

(** [s.strip()] *)
Definition strip (s : str) : str :=
  rev (drop_while isspace (rev (drop_while isspace s))).

(** [s.split()]: the maximal runs of non-whitespace; [cur] is the run being
    read, last character first. *)
Fixpoint split_from (cur : str) (s : str) : list str :=
  match s with
  | [] => match cur with [] => [] | _ => [rev cur] end
  | c :: s' =>
      if isspace c
      then match cur with [] => split_from [] s' | _ => rev cur :: split_from [] s' end
      else split_from (c :: cur) s'
  end.

Definition split (s : str) : list str := split_from [] s.

(** [s.find(c, start)]: [None] stands for -1. *)
Fixpoint find_in (c : ascii) (s : str) (pos : nat) : option nat :=
  match s with
  | [] => None
  | x :: s' => if chr_eqb x c then Some pos else find_in c s' (S pos)
  end.

Definition find (s : str) (c : ascii) (start : nat) : option nat :=
  find_in c (skipn start s) start.

(** [s[lo:hi]] for 0 <= lo, 0 <= hi *)
Definition slice (A : Type) (l : list A) (lo hi : nat) : list A :=
  firstn (hi - lo) (skipn lo l).

(** [list(set(l))]: the distinct elements; Python leaves their order
    unspecified, the model keeps the first occurrences in order. *)
Fixpoint distinct (l : list str) : list str :=
  match l with
  | [] => []
  | x :: l' => x :: filter (fun y => negb (str_eqb x y)) (distinct l')
  end.

(** ** re: the character classes and the three patterns the code uses *)

(** [\w] on the Latin-1 block: alphanumeric or underscore. *)
Definition is_word (c : ascii) : bool :=
  between 48 57 c || between 65 90 c || between 97 122 c || (code c =? 95)%nat
  || (code c =? 170)%nat || (code c =? 178)%nat || (code c =? 179)%nat
  || (code c =? 181)%nat || (code c =? 185)%nat || (code c =? 186)%nat
  || between 188 190 c || between 192 214 c || between 216 246 c
  || between 248 255 c.

Definition is_word_opt (c : option ascii) : bool :=
  match c with Some x => is_word x | None => false end.

(** [\b] between the character [prev] and the character [next]. *)
Definition boundary (prev next : option ascii) : bool :=
  xorb (is_word_opt prev) (is_word_opt next).

(** [s] starts with [pat]: what follows it. *)
Fixpoint after_prefix (pat s : str) : option str :=
  match pat, s with
  | [], _ => Some s
  | x :: pat', y :: s' => if chr_eqb x y then after_prefix pat' s' else None
  | _ :: _, [] => None
  end.

Definition last_opt (prev : option ascii) (pat : str) : option ascii :=
  match rev pat with [] => prev | c :: _ => Some c end.

(** [\b pat \b] matches at the head of [s], [prev] being the character
    before it. *)
Definition word_match_here (pat : str) (prev : option ascii) (s : str) : bool :=
  boundary prev (hd_error s)
  && match after_prefix pat s with
     | Some rest => boundary (last_opt prev pat) (hd_error rest)
     | None => false
     end.

(** [re.search(r'\b' + re.escape(pat) + r'\b', s)]: the start of the first
    match; the matched text is [pat] itself. *)
Fixpoint word_search_from (pat : str) (prev : option ascii) (s : str) (pos : nat)
  : option nat :=
  if word_match_here pat prev s then Some pos
  else match s with
       | [] => None
       | c :: s' => word_search_from pat (Some c) s' (S pos)
       end.

Definition word_search (pat s : str) : option nat :=
  word_search_from pat None s 0.

(** [re.findall(r'\b\w+\b', s)]: the maximal runs of word characters. *)
Fixpoint findall_words_from (cur : str) (s : str) : list str :=
  match s with
  | [] => match cur with [] => [] | _ => [rev cur] end
  | c :: s' =>
      if is_word c then findall_words_from (c :: cur) s'
      else match cur with
           | [] => findall_words_from [] s'
           | _ => rev cur :: findall_words_from [] s'
           end
  end.

Definition findall_words (s : str) : list str := findall_words_from [] s.

End Py.

Import Py.

(* ================================================================== *)
(** * Real-number helpers: comparisons as booleans, numpy on vectors *)
(* ================================================================== *)

Open Scope R_scope.

Definition Rltb (a b : R) : bool := if Rlt_dec a b then true else false.
Definition Reqb (a b : R) : bool := if Req_dec_T a b then true else false.

(** [math.log10] *)
Definition log10 (x : R) : R := ln x / ln 10.

Module np.
(** [np.sum] *)
Definition sum (v : list R) : R := fold_right Rplus 0 v.
(** [np.dot] of two vectors of the same size *)
Fixpoint dot (u v : list R) : R :=
  match u, v with
  | x :: u', y :: v' => x * y + dot u' v'
  | _, _ => 0
  end.
(** [np.linalg.norm] *)
Definition norm (v : list R) : R := sqrt (sum (map (fun x => x * x) v)).
(** [v / c] *)
Definition scale (v : list R) (c : R) : list R := map (fun x => x / c) v.
End np.

(* ================================================================== *)
(** * Python floats where rounding matters: IEEE 754 binary64 *)
(* ================================================================== *)

(** The arithmetic of a Python [float] as the machine does it: the
    operations of [SpecFloat] at precision 53, every result rounded to the
    nearest double, ties to even. *)
Module float64.

Definition float := spec_float.
Definition prec : Z := 53.
Definition emax : Z := 1024.

(** [float(z)]; exact for an integer below 2^53 in absolute value. *)
Definition of_Z (z : Z) : float := binary_normalize prec emax z 0 false.
Definition of_nat (n : nat) : float := of_Z (Z.of_nat n).

Definition add : float -> float -> float := SFadd prec emax.
Definition mul : float -> float -> float := SFmul prec emax.
Definition div : float -> float -> float := SFdiv prec emax.
Definition sqrt : float -> float := SFsqrt prec emax.

(** [x < y] and [x == y]; both are false when one side is not a number. *)
Definition ltb : float -> float -> bool := SFltb.
Definition eqb : float -> float -> bool := SFeqb.

Definition zero : float := S754_zero false.
Definition one : float := of_Z 1.

(** The decimal literal that reads [num / den], as [0.7] reads 7 / 10: the
    double nearest to the quotient. *)
Definition literal (num den : Z) : float := div (of_Z num) (of_Z den).

(** [int(x)] for a finite [x]: the fraction is dropped. *)
Definition int (x : float) : Z :=
  match x with
  | S754_finite s m e =>
      let magnitude := if (0 <=? e)%Z then (Z.pos m * 2 ^ e)%Z
                       else (Z.pos m / 2 ^ (- e))%Z in
      if s then (- magnitude)%Z else magnitude
  | _ => 0%Z
  end.

End float64.

(* ================================================================== *)
(** * The text normaliser ([services/preprocessing.py]) *)
(* ================================================================== *)

(** A spaCy token, with the four attributes the code reads. *)
Module spacy.
Record Token := mkToken {
  text : str;
  lemma_ : str;
  is_alpha : bool;
  is_stop : bool
}.
End spacy.

(** [PreprocessingService]: [nlp] is the loaded spaCy pipeline and
    [stemmer] the NLTK RSLP stemmer, both external; [stopwords] is
    [set(STOPWORDS)] from [app.utils.constants]. *)
Record PreprocessingService := mkPreprocessing {
  use_spacy : bool;
  nlp : option (str -> list spacy.Token);
  stemmer : option (str -> str);
  stopwords : list str;
  lematizadas_corrigidas : dict str
}.

(** The class [a-záéíóúâêîôûãõç]. *)
Definition in_alphabet (c : ascii) : bool :=
  between 97 122 c
  || existsb (Nat.eqb (code c))
       [225; 233; 237; 243; 250; 226; 234; 238; 244; 251; 227; 245; 231]%nat.

Definition space : ascii := " "%char.

(** [re.sub(r'\s+', ' ', s)]; [in_run] tells that the previous character
    was whitespace already. *)
Fixpoint collapse_spaces (in_run : bool) (s : str) : str :=
  match s with
  | [] => []
  | c :: s' =>
      if isspace c
      then if in_run then collapse_spaces true s' else space :: collapse_spaces true s'
      else c :: collapse_spaces false s'
  end.

(** [PreprocessingService.clean_text] *)
Definition clean_text (text : str) : str :=
  let text1 :=
    map (fun c => if in_alphabet c || chr_eqb c space then c else space) (lower text) in
  strip (collapse_spaces false text1).

(** [PreprocessingService.normalize_term] *)
Definition normalize_term (term : str) : str :=
  filter in_alphabet (strip (lower term)).

(** The body shared by the two rule-based loops: the canonical term of a
    normalised word, or [None] when the word is discarded. *)
Definition stem_term (self : PreprocessingService) (w : str) : option str :=
  if (2 <? length w)%nat && negb (mem w (stopwords self))
  then Some (match get (lematizadas_corrigidas self) w with
             | Some fixed => fixed
             | None => match stemmer self with
                       | Some stem => stem w
                       | None => w
                       end
             end)
  else None.

(** [termos[t] = termos.get(t, 0) + 1] *)
Definition count_term (termos : dict nat) (t : str) : dict nat :=
  set termos t (get_or termos t 0%nat + 1)%nat.

(** [PreprocessingService.process_text] *)
Definition process_text (self : PreprocessingService) (text : str) : dict nat :=
  let texto_limpo := clean_text text in
  match (if use_spacy self then nlp self else None) with
  | Some model =>
      fold_left
        (fun termos token =>
           if spacy.is_alpha token && negb (spacy.is_stop token)
              && negb (mem (spacy.text token) (stopwords self))
           then count_term termos
                  (get_or (lematizadas_corrigidas self) (spacy.text token)
                          (spacy.lemma_ token))
           else termos)
        (model texto_limpo) []
  | None =>
      fold_left
        (fun termos palavra =>
           match stem_term self (normalize_term palavra) with
           | Some termo_final => count_term termos termo_final
           | None => termos
           end)
        (split texto_limpo) []
  end.

(** [PreprocessingService.process_query] *)
Definition process_query (self : PreprocessingService) (query : str) : list str :=
  let termos := split (lower query) in
  match (if use_spacy self then nlp self else None) with
  | Some model =>
      flat_map
        (fun termo =>
           flat_map
             (fun token =>
                if spacy.is_alpha token && negb (spacy.is_stop token)
                then [get_or (lematizadas_corrigidas self) (spacy.text token)
                             (spacy.lemma_ token)]
                else [])
             (model termo))
        termos
  | None =>
      flat_map
        (fun termo =>
           match stem_term self (normalize_term termo) with
           | Some termo_final => [termo_final]
           | None => []
           end)
        termos
  end.

(* ================================================================== *)
(** * difflib.SequenceMatcher (Python standard library) *)
(* ================================================================== *)

(** [SequenceMatcher(None, a, b).ratio()] as the library computes it with
    [isjunk=None] and [autojunk=True]: [__chain_b], [find_longest_match],
    [get_matching_blocks] and [ratio]. The ratio is a quotient of two
    integers and is kept exact; comparing two such quotients, or one with
    0.7, gives what comparing their doubles gives as long as the sequences
    have fewer than 2^25 elements. *)
Module difflib.

(** [__chain_b]: when [b] has 200 elements or more, an element that occurs
    in it more than [len(b) // 100 + 1] times is popular and is deleted from
    [b2j], so that no block is started or continued on it. *)
Definition bpopular (b : str) (c : ascii) : bool :=
  (200 <=? length b)%nat
  && (length b / 100 + 1 <? length (filter (chr_eqb c) b))%nat.

(** Length of the run of equal elements at the heads of [a] and [b] that
    [b2j] knows: it stops at the first popular element. *)
Fixpoint common_prefix (popular : ascii -> bool) (a b : str) : nat :=
  match a, b with
  | x :: a', y :: b' =>
      if chr_eqb x y && negb (popular y) then S (common_prefix popular a' b') else 0
  | _, _ => 0
  end.

(** Longest run starting at the head of [a], over the suffixes of [b];
    [best] is [(besti, bestj, bestsize)] and changes only for a strictly
    longer run. *)
Fixpoint scan_b (popular : ascii -> bool) (i : nat) (a b : str) (j : nat)
         (best : nat * nat * nat) : nat * nat * nat :=
  match b with
  | [] => best
  | _ :: b' =>
      let k := common_prefix popular a b in
      scan_b popular i a b' (S j) (if (snd best <? k)%nat then (i, j, k) else best)
  end.

Fixpoint scan_a (popular : ascii -> bool) (a b : str) (i : nat)
         (best : nat * nat * nat) : nat * nat * nat :=
  match a with
  | [] => best
  | _ :: a' => scan_a popular a' b (S i) (scan_b popular i a b 0%nat best)
  end.

(** [find_longest_match] on the whole of [a] and [b]: the longest run, the
    earliest in [a] among the longest, the earliest in [b] among those;
    then the two loops that extend it on each side over equal elements,
    popular or not (no element is junk, so the two loops over junk do
    nothing). *)
Definition find_longest_match (popular : ascii -> bool) (a b : str)
  : nat * nat * nat :=
  let '(besti, bestj, bestsize) := scan_a popular a b 0%nat (0, 0, 0)%nat in
  let before := common_prefix (fun _ => false)
                              (rev (firstn besti a)) (rev (firstn bestj b)) in
  let after := common_prefix (fun _ => false)
                             (skipn (besti + bestsize) a) (skipn (bestj + bestsize) b) in
  ((besti - before)%nat, (bestj - before)%nat, (before + bestsize + after)%nat).

(** Sum of the sizes of [get_matching_blocks()]: the longest match, then
    the pieces on its left and on its right, with the popular elements of
    the whole of [b]. *)
Fixpoint matches (popular : ascii -> bool) (fuel : nat) (a b : str) : nat :=
  match fuel with
  | O => 0
  | S fuel' =>
      let '(i, j, k) := find_longest_match popular a b in
      if (k =? 0)%nat then 0%nat
      else (matches popular fuel' (firstn i a) (firstn j b) + k
            + matches popular fuel' (skipn (i + k) a) (skipn (j + k) b))%nat
  end.

Definition ratio (a b : str) : Q :=
  let T := (length a + length b)%nat in
  if (T =? 0)%nat then 1%Q
  else (Z.of_nat (2 * matches (bpopular b) (S (length a)) a b) # Pos.of_nat T)%Q.

End difflib.

(* ================================================================== *)
(** * The snippet extractor ([utils/text_processing.py]) *)
(* ================================================================== *)

Module text_processing.

Definition ellipsis : str := lit "...".

(** The two places where the text is returned from its start: cut at the
    first [' '] at or after [context_length], or at [context_length]
    itself when [find] gives -1. *)
Definition head_of_text (text : str) (context_length : nat) : str * list str :=
  if (context_length <? length text)%nat
  then
    let end_pos := match find text space context_length with
                   | Some p => p
                   | None => context_length
                   end in
    (strip (firstn end_pos text) ++ ellipsis, [])
  else (text, []).

(** The loop that fills [original_terms]. *)
Definition original_terms_of (original_query : option str) : list str :=
  match original_query with
  | None => []
  | Some q =>
      flat_map
        (fun word =>
           let word_clean := filter (fun c => is_word c || in_alphabet c) word in
           if (2 <? length word_clean)%nat then [word_clean] else [])
        (split (lower q))
  end.

Inductive MatchType := exact | fuzzy.

(** A regex match object: [start()] and [group()]. *)
Definition Match := (nat * str)%type.

(** The variables of the exact pass. *)
Record Exact := mkExact {
  best_match : option Match;
  best_pos : nat;
  match_type : option MatchType;
  matched_words : list str
}.

Definition exact_step (text_lower : str) (st : Exact) (orig_term : str) : Exact :=
  match word_search orig_term text_lower with
  | Some pos =>
      if (pos <? best_pos st)%nat
      then mkExact (Some (pos, orig_term)) pos (Some exact)
                   (matched_words st ++ [orig_term])
      else st
  | None => st
  end.

Definition exact_pass (text text_lower : str) (original_terms : list str) : Exact :=
  fold_left (exact_step text_lower) original_terms
            (mkExact None (length text) None []).

(** The variables of the fuzzy pass. *)
Record Fuzzy := mkFuzzy {
  best_fuzzy_match : option Match;
  best_similarity : Q;
  best_fuzzy_pos : nat
}.

(** [int(n * 0.7)] and [int(n * 1.3)]: the length becomes a double, the
    product is rounded to a double, and [int] drops its fraction. *)
Definition min_len_of (n : nat) : nat :=
  Z.to_nat (float64.int (float64.mul (float64.of_nat n) (float64.literal 7 10))).
Definition max_len_of (n : nat) : nat :=
  Z.to_nat (float64.int (float64.mul (float64.of_nat n) (float64.literal 13 10))).

(** [search_term_lower and word and search_term_lower[0] != word[0]] *)
Definition first_differs (a b : str) : bool :=
  match a, b with
  | x :: _, y :: _ => negb (chr_eqb x y)
  | _, _ => false
  end.

Definition fuzzy_word (text_lower search_term_lower : str) (st : Fuzzy) (word : str)
  : Fuzzy :=
  let search_term_len := length search_term_lower in
  if (length word <? min_len_of search_term_len)%nat
     || (max_len_of search_term_len <? length word)%nat
  then st
  else if first_differs search_term_lower word then st
  else
    let similarity := difflib.ratio search_term_lower word in
    if Qle_bool (best_similarity st) similarity
    then match word_search word text_lower with
         | Some pos =>
             if negb (Qle_bool similarity (best_similarity st))
                || (Qeq_bool similarity (best_similarity st)
                    && (pos <? best_fuzzy_pos st)%nat)
             then mkFuzzy (Some (pos, word)) similarity pos
             else st
         | None => st
         end
    else st.

Definition fuzzy_term (text_lower : str) (words_in_text : list str)
           (st : Fuzzy) (search_term : str) : Fuzzy :=
  fold_left (fuzzy_word text_lower (lower search_term)) words_in_text st.

Definition fuzzy_pass (text text_lower : str) (search_terms : list str) : Fuzzy :=
  fold_left (fuzzy_term text_lower (findall_words text_lower)) search_terms
            (mkFuzzy None (7 # 10) (length text)).

(** Both passes: the match the window is cut around, and the words
    recorded on the way. *)
Definition locate (text : str) (original_query : option str) : Exact :=
  let text_lower := lower text in
  let original_terms := original_terms_of original_query in
  let e := exact_pass text text_lower original_terms in
  match best_match e with
  | Some _ => e
  | None =>
      let f := fuzzy_pass text text_lower original_terms in
      match best_fuzzy_match f with
      | Some m =>
          mkExact (Some m) (best_fuzzy_pos f) (Some fuzzy)
                  (matched_words e ++ [snd m] ++ original_terms)
      | None => e
      end
  end.

(** [text[i]], for an index within the text. *)
Definition char_at (text : str) (i : nat) : ascii := nth i text space.

Definition start_stop (c : ascii) : bool :=
  existsb (chr_eqb c) [space; ascii_of_nat 10; ascii_of_nat 9].

Definition end_stop (c : ascii) : bool :=
  existsb (chr_eqb c)
    [space; ascii_of_nat 10; ascii_of_nat 9;
     "."%char; ","%char; ";"%char; "!"%char; "?"%char].

(** [while start > 0 and text[start] not in ...: start -= 1] *)
Fixpoint retreat (text : str) (start : nat) : nat :=
  match start with
  | O => O
  | S before => if start_stop (char_at text start) then start else retreat text before
  end.

(** Number of characters before the first one that satisfies [stop]. *)
Fixpoint run_length (stop : ascii -> bool) (s : str) : nat :=
  match s with
  | [] => 0
  | c :: s' => if stop c then 0 else S (run_length stop s')
  end.

(** [while end < len(text) and text[end] not in ...: end += 1] *)
Definition advance (text : str) (end_ : nat) : nat :=
  (end_ + run_length end_stop (skipn end_ text))%nat.

Definition adjust_start (text : str) (desired_start : nat) : nat :=
  if (0 <? desired_start)%nat
  then let start := retreat text desired_start in
       if (0 <? start)%nat then S start else start
  else desired_start.

Definition adjust_end (text : str) (desired_end : nat) : nat :=
  if (desired_end <? length text)%nat
  then let end_ := advance text desired_end in
       if (end_ <? length text)%nat then S end_ else end_
  else desired_end.

(** The excerpt around a match. *)
Definition window (text : str) (context_length : nat) (m : Match) (pos : nat)
  : nat * nat :=
  let desired_start := (pos - context_length / 2)%nat in
  let desired_end :=
    Nat.min (length text) (pos + length (snd m) + context_length / 2) in
  (adjust_start text desired_start, adjust_end text desired_end).

(** [extract_snippet] *)
Definition extract_snippet (text : str) (terms : list str) (context_length : nat)
           (original_query : option str) : str * list str :=
  match text, terms with
  | [], _ | _, [] => head_of_text text context_length
  | _, _ =>
      let found := locate text original_query in
      match best_match found with
      | Some m =>
          let '(start, end_) := window text context_length m (best_pos found) in
          let snippet := strip (slice text start end_) in
          let snippet := if (0 <? start)%nat then ellipsis ++ snippet else snippet in
          let snippet :=
            if (end_ <? length text)%nat then snippet ++ ellipsis else snippet in
          (snippet,
           distinct (map lower (filter (fun w => negb (str_eqb w [])) (matched_words found))))
      | None => head_of_text text context_length
      end
  end.

End text_processing.

(* ================================================================== *)
(** * The corpus container ([services/corpus_manager.py]) *)
(* ================================================================== *)

(** One entry of [CorpusManager.documents]. *)
Record Document := mkDocument {
  doc_id : str;
  title : str;
  title_raw : str;
  filename : str;
  text_length : nat;
  term_count : nat
}.

(** Term-frequency table of one document: canonical term -> count. *)
Definition TermTable := dict nat.

Record CorpusManager := mkCorpus {
  documents : list Document;
  texts : dict str;
  processed_terms : dict TermTable
}.

(** [CorpusManager.get_document] *)
Fixpoint get_document_in (docs : list Document) (i : str) : option Document :=
  match docs with
  | [] => None
  | d :: docs' => if str_eqb (doc_id d) i then Some d else get_document_in docs' i
  end.

Definition get_document (cm : CorpusManager) (i : str) : option Document :=
  get_document_in (documents cm) i.

(** [CorpusManager.get_document_text] *)
Definition get_document_text (cm : CorpusManager) (i : str) : option str :=
  get (texts cm) i.

(** [CorpusManager.get_all_documents] *)
Definition get_all_documents (cm : CorpusManager) : list Document := documents cm.

(** One file of [pdf_files], with what [PDFParser.extract_text] gives for
    it: the parser is external, and [None] stands for an exception, which
    the loop catches. *)
Record PdfFile := mkPdfFile {
  stem : str;
  name : str;
  extract_text : option str
}.

(** [f"doc_{i+1}"] *)
Definition doc_id_of (i : nat) : str :=
  lit "doc_" ++ list_ascii_of_string (NilEmpty.string_of_uint (Nat.to_uint (i + 1))).

(** [pdf_path.stem.replace("_", " ")] *)
Definition title_of (stem : str) : str :=
  map (fun c => if chr_eqb c "_"%char then " "%char else c) stem.

(** One pass of the loop of [CorpusManager._process_pdfs]. *)
Definition process_pdf (pre : PreprocessingService) (cm : CorpusManager)
           (i : nat) (pdf_path : PdfFile) : CorpusManager :=
  match extract_text pdf_path with
  | None => cm
  | Some texto =>
      match strip texto with
      | [] => cm
      | _ =>
          let termos := process_text pre texto in
          let documento :=
            mkDocument (doc_id_of i) (title_of (stem pdf_path)) (stem pdf_path)
                       (name pdf_path) (length texto) (length termos) in
          mkCorpus (documents cm ++ [documento])
                   (set (texts cm) (doc_id_of i) texto)
                   (set (processed_terms cm) (doc_id_of i) termos)
      end
  end.

(** The loop over [enumerate(pdf_files)], from index [i] on. *)
Fixpoint process_pdfs_from (pre : PreprocessingService) (i : nat)
         (pdf_files : list PdfFile) (cm : CorpusManager) : CorpusManager :=
  match pdf_files with
  | [] => cm
  | pdf_path :: rest => process_pdfs_from pre (S i) rest (process_pdf pre cm i pdf_path)
  end.

(** [CorpusManager._process_pdfs], [pdf_files] being the sorted listing,
    cut to [max_documents]. *)
Definition _process_pdfs (pre : PreprocessingService) (pdf_files : list PdfFile)
           (cm : CorpusManager) : CorpusManager :=
  process_pdfs_from pre 0 pdf_files cm.

(** [CorpusManager.__init__] *)
Definition empty_corpus : CorpusManager := mkCorpus [] [] [].

(** ** The statistics ([CorpusManager.get_statistics]) *)

(** The dictionary [CorpusManager.get_statistics] returns. *)
Record Statistics := mkStatistics {
  total_documents : nat;
  total_terms : nat;
  avg_doc_length : nat
}.

(** [all_terms.update(ks)] on a set, held as the list of its elements in
    the order they came in. *)
Definition update (all_terms : list str) (ks : list str) : list str :=
  fold_left (fun s k => if mem k s then s else s ++ [k]) ks all_terms.

(** [CorpusManager.get_statistics]; [int(total / n)] is the floor of the
    quotient, as long as the total length stays below 2^53. *)
Definition get_statistics (cm : CorpusManager) : Statistics :=
  match documents cm with
  | [] => mkStatistics 0 0 0
  | _ =>
      let all_terms :=
        fold_left (fun s termos => update s (keys termos))
                  (values (processed_terms cm)) [] in
      let total := fold_right Nat.add 0%nat (map text_length (documents cm)) in
      mkStatistics (length (documents cm)) (length all_terms)
                   (total / length (documents cm))
  end.

(** ** The frequency report ([CorpusManager.generate_frequency_report]) *)

(** [f"{n}"] for an int that is not negative. *)
Definition str_of_nat (n : nat) : str :=
  list_ascii_of_string (NilEmpty.string_of_uint (Nat.to_uint n)).

(** [sep.join(l)] *)
Fixpoint join (sep : str) (l : list str) : str :=
  match l with
  | [] => []
  | x :: rest => match rest with [] => x | _ => x ++ sep ++ join sep rest end
  end.

(** [frequencias_totais[termo] = frequencias_totais.get(termo, 0) + freq] *)
Definition add_freq (totais : dict nat) (e : str * nat) : dict nat :=
  set totais (fst e) (get_or totais (fst e) 0%nat + snd e)%nat.

(** The two nested loops that fill [frequencias_totais]. *)
Definition frequencias_totais (pt : dict TermTable) : dict nat :=
  fold_left (fun totais e => fold_left add_freq (snd e) totais) pt [].

(** [doc_titles]; every entry of [documents] has a ['title_raw']. *)
Definition doc_titles (docs : list Document) : dict str :=
  fold_left (fun titles doc => set titles (doc_id doc) (title_raw doc)) docs [].

(** [detalhes_por_doc] for one term, as pairs (title, count); [doc_count]
    is its length. *)
Definition detalhes_por_doc (cm : CorpusManager) (termo : str) : list (str * nat) :=
  flat_map
    (fun i =>
       match get (get_or (processed_terms cm) i []) termo with
       | Some freq_doc => [(get_or (doc_titles (documents cm)) i i, freq_doc)]
       | None => []
       end)
    (Py.sorted str_ltb (keys (processed_terms cm))).

(** The lines of the report before they are formatted: the term, its total
    and its details, in the order of
    [sorted(frequencias_totais.items(), key=lambda x: x[0])]. *)
Definition linhas (cm : CorpusManager) : list (str * nat * list (str * nat)) :=
  map (fun e => (fst e, snd e, detalhes_por_doc cm (fst e)))
      (Py.sorted (fun y x => str_ltb (fst y) (fst x))
                 (frequencias_totais (processed_terms cm))).

(** [f"{termo}/{freq_total} [{doc_count}] -> {' '.join(detalhes_por_doc)}"] *)
Definition format_linha (linha : str * nat * list (str * nat)) : str :=
  let '(termo, freq_total, detalhes) := linha in
  termo ++ lit "/" ++ str_of_nat freq_total ++ lit " [" ++ str_of_nat (length detalhes)
        ++ lit "] -> "
        ++ join (lit " ") (map (fun d => fst d ++ lit "/" ++ str_of_nat (snd d)) detalhes).

(** [CorpusManager.generate_frequency_report], the string it returns. *)
Definition generate_frequency_report (cm : CorpusManager) : str :=
  match processed_terms cm with
  | [] => []
  | _ => join [ascii_of_nat 10] (map format_linha (linhas cm))
  end.

(* ================================================================== *)
(** * The cache on disk ([services/cache_service.py]) *)
(* ================================================================== *)

(** The corpus directory as the code reads it: whether it exists, the
    listing [sorted(corpus_path.glob("*.pdf"))], and the SHA-256 digest of
    the file of a given name ([None]: reading the file raises). *)
Record CorpusDir := mkCorpusDir {
  dir_exists : bool;
  pdf_files : list PdfFile;
  sha256 : str -> option str
}.

Module CacheService.

(** A file of the cache directory: missing, there but not readable as JSON,
    or holding a value.  Writing a file and reading it back gives the value
    written: failures of the file system are not modelled. *)
Inductive File (A : Type) : Type :=
| missing : File A
| unreadable : File A
| holding : A -> File A.

Arguments missing {A}.
Arguments unreadable {A}.
Arguments holding {A} _.

(** [path.exists()] *)
Definition exists_ (A : Type) (f : File A) : bool :=
  match f with missing => false | _ => true end.

(** [json.load] on the opened file; [None] stands for the exception. *)
Definition json_load (A : Type) (f : File A) : option A :=
  match f with holding a => Some a | _ => None end.

Record Service := mkService {
  documents_file : File (list Document);
  texts_file : File (dict str);
  processed_terms_file : File (dict TermTable);
  corpus_hash_file : File (dict (option str))
}.

(** [CacheService._calculate_corpus_hash]: a file that cannot be read gets
    [None]. *)
Definition _calculate_corpus_hash (corpus_path : CorpusDir) : dict (option str) :=
  fold_left
    (fun hashes pdf_path =>
       set hashes (name pdf_path) (sha256 corpus_path (name pdf_path)))
    (pdf_files corpus_path) [].

(** [CacheService._load_corpus_hash] *)
Definition _load_corpus_hash (self : Service) : option (dict (option str)) :=
  if negb (exists_ (corpus_hash_file self)) then None
  else json_load (corpus_hash_file self).

(** [==] on two digests, each a string or [None]. *)
Definition hash_eqb (a b : option str) : bool :=
  match a, b with
  | Some x, Some y => str_eqb x y
  | None, None => true
  | _, _ => false
  end.

(** [set(a) == set(b)] *)
Definition same_set (a b : list str) : bool :=
  forallb (fun k => mem k b) a && forallb (fun k => mem k a) b.

(** [CacheService.is_cache_valid] *)
Definition is_cache_valid (self : Service) (corpus_path : CorpusDir)
           (skip_hash_check : bool) : bool :=
  if negb (exists_ (documents_file self) && exists_ (texts_file self)
           && exists_ (processed_terms_file self) && exists_ (corpus_hash_file self))
  then false
  else if skip_hash_check then true
  else
    match _load_corpus_hash self with
    | None | Some [] => false
    | Some cached_hashes =>
        let current_hashes := _calculate_corpus_hash corpus_path in
        if negb (same_set (keys cached_hashes) (keys current_hashes)) then false
        else
          forallb
            (fun e =>
               has current_hashes (fst e)
               && hash_eqb (get_or current_hashes (fst e) None) (snd e))
            cached_hashes
    end.

(** [CacheService.save_cache] *)
Definition save_cache (self : Service) (documents : list Document) (texts : dict str)
           (processed_terms : dict TermTable) (corpus_path : CorpusDir) : Service :=
  mkService (holding documents) (holding texts) (holding processed_terms)
            (holding (_calculate_corpus_hash corpus_path)).

(** [CacheService.load_cache]: the dictionary with the keys ['documents'],
    ['texts'] and ['processed_terms'], or [None]. *)
Definition load_cache (self : Service) : option CorpusManager :=
  match json_load (documents_file self) with
  | None => None
  | Some documents =>
      match json_load (processed_terms_file self) with
      | None => None
      | Some processed_terms =>
          match json_load (texts_file self) with
          | None => None
          | Some texts => Some (mkCorpus documents texts processed_terms)
          end
      end
  end.

(** [CacheService.clear_cache] *)
Definition clear_cache (self : Service) : Service :=
  mkService missing missing missing missing.

End CacheService.

(* ================================================================== *)
(** * Loading the corpus ([CorpusManager.load_corpus]) *)
(* ================================================================== *)

Module Loader.

(** A [CorpusManager] with the fields that loading reads and writes. *)
Record State := mkState {
  data : CorpusManager;
  _is_loaded : bool;
  use_cache : bool;
  cache_service : option CacheService.Service
}.

(** [CorpusManager.__init__]; [cache] is the cache directory as found. *)
Definition init (use_cache : bool) (cache : CacheService.Service) : State :=
  mkState empty_corpus false use_cache (if use_cache then Some cache else None).

Inductive Outcome :=
| FileNotFoundError
| returns (self : State).

(** [if max_documents: pdf_files = pdf_files[:max_documents]] *)
Definition limited (max_documents : option Z) (pdf_files : list PdfFile)
  : list PdfFile :=
  match max_documents with
  | None => pdf_files
  | Some k => if (k =? 0)%Z then pdf_files else slice_to pdf_files k
  end.

(** What the first part of [load_corpus] takes from the cache, if it does. *)
Definition from_cache (self : State) (corpus_path : CorpusDir)
           (max_documents : option Z) (force_reload : bool) : option CorpusManager :=
  match cache_service self with
  | None => None
  | Some cache =>
      if use_cache self && negb force_reload
      then match max_documents with
           | Some _ => None
           | None =>
               if CacheService.is_cache_valid cache corpus_path true
               then CacheService.load_cache cache
               else None
           end
      else None
  end.

(** [CorpusManager.load_corpus] *)
Definition load_corpus (pre : PreprocessingService) (self : State)
           (corpus_path : CorpusDir) (max_documents : option Z) (force_reload : bool)
  : Outcome :=
  if _is_loaded self && negb force_reload then returns self
  else if negb (dir_exists corpus_path) then FileNotFoundError
  else
    match from_cache self corpus_path max_documents force_reload with
    | Some cached_data =>
        returns (mkState cached_data true (use_cache self) (cache_service self))
    | None =>
        let data' :=
          _process_pdfs pre (limited max_documents (pdf_files corpus_path)) (data self) in
        let cache' :=
          match cache_service self, max_documents with
          | Some cache, None =>
              if use_cache self
              then Some (CacheService.save_cache cache (documents data') (texts data')
                                                 (processed_terms data') corpus_path)
              else Some cache
          | c, _ => c
          end in
        returns (mkState data' true (use_cache self) cache')
    end.

End Loader.

(* ================================================================== *)
(** * Result items ([models/schemas.py]) and their assembly *)
(* ================================================================== *)

Module schemas.
Record ResultItem := mkResultItem {
  id : str;
  title : str;
  score : R;
  snippet : str;
  matchedWords : list str;
  filename : option str
}.

Record Metrics := mkMetrics {
  preprocessTime : R;
  tfidfTime : R;
  bm25Time : R
}.
End schemas.

(** Descending by score, as [sorted(..., key=lambda x: x[1], reverse=True)]
    and [sort(key=lambda x: x[1], reverse=True)] order the pairs: a pair
    moves in front of another only for a strictly greater score. *)
Definition higher (y x : str * R) : bool := Rltb (snd x) (snd y).

Definition sort_by_score (l : list (str * R)) : list (str * R) :=
  Py.sorted higher l.

(** The loop [for doc_id, score in ...[:top_k]] that both scorers end with;
    [seen] is [seen_doc_ids]. *)
Fixpoint build_results (cm : CorpusManager) (query_terms : list str) (query : str)
         (seen : list str) (docs : list (str * R)) : list schemas.ResultItem :=
  match docs with
  | [] => []
  | (i, score) :: docs' =>
      if mem i seen then build_results cm query_terms query seen docs'
      else
        match get_document cm i with
        | None => build_results cm query_terms query (i :: seen) docs'
        | Some doc_info =>
            let text := match get_document_text cm i with
                        | Some t => t
                        | None => []
                        end in
            let '(snippet, matched_words) :=
              text_processing.extract_snippet text query_terms 250 (Some query) in
            schemas.mkResultItem i (title doc_info) score snippet matched_words
                                 (Some (filename doc_info))
              :: build_results cm query_terms query (i :: seen) docs'
        end
  end.

(* ================================================================== *)
(** * The TF-IDF scorer ([services/tfidf_service.py]) *)
(* ================================================================== *)

(** In exact arithmetic; [TFIDF64] below is the same scorer on doubles. *)
Module TFIDF.

Record Service := mkService {
  tf_idf_index : dict (dict R);
  idf : dict R;
  _is_indexed : bool
}.

(** [TFIDFService.__init__] *)
Definition init : Service := mkService [] [] false.

(** [df[termo] += 1] on a [defaultdict(int)] *)
Definition incr (df : dict nat) (termo : str) : dict nat :=
  set df termo (get_or df termo 0%nat + 1)%nat.

(** The two nested loops that fill [df]. *)
Definition document_frequency (pt : dict TermTable) : dict nat :=
  fold_left (fun df termos_doc => fold_left incr (keys termos_doc) df)
            (values pt) [].

(** [log10(1 + N / df_val)] *)
Definition idf_value (N df_val : nat) : R := log10 (1 + INR N / INR df_val).

(** The loop that fills [self.idf]: one entry per key of [df], in order. *)
Definition build_idf (N : nat) (df : dict nat) : dict R :=
  map (fun e => (fst e, idf_value N (snd e))) df.

(** [1 + log10(freq) if freq > 0 else 0] *)
Definition tf_value (freq : nat) : R :=
  if (0 <? freq)%nat then 1 + log10 (INR freq) else 0.

(** [tf * self.idf[termo]]; every term of a document is a key of [idf]
    (lemma [build_idf_has_every_term]), so the lookup never fails. *)
Definition weight (idf : dict R) (termo : str) (freq : nat) : R :=
  tf_value freq * get_or idf termo 0.

Definition doc_weights (idf : dict R) (termos : TermTable) : dict R :=
  fold_left (fun row e => set row (fst e) (weight idf (fst e) (snd e))) termos [].

Definition build_tf_idf_index (idf : dict R) (pt : dict TermTable) : dict (dict R) :=
  fold_left (fun ix e => set ix (fst e) (doc_weights idf (snd e))) pt [].

Definition _build_index (self : Service) (cm : CorpusManager) : Service :=
  if _is_indexed self then self
  else
    let processed := processed_terms cm in
    let N := length processed in
    if (N =? 0)%nat then self
    else
      let df := document_frequency processed in
      let idf' := build_idf N df in
      mkService (build_tf_idf_index idf' processed) idf' true.

(** [query_term_freq] *)
Definition query_term_freq (query_terms : list str) : dict nat :=
  fold_left count_term query_terms [].

(** One pass of the loop that fills [query_tfidf_values]. *)
Definition query_tfidf_value (idf : dict R) (freqs : dict nat) (termo : str) : R :=
  let tf_query := get_or freqs termo 0%nat in
  let tf_query := if (0 <? tf_query)%nat then 1 + log10 (INR tf_query) else 0 in
  tf_query * get_or idf termo 0.

(** One coordinate per element of [query_terms]. *)
Definition query_tfidf_values (idf : dict R) (query_terms : list str) : list R :=
  map (query_tfidf_value idf (query_term_freq query_terms)) query_terms.

(** [doc_vector] *)
Definition doc_vector (index : dict (dict R)) (i : str) (query_terms : list str)
  : list R :=
  map (fun termo => get_or (get_or index i []) termo 0) query_terms.

(** The body of the loop over the documents: the similarity that is stored
    for the document, if one is. *)
Definition similarity_of (is_single_term : bool) (query_size : nat)
           (query_vector_normalized : list R) (doc_vector : list R) : option R :=
  if negb (length doc_vector =? query_size)%nat then None
  else if Rltb 0 (np.sum doc_vector)
  then
    let similarity :=
      if is_single_term then Some (nth 0 doc_vector 0)
      else
        let doc_norm := np.norm doc_vector in
        if Rltb 0 doc_norm
        then Some (np.dot (np.scale doc_vector doc_norm) query_vector_normalized)
        else None in
    match similarity with
    | Some sim => if Rltb 0 sim then Some sim else None
    | None => None
    end
  else None.

(** [similarities], from the query terms found in the index. *)
Definition similarities (self : Service) (query_terms : list str) : dict R :=
  let query_vector := query_tfidf_values (idf self) query_terms in
  if (length query_vector =? 0)%nat || Reqb (np.sum query_vector) 0 then []
  else
    let is_single_term := (length query_terms =? 1)%nat in
    let query_norm := np.norm query_vector in
    if Rltb 0 query_norm
    then
      let query_vector_normalized := np.scale query_vector query_norm in
      fold_left
        (fun sims i =>
           match similarity_of is_single_term (length query_vector)
                   query_vector_normalized
                   (doc_vector (tf_idf_index self) i query_terms) with
           | Some sim => set sims i sim
           | None => sims
           end)
        (keys (tf_idf_index self)) []
    else [].

(** [termos_encontrados] *)
Definition termos_encontrados (self : Service) (query_terms : list str) : list str :=
  filter (has (idf self)) query_terms.

(** [sorted_docs], for a query as processed by the normaliser. *)
Definition sorted_docs (self : Service) (processed : list str) : list (str * R) :=
  match processed with
  | [] => []
  | _ =>
      match termos_encontrados self processed with
      | [] => []
      | query_terms => sort_by_score (similarities self query_terms)
      end
  end.

(** [TFIDFService.search]; [tf_weight] is not read by the code. *)
Definition search (self : Service) (cm : CorpusManager) (pre : PreprocessingService)
           (query : str) (top_k : Z) : Service * list schemas.ResultItem :=
  let self := _build_index self cm in
  let processed := process_query pre query in
  let query_terms := termos_encontrados self processed in
  (self,
   build_results cm query_terms query []
                 (slice_to (sorted_docs self processed) top_k)).

End TFIDF.

(* ================================================================== *)
(** * The TF-IDF scorer on doubles *)
(* ================================================================== *)

(** numpy on vectors of doubles. [np.dot] and [np.linalg.norm], which is
    the square root of [x.dot(x)], go through BLAS, which is free to fuse a
    product with the addition that follows or to add in another order; the
    model adds the rounded products one by one from 0.0, as the plain loop
    does. [np.sum] adds in pairs from eight elements on; the code only
    compares its result with 0, and a sum of doubles that are 0 or positive
    is 0 in any order exactly when each of them is. *)
Module np64.
(** [np.sum] *)
Definition sum (v : list float64.float) : float64.float :=
  fold_left float64.add v float64.zero.
(** [np.dot] of two vectors of the same size *)
Definition dot (u v : list float64.float) : float64.float :=
  fold_left (fun s xy => float64.add s (float64.mul (fst xy) (snd xy)))
            (combine u v) float64.zero.
(** [np.linalg.norm] *)
Definition norm (v : list float64.float) : float64.float := float64.sqrt (dot v v).
(** [v / c] *)
Definition scale (v : list float64.float) (c : float64.float) : list float64.float :=
  map (fun x => float64.div x c) v.
End np64.

(** [TFIDFService] with every number a double and every operation rounded,
    for the places where the computed value and the exact one part. The
    definitions follow those of [TFIDF] line for line. *)
Module TFIDF64.

Record Service := mkService {
  tf_idf_index : dict (dict float64.float);
  idf : dict float64.float;
  _is_indexed : bool
}.

(** [TFIDFService.__init__] *)
Definition init : Service := mkService [] [] false.

(** [doc_vector] *)
Definition doc_vector (index : dict (dict float64.float)) (i : str)
           (query_terms : list str) : list float64.float :=
  map (fun termo => get_or (get_or index i []) termo float64.zero) query_terms.

(** The body of the loop over the documents. *)
Definition similarity_of (is_single_term : bool) (query_size : nat)
           (query_vector_normalized : list float64.float)
           (doc_vector : list float64.float) : option float64.float :=
  if negb (length doc_vector =? query_size)%nat then None
  else if float64.ltb float64.zero (np64.sum doc_vector)
  then
    let similarity :=
      if is_single_term then Some (nth 0 doc_vector float64.zero)
      else
        let doc_norm := np64.norm doc_vector in
        if float64.ltb float64.zero doc_norm
        then Some (np64.dot (np64.scale doc_vector doc_norm) query_vector_normalized)
        else None in
    match similarity with
    | Some sim => if float64.ltb float64.zero sim then Some sim else None
    | None => None
    end
  else None.

Section Libm.
(** [math.log10], the function of the C library. *)
Variable log10 : float64.float -> float64.float.

(** [log10(1 + N / df_val)] *)
Definition idf_value (N df_val : nat) : float64.float :=
  log10 (float64.add float64.one (float64.div (float64.of_nat N) (float64.of_nat df_val))).

Definition build_idf (N : nat) (df : dict nat) : dict float64.float :=
  map (fun e => (fst e, idf_value N (snd e))) df.

(** [1 + log10(freq) if freq > 0 else 0] *)
Definition tf_value (freq : nat) : float64.float :=
  if (0 <? freq)%nat then float64.add float64.one (log10 (float64.of_nat freq))
  else float64.zero.

(** [tf * self.idf[termo]] *)
Definition weight (idf : dict float64.float) (termo : str) (freq : nat) : float64.float :=
  float64.mul (tf_value freq) (get_or idf termo float64.zero).

Definition doc_weights (idf : dict float64.float) (termos : TermTable)
  : dict float64.float :=
  fold_left (fun row e => set row (fst e) (weight idf (fst e) (snd e))) termos [].

Definition build_tf_idf_index (idf : dict float64.float) (pt : dict TermTable)
  : dict (dict float64.float) :=
  fold_left (fun ix e => set ix (fst e) (doc_weights idf (snd e))) pt [].

Definition _build_index (self : Service) (cm : CorpusManager) : Service :=
  if _is_indexed self then self
  else
    let processed := processed_terms cm in
    let N := length processed in
    if (N =? 0)%nat then self
    else
      let df := TFIDF.document_frequency processed in
      let idf' := build_idf N df in
      mkService (build_tf_idf_index idf' processed) idf' true.

(** One pass of the loop that fills [query_tfidf_values]. *)
Definition query_tfidf_value (idf : dict float64.float) (freqs : dict nat) (termo : str)
  : float64.float :=
  let tf_query := get_or freqs termo 0%nat in
  let tf_query := if (0 <? tf_query)%nat
                  then float64.add float64.one (log10 (float64.of_nat tf_query))
                  else float64.zero in
  float64.mul tf_query (get_or idf termo float64.zero).

Definition query_tfidf_values (idf : dict float64.float) (query_terms : list str)
  : list float64.float :=
  map (query_tfidf_value idf (TFIDF.query_term_freq query_terms)) query_terms.

(** [similarities], from the query terms found in the index. *)
Definition similarities (self : Service) (query_terms : list str) : dict float64.float :=
  let query_vector := query_tfidf_values (idf self) query_terms in
  if (length query_vector =? 0)%nat || float64.eqb (np64.sum query_vector) float64.zero
  then []
  else
    let is_single_term := (length query_terms =? 1)%nat in
    let query_norm := np64.norm query_vector in
    if float64.ltb float64.zero query_norm
    then
      let query_vector_normalized := np64.scale query_vector query_norm in
      fold_left
        (fun sims i =>
           match similarity_of is_single_term (length query_vector)
                   query_vector_normalized
                   (doc_vector (tf_idf_index self) i query_terms) with
           | Some sim => set sims i sim
           | None => sims
           end)
        (keys (tf_idf_index self)) []
    else [].

(** [termos_encontrados] *)
Definition termos_encontrados (self : Service) (query_terms : list str) : list str :=
  filter (has (idf self)) query_terms.

(** A pair moves in front of another only for a strictly greater score. *)
Definition higher (y x : str * float64.float) : bool := float64.ltb (snd x) (snd y).

(** [sorted_docs], for a query as processed by the normaliser. *)
Definition sorted_docs (self : Service) (processed : list str)
  : list (str * float64.float) :=
  match processed with
  | [] => []
  | _ =>
      match termos_encontrados self processed with
      | [] => []
      | query_terms => Py.sorted higher (similarities self query_terms)
      end
  end.

(** The result loop: the identifier and the score of each item it
    appends. *)
Fixpoint result_scores (cm : CorpusManager) (seen : list str)
         (docs : list (str * float64.float)) : list (str * float64.float) :=
  match docs with
  | [] => []
  | (i, score) :: docs' =>
      if mem i seen then result_scores cm seen docs'
      else
        match get_document cm i with
        | None => result_scores cm (i :: seen) docs'
        | Some _ => (i, score) :: result_scores cm (i :: seen) docs'
        end
  end.

(** [TFIDFService.search]: the service after the call, and the identifiers
    and scores of the result items. *)
Definition search (self : Service) (cm : CorpusManager) (pre : PreprocessingService)
           (query : str) (top_k : Z) : Service * list (str * float64.float) :=
  let self := _build_index self cm in
  let processed := process_query pre query in
  (self, result_scores cm [] (slice_to (sorted_docs self processed) top_k)).
End Libm.

End TFIDF64.

(* ================================================================== *)
(** * rank_bm25.BM25Okapi (external package) *)
(* ================================================================== *)

(** The index object of the [rank_bm25] package, as the package defines
    it: [BM25.__init__], [BM25._initialize], [BM25Okapi._calc_idf] and
    [BM25Okapi.get_scores]. *)
Module rank_bm25.

Record BM25Okapi := mkBM25Okapi {
  k1 : R;
  b : R;
  epsilon : R;
  corpus_size : nat;
  avgdl : R;
  doc_freqs : list (dict nat);
  doc_len : list nat;
  idf : dict R;
  average_idf : R
}.

Definition frequencies (document : list str) : dict nat :=
  fold_left count_term document [].

(** [nd]: word -> number of documents with the word *)
Definition count_documents (freqs : list (dict nat)) : dict nat :=
  fold_left (fun nd f => fold_left count_term (keys f) nd) freqs [].

Definition raw_idf (N freq : nat) : R :=
  ln (INR (N - freq) + 5 / 10) - ln (INR freq + 5 / 10).

Definition new (corpus : list (list str)) (k1 b : R) : BM25Okapi :=
  let epsilon := 25 / 100 in
  let doc_len := map (@length str) corpus in
  let doc_freqs := map frequencies corpus in
  let corpus_size := length corpus in
  let avgdl := INR (fold_right Nat.add 0%nat doc_len) / INR corpus_size in
  let nd := count_documents doc_freqs in
  let idf0 := map (fun e => (fst e, raw_idf corpus_size (snd e))) nd in
  let average_idf := np.sum (values idf0) / INR (length idf0) in
  let eps := epsilon * average_idf in
  let idf := map (fun e => (fst e, if Rltb (snd e) 0 then eps else snd e)) idf0 in
  mkBM25Okapi k1 b epsilon corpus_size avgdl doc_freqs doc_len idf average_idf.

(** [BM25Okapi(corpus)] raises [ZeroDivisionError] for a corpus without a
    document, at [num_doc / self.corpus_size], and for a corpus without a
    word, at [idf_sum / len(self.idf)]; [new] is the object it returns
    otherwise. *)
Definition raises_ZeroDivisionError (corpus : list (list str)) : bool :=
  (length corpus =? 0)%nat
  || (length (count_documents (map frequencies corpus)) =? 0)%nat.

Definition term_score (self : BM25Okapi) (doc : dict nat) (dl : nat) (q : str) : R :=
  let q_freq := INR (get_or doc q 0%nat) in
  get_or (idf self) q 0
  * (q_freq * (k1 self + 1)
     / (q_freq + k1 self * (1 - b self + b self * INR dl / avgdl self))).

Definition get_scores (self : BM25Okapi) (query : list str) : list R :=
  map (fun d => fold_left (fun score q => score + term_score self (fst d) (snd d) q)
                          query 0)
      (combine (doc_freqs self) (doc_len self)).

End rank_bm25.

(* ================================================================== *)
(** * The BM25 scorer ([services/bm25_service.py]) *)
(* ================================================================== *)

Module BM25.

Record Service := mkService {
  bm25_index : option rank_bm25.BM25Okapi;
  doc_ids : list str;
  _is_indexed : bool
}.

(** [BM25Service.__init__] *)
Definition init : Service := mkService None [] false.

(** [tokens.extend([termo] * freq)] over the table of one document *)
Definition tokens_of (termos : TermTable) : list str :=
  flat_map (fun e => repeat (fst e) (snd e)) termos.

Definition sorted_ids (cm : CorpusManager) : list str :=
  Py.sorted str_ltb (keys (processed_terms cm)).

(** [BM25Service._prepare_corpus]: the token lists, and the new value of
    [self.doc_ids]. *)
Definition _prepare_corpus (cm : CorpusManager) : list (list str) * list str :=
  let ids := sorted_ids cm in
  (map (fun i => tokens_of (get_or (processed_terms cm) i [])) ids, ids).

(** [BM25Service._build_index] *)
Definition _build_index (self : Service) (cm : CorpusManager) : Service :=
  if _is_indexed self then self
  else
    let '(corpus, ids) := _prepare_corpus cm in
    match corpus with
    | [] => mkService (bm25_index self) ids (_is_indexed self)
    | _ => mkService (Some (rank_bm25.new corpus (12 / 10) (75 / 100))) ids true
    end.

(** [if k1 != self.bm25_index.k1 or b != self.bm25_index.b: ...]: the
    service after the statement, and the index the scores are read from. *)
Definition refresh (self : Service) (cm : CorpusManager) (index : rank_bm25.BM25Okapi)
           (k1 b : R) : Service * rank_bm25.BM25Okapi :=
  if negb (Reqb k1 (rank_bm25.k1 index)) || negb (Reqb b (rank_bm25.b index))
  then
    let '(corpus, ids) := _prepare_corpus cm in
    let index' := rank_bm25.new corpus k1 b in
    (mkService (Some index') ids (_is_indexed self), index')
  else (self, index).

(** [doc_scores] before sorting; [doc_ids] and [scores] have one entry per
    document of the corpus the index was built from. *)
Definition doc_scores (ids : list str) (scores : list R) : list (str * R) :=
  filter (fun e => Rltb 0 (snd e)) (combine ids scores).

(** [doc_scores] after [doc_scores.sort(key=lambda x: x[1], reverse=True)] *)
Definition ranked (self : Service) (index : rank_bm25.BM25Okapi)
           (query_terms : list str) : list (str * R) :=
  sort_by_score (doc_scores (doc_ids self) (rank_bm25.get_scores index query_terms)).

(** [BM25Service.search] *)
Definition search (self : Service) (cm : CorpusManager) (pre : PreprocessingService)
           (query : str) (k1 b : R) (top_k : Z) : Service * list schemas.ResultItem :=
  let self := _build_index self cm in
  match bm25_index self with
  | None => (self, [])
  | Some index =>
      match process_query pre query with
      | [] => (self, [])
      | query_terms =>
          let '(self, index) := refresh self cm index k1 b in
          (self,
           build_results cm query_terms query []
             (slice_to (ranked self index query_terms) top_k))
      end
  end.

(** The three methods with the exception of the package: [None] stands
    for a [ZeroDivisionError] raised by [BM25Okapi(...)], which none of them
    catches. *)
Definition try_build_index (self : Service) (cm : CorpusManager) : option Service :=
  if _is_indexed self then Some self
  else
    let '(corpus, ids) := _prepare_corpus cm in
    match corpus with
    | [] => Some (mkService (bm25_index self) ids (_is_indexed self))
    | _ =>
        if rank_bm25.raises_ZeroDivisionError corpus then None
        else Some (mkService (Some (rank_bm25.new corpus (12 / 10) (75 / 100))) ids true)
    end.

Definition try_refresh (self : Service) (cm : CorpusManager)
           (index : rank_bm25.BM25Okapi) (k1 b : R)
  : option (Service * rank_bm25.BM25Okapi) :=
  if negb (Reqb k1 (rank_bm25.k1 index)) || negb (Reqb b (rank_bm25.b index))
  then
    let '(corpus, ids) := _prepare_corpus cm in
    if rank_bm25.raises_ZeroDivisionError corpus then None
    else
      let index' := rank_bm25.new corpus k1 b in
      Some (mkService (Some index') ids (_is_indexed self), index')
  else Some (self, index).

Definition try_search (self : Service) (cm : CorpusManager) (pre : PreprocessingService)
           (query : str) (k1 b : R) (top_k : Z)
  : option (Service * list schemas.ResultItem) :=
  match try_build_index self cm with
  | None => None
  | Some self =>
      match bm25_index self with
      | None => Some (self, [])
      | Some index =>
          match process_query pre query with
          | [] => Some (self, [])
          | query_terms =>
              match try_refresh self cm index k1 b with
              | None => None
              | Some (self, index) =>
                  Some (self,
                        build_results cm query_terms query []
                          (slice_to (ranked self index query_terms) top_k))
              end
          end
      end
  end.

End BM25.

(* ================================================================== *)
(** * The orchestrator ([services/search_service.py]) *)
(* ================================================================== *)

Module SearchService.

Record Service := mkService {
  corpus_manager : CorpusManager;
  preprocessing : PreprocessingService;
  tfidf_service : TFIDF.Service;
  bm25_service : BM25.Service
}.

(** The calls made on the two scorers, in order. *)
Inductive Call :=
| tfidf_search (query : str) (top_k : Z)
| bm25_search (query : str) (k1 b : R) (top_k : Z).

Record Response := mkResponse {
  tfidf : list schemas.ResultItem;
  bm25 : list schemas.ResultItem;
  metrics : schemas.Metrics
}.

(** [SearchService.search]; [perf_counter n] is what the [n]-th call of
    [time.perf_counter()] returns, [top_k = None] is Python's [None]. *)
Definition search (self : Service) (perf_counter : nat -> R) (query : str)
           (k1 b : R) (top_k : option Z) : Service * Response * list Call :=
  let preprocess_start := perf_counter 1%nat in
  let query_terms := process_query (preprocessing self) query in
  let preprocess_time := (perf_counter 2%nat - preprocess_start) * 1000 in
  match query_terms with
  | [] => (self, mkResponse [] [] (schemas.mkMetrics preprocess_time 0 0), [])
  | _ =>
      let top_k := match top_k with
                   | Some k => k
                   | None => Z.of_nat (length (get_all_documents (corpus_manager self)))
                   end in
      let tfidf_start := perf_counter 3%nat in
      let '(tfidf_service', tfidf_results) :=
        TFIDF.search (tfidf_service self) (corpus_manager self) (preprocessing self)
                     query top_k in
      let tfidf_time := (perf_counter 4%nat - tfidf_start) * 1000 in
      let bm25_start := perf_counter 5%nat in
      let '(bm25_service', bm25_results) :=
        BM25.search (bm25_service self) (corpus_manager self) (preprocessing self)
                    query k1 b top_k in
      let bm25_time := (perf_counter 6%nat - bm25_start) * 1000 in
      (mkService (corpus_manager self) (preprocessing self) tfidf_service' bm25_service',
       mkResponse tfidf_results bm25_results
                  (schemas.mkMetrics preprocess_time tfidf_time bm25_time),
       [tfidf_search query top_k; bm25_search query k1 b top_k])
  end.

(** [SearchService.search] with the exception that its call of
    [BM25Service.search] lets through; the TF-IDF scorer raises none. *)
Definition try_search (self : Service) (perf_counter : nat -> R) (query : str)
           (k1 b : R) (top_k : option Z) : option (Service * Response * list Call) :=
  let preprocess_start := perf_counter 1%nat in
  let query_terms := process_query (preprocessing self) query in
  let preprocess_time := (perf_counter 2%nat - preprocess_start) * 1000 in
  match query_terms with
  | [] => Some (self, mkResponse [] [] (schemas.mkMetrics preprocess_time 0 0), [])
  | _ =>
      let top_k := match top_k with
                   | Some k => k
                   | None => Z.of_nat (length (get_all_documents (corpus_manager self)))
                   end in
      let tfidf_start := perf_counter 3%nat in
      let '(tfidf_service', tfidf_results) :=
        TFIDF.search (tfidf_service self) (corpus_manager self) (preprocessing self)
                     query top_k in
      let tfidf_time := (perf_counter 4%nat - tfidf_start) * 1000 in
      let bm25_start := perf_counter 5%nat in
      match BM25.try_search (bm25_service self) (corpus_manager self)
                            (preprocessing self) query k1 b top_k with
      | None => None
      | Some (bm25_service', bm25_results) =>
          let bm25_time := (perf_counter 6%nat - bm25_start) * 1000 in
          Some (mkService (corpus_manager self) (preprocessing self)
                          tfidf_service' bm25_service',
                mkResponse tfidf_results bm25_results
                           (schemas.mkMetrics preprocess_time tfidf_time bm25_time),
                [tfidf_search query top_k; bm25_search query k1 b top_k])
      end
  end.

End SearchService.

(* ================================================================== *)
(** * The HTTP routes ([api/routes/search.py], [api/routes/corpus.py]) *)
(* ================================================================== *)

Module routes.

(** What the body of a handler does: it returns a value, it raises
    [HTTPException] with a status code, or it lets through the
    [ZeroDivisionError] of the BM25 package, the one other exception that
    arises in the model; requests are handled one at a time. *)
Inductive Reply (A : Type) : Type :=
| returns : A -> Reply A
| HTTPException : nat -> Reply A
| ZeroDivisionError : Reply A.

Arguments returns {A} _.
Arguments HTTPException {A} _.
Arguments ZeroDivisionError {A}.

(** [try: body except Exception as e: raise HTTPException(status_code=500)];
    an [HTTPException] is an [Exception], so it is caught like any other. *)
Definition except_Exception (A : Type) (body : Reply A) : Reply A :=
  match body with
  | returns a => returns a
  | HTTPException _ => HTTPException 500
  | ZeroDivisionError => HTTPException 500
  end.

(** [try: body except HTTPException: raise except Exception as e: raise
    HTTPException(status_code=500)] *)
Definition except_HTTPException_raise (A : Type) (body : Reply A) : Reply A :=
  match body with
  | ZeroDivisionError => HTTPException 500
  | _ => body
  end.

(** [get_search_service] and [get_corpus_manager]: the getter is [None]
    until [setup_...] is called, and it returns [None] until startup has
    built the service. *)
Definition get_service (A : Type) (getter : option (option A)) : Reply A :=
  match getter with
  | None => HTTPException 503
  | Some None => HTTPException 503
  | Some (Some service) => returns service
  end.

Inductive Weight := log | raw | binary.

(** [SearchRequest], and the constraints of its fields, which FastAPI
    checks before it calls the handler. *)
Record SearchRequest := mkSearchRequest {
  query : str;
  k1 : R;
  b : R;
  tfIdfWeight : Weight;
  topK : option Z
}.



(** [search_documents]: the service after the call, and the response. *)
Definition search_documents (getter : option (option SearchService.Service))
           (perf_counter : nat -> R) (request : SearchRequest)
  : Reply (SearchService.Service * SearchService.Response) :=
  except_Exception
    match get_service getter with
    | HTTPException status_code => HTTPException status_code
    | returns search_service =>
        match SearchService.try_search search_service perf_counter (query request)
                                       (k1 request) (b request) (topK request) with
        | Some results => returns (fst results)
        | None => ZeroDivisionError
        end
    | ZeroDivisionError => ZeroDivisionError
    end.

(** [get_corpus_info] *)
Definition get_corpus_info (getter : option (option CorpusManager)) : Reply Statistics :=
  except_Exception
    match get_service getter with
    | HTTPException status_code => HTTPException status_code
    | returns manager => returns (get_statistics manager)
    | ZeroDivisionError => ZeroDivisionError
    end.

(** [list_documents]: the pairs (id, title). *)
Definition list_documents (getter : option (option CorpusManager))
  : Reply (list (str * str)) :=
  except_Exception
    match get_service getter with
    | HTTPException status_code => HTTPException status_code
    | returns manager =>
        returns (map (fun doc => (doc_id doc, title doc)) (get_all_documents manager))
    | ZeroDivisionError => ZeroDivisionError
    end.

(** [get_pdf]: the name of the file that is served; [on_disk] tells
    whether [CORPUS_PATH / filename] exists. *)
Definition get_pdf (getter : option (option CorpusManager)) (on_disk : str -> bool)
           (doc_id : str) : Reply str :=
  except_HTTPException_raise
    match get_service getter with
    | HTTPException status_code => HTTPException status_code
    | returns manager =>
        match get_document manager doc_id with
        | None => HTTPException 404
        | Some doc =>
            match filename doc with
            | [] => HTTPException 404
            | _ => if on_disk (filename doc) then returns (filename doc)
                   else HTTPException 404
            end
        end
    | ZeroDivisionError => ZeroDivisionError
    end.

End routes.

(* ================================================================== *)
(** * Vocabulary of the specification *)
(* ================================================================== *)

(** df(t) = |{d : t in TermFrequencyTable(d)}| *)
Definition df_of (pt : dict TermTable) (t : str) : nat :=
  length (filter (fun termos => has termos t) (values pt)).

(** Every term-frequency table is a dictionary, and so is the table of
    tables. *)
Definition tables_wf (pt : dict TermTable) : Prop :=
  wf pt /\ Forall (@wf nat) (values pt).

(** Sum of the squares of the coordinates. *)
Definition sum_sq (v : list R) : R := np.sum (map (fun x => x * x) v).

(** The identifier and the score of a result item. *)
Definition id_score (r : schemas.ResultItem) : str * R :=
  (schemas.id r, schemas.score r).

(** [x] occurs before an occurrence of [y] in [l]. *)
Definition precedes (A : Type) (l : list A) (x y : A) : Prop :=
  exists l1 l2 l3, l = l1 ++ x :: l2 ++ y :: l3.

(** [l1] is [l2] with some elements left out. *)
Inductive subseq (A : Type) : list A -> list A -> Prop :=
| subseq_nil : subseq [] []
| subseq_skip x l1 l2 : subseq l1 l2 -> subseq l1 (x :: l2)
| subseq_keep x l1 l2 : subseq l1 l2 -> subseq (x :: l1) (x :: l2).

(** Sorted descending by score. *)
Definition descending (l : list (str * R)) : Prop :=
  StronglySorted (fun x y => snd y <= snd x) l.

(** Number of occurrences of a term in a query. *)
Definition count_str (t : str) (l : list str) : nat :=
  length (filter (str_eqb t) l).

(** The states a TF-IDF scorer over the corpus [cm] is ever in: as
    constructed, or with the index built. *)
Definition TFIDF_reachable (cm : CorpusManager) (self : TFIDF.Service) : Prop :=
  self = TFIDF.init \/ self = TFIDF._build_index TFIDF.init cm.

(** The states a scorer on doubles over the corpus [cm] is ever in. *)
Definition TFIDF64_reachable (log10 : float64.float -> float64.float)
           (cm : CorpusManager) (self : TFIDF64.Service) : Prop :=
  self = TFIDF64.init \/ self = TFIDF64._build_index log10 TFIDF64.init cm.

(** The states a BM25 scorer over a corpus is ever in: as constructed, or
    with an index built from the tables for some (k1, b). *)
Definition BM25_reachable (cm : CorpusManager) (self : BM25.Service) : Prop :=
  self = BM25.init
  \/ exists k1 b,
       self = BM25.mkService
                (Some (rank_bm25.new (fst (BM25._prepare_corpus cm)) k1 b))
                (BM25.sorted_ids cm) true.

(** What [CorpusManager._process_pdfs] maintains: every document that has a
    term table has an entry in [documents]. *)
Definition corpus_consistent (cm : CorpusManager) : Prop :=
  tables_wf (processed_terms cm)
  /\ forall i, In i (keys (processed_terms cm)) ->
               In i (map doc_id (documents cm)).

(** Cutting [text] at index [p] separates two word characters. *)
Definition cuts_word (text : str) (p : nat) : bool :=
  match p with
  | O => false
  | S q => match nth_error text q, nth_error text p with
           | Some c1, Some c2 => is_word c1 && is_word c2
           | _, _ => false
           end
  end.

(** The match the snippet is cut around, if the extractor looks for one
    and finds it. *)
Definition snippet_match (text : str) (terms : list str) (original_query : option str)
  : option text_processing.Match :=
  match text, terms with
  | [], _ | _, [] => None
  | _, _ => text_processing.best_match (text_processing.locate text original_query)
  end.

(** The pairs (lower-cased candidate term, text word) the fuzzy pass goes
    through, in its order. *)
Definition fuzzy_candidates (terms words : list str) : list (str * str) :=
  flat_map (fun term => map (pair (lower term)) words) terms.

(** The two pre-filters of the fuzzy pass: the length window and the first
    character. *)
Definition passes_filters (t w : str) : bool :=
  (text_processing.min_len_of (length t) <=? length w)%nat
  && (length w <=? text_processing.max_len_of (length t))%nat
  && negb (text_processing.first_differs t w).

(** What the variables of the fuzzy pass hold after the candidates [seen]:
    the threshold or the best similarity so far, a selected word that is
    one of the candidates seen, and no better candidate among them. *)
Definition fuzzy_inv (text_lower : str) (len : nat) (seen : list (str * str))
           (st : text_processing.Fuzzy) : Prop :=
  (7 # 10 <= text_processing.best_similarity st)%Q
  /\ (text_processing.best_fuzzy_match st = None ->
      (text_processing.best_similarity st == 7 # 10)%Q
      /\ text_processing.best_fuzzy_pos st = len)
  /\ (forall pos word,
         text_processing.best_fuzzy_match st = Some (pos, word) ->
         text_processing.best_fuzzy_pos st = pos
         /\ exists t, In (t, word) seen
                      /\ passes_filters t word = true
                      /\ (difflib.ratio t word == text_processing.best_similarity st)%Q
                      /\ word_search word text_lower = Some pos)
  /\ (forall t w p,
         In (t, w) seen -> passes_filters t w = true ->
         (7 # 10 <= difflib.ratio t w)%Q ->
         word_search w text_lower = Some p -> (p < len)%nat ->
         text_processing.best_fuzzy_match st <> None
         /\ ((difflib.ratio t w < text_processing.best_similarity st)%Q
             \/ ((difflib.ratio t w == text_processing.best_similarity st)%Q
                 /\ (text_processing.best_fuzzy_pos st <= p)%nat))).

(** No whitespace but single spaces, none after another; [after_space]
    tells that the character before [s] was a space. *)
Fixpoint single_spaced (after_space : bool) (s : str) : bool :=
  match s with
  | [] => true
  | c :: s' =>
      if isspace c
      then negb after_space && chr_eqb c space && single_spaced true s'
      else single_spaced false s'
  end.

(** The text of a file that the loading loop keeps: the parser gave one,
    and it is not blank. *)
Definition readable (pdf_path : PdfFile) : option str :=
  match extract_text pdf_path with
  | Some texto => match strip texto with [] => None | _ => Some texto end
  | None => None
  end.

(** The entry of [documents] for the file at index [i] of the listing. *)
Definition entry_of (pre : PreprocessingService) (i : nat) (pdf_path : PdfFile)
           (texto : str) : Document :=
  mkDocument (doc_id_of i) (title_of (stem pdf_path)) (stem pdf_path) (name pdf_path)
             (length texto) (length (process_text pre texto)).

(** The identifiers of the files kept, the listing starting at index [i]. *)
Fixpoint kept_ids (i : nat) (pdf_files : list PdfFile) : list str :=
  match pdf_files with
  | [] => []
  | pdf_path :: rest =>
      match readable pdf_path with
      | Some _ => doc_id_of i :: kept_ids (S i) rest
      | None => kept_ids (S i) rest
      end
  end.
(** The identifiers a corpus holds were all given before index [i]. *)
Definition ids_below (i : nat) (ks : list str) : Prop :=
  forall k, In k ks -> exists j, (j < i)%nat /\ k = doc_id_of j.

(** The number of tokens of a document: the sum of its counts. *)
Definition total_count (termos : TermTable) : nat :=
  fold_right Nat.add 0%nat (values termos).

(** What the variables of the exact pass hold after the candidates [seen]:
    the earliest first occurrence of a candidate as a whole word, with the
    first candidate that has it; or nothing, when no candidate occurs. *)
Definition exact_inv (text_lower : str) (len : nat) (seen : list str)
           (st : text_processing.Exact) : Prop :=
  match text_processing.best_match st with
  | Some (p, t) =>
      text_processing.best_pos st = p
      /\ text_processing.match_type st = Some text_processing.exact
      /\ (p < len)%nat
      /\ word_search t text_lower = Some p
      /\ In t (text_processing.matched_words st)
      /\ exists l1 l2,
           seen = l1 ++ t :: l2
           /\ (forall t' p', In t' l1 -> word_search t' text_lower = Some p' ->
                             (p < p')%nat)
           /\ (forall t' p', In t' l2 -> word_search t' text_lower = Some p' ->
                             (p <= p')%nat)
  | None =>
      text_processing.best_pos st = len
      /\ text_processing.matched_words st = []
      /\ forall t' p', In t' seen -> word_search t' text_lower = Some p' ->
                       (len <= p')%nat
  end.

(** The occurrences of a term in the whole corpus. *)
Definition corpus_count (pt : dict TermTable) (t : str) : nat :=
  fold_right Nat.add 0%nat (map (fun termos => get_or termos t 0%nat) (values pt)).

(* ================================================================== *)
(** * Sample corpora *)
(* ================================================================== *)

Module Examples.

Definition gato : str := lit "gato".
Definition rato : str := lit "rato".

Definition document (i : string) : Document :=
  mkDocument (lit i) (lit i) (lit i) (lit i ++ lit ".pdf") 0 0.

(** The rule-based normaliser without a stemmer, stopwords or
    corrections. *)
Definition plain : PreprocessingService := mkPreprocessing false None None [] [].

(** Two documents: "gato gato" and "gato rato". *)
Definition corpus2 : CorpusManager :=
  mkCorpus
    [document "doc_1"; document "doc_2"]
    [(lit "doc_1", lit "gato gato"); (lit "doc_2", lit "gato rato")]
    [(lit "doc_1", [(gato, 2%nat)]); (lit "doc_2", [(gato, 1%nat); (rato, 1%nat)])].

(** Its inverse document frequencies, weights and index. *)
Definition idf2 : dict R :=
  [(gato, TFIDF.idf_value 2 2); (rato, TFIDF.idf_value 2 1)].
Definition w1 : R := TFIDF.weight idf2 gato 2.
Definition w2 : R := TFIDF.weight idf2 gato 1.
Definition w3 : R := TFIDF.weight idf2 rato 1.
Definition index2 : TFIDF.Service :=
  TFIDF.mkService
    [(lit "doc_1", [(gato, w1)]); (lit "doc_2", [(gato, w2); (rato, w3)])]
    idf2 true.

(** Ten documents, loaded in the order doc_1 ... doc_10; the second and
    the tenth hold "rato", the others "gato". *)
Definition table_gato : TermTable := [(gato, 1%nat)].
Definition table_rato : TermTable := [(rato, 1%nat)].

Definition corpus10 : CorpusManager :=
  mkCorpus
    (map document
         ["doc_1"; "doc_2"; "doc_3"; "doc_4"; "doc_5";
          "doc_6"; "doc_7"; "doc_8"; "doc_9"; "doc_10"]%string)
    []
    [(lit "doc_1", table_gato); (lit "doc_2", table_rato);
     (lit "doc_3", table_gato); (lit "doc_4", table_gato);
     (lit "doc_5", table_gato); (lit "doc_6", table_gato);
     (lit "doc_7", table_gato); (lit "doc_8", table_gato);
     (lit "doc_9", table_gato); (lit "doc_10", table_rato)].

(** The BM25 index of that corpus for the default parameters. *)
Definition index10 : rank_bm25.BM25Okapi :=
  rank_bm25.new (fst (BM25._prepare_corpus corpus10)) (12 / 10) (75 / 100).

(** An orchestrator over the two-document corpus, with "para" as the only
    stopword, and a clock that advances by one per reading. *)
Definition service2 : SearchService.Service :=
  SearchService.mkService corpus2
    (mkPreprocessing false None None [lit "para"] [])
    TFIDF.init BM25.init.

Definition ticking (n : nat) : R := INR n.

(** A stand-in for the spaCy pipeline: one alphabetic, non-stop token per
    whitespace-separated word, its own lemma. *)
Definition whitespace_model (s : str) : list spacy.Token :=
  map (fun w => spacy.mkToken w w true false) (split s).

(** A placeholder for [nth]. *)
Definition no_result : schemas.ResultItem :=
  schemas.mkResultItem [] [] 0 [] [] None.

(** A cache directory with no file, two PDF files, and a folder of PDFs
    whose digests are their names. *)
Definition no_cache : CacheService.Service :=
  CacheService.mkService CacheService.missing CacheService.missing
                         CacheService.missing CacheService.missing.

Definition blank_pdf : PdfFile := mkPdfFile (lit "a") (lit "a.pdf") (Some (lit "  ")).
Definition gato_pdf : PdfFile :=
  mkPdfFile (lit "o_gato") (lit "o_gato.pdf") (Some (lit "gato gato")).

Definition folder (pdf_files : list PdfFile) : CorpusDir :=
  mkCorpusDir true pdf_files (fun name => Some name).

(** The values of [math.log10] that the samples need, as the C library
    returns them: log10(1.0) = 0.0, log10(2.0) = 0x1.34413509f79ffp-2 and
    log10(3.0) = 0x1.e8927964fd5fdp-2, the doubles nearest to the exact
    logarithms. *)
Definition libm_log10 (x : float64.float) : float64.float :=
  if float64.eqb x (float64.of_Z 1) then float64.zero
  else if float64.eqb x (float64.of_Z 2)
       then S754_finite false 5422874305198591 (-54)
  else if float64.eqb x (float64.of_Z 3)
       then S754_finite false 8595052419864061 (-54)
  else S754_nan.

(** One document, "gato rato". *)
Definition corpus1 : CorpusManager :=
  mkCorpus [Examples.document "doc_1"] [(lit "doc_1", lit "gato rato")]
           [(lit "doc_1", [(Examples.gato, 1%nat); (Examples.rato, 1%nat)])].

End Examples.

(* ================================================================== *)
(** * Properties *)
(* ================================================================== *)

(** ** Strings and dictionaries *)

Lemma chr_eqb_eq (a b : ascii) : chr_eqb a b = true <-> a = b.
Proof. unfold chr_eqb. apply Ascii.eqb_eq. Qed.

Lemma str_eqb_eq (a b : str) : str_eqb a b = true <-> a = b.
Proof.
  revert b. induction a as [|x a IH]; intros [|y b]; simpl; split; intro H;
    try reflexivity; try discriminate.
  - apply andb_true_iff in H as [Hc Hs].
    apply chr_eqb_eq in Hc. apply IH in Hs. now subst.
  - inversion H; subst. apply andb_true_iff. split.
    + now apply chr_eqb_eq.
    + now apply IH.
Qed.

Lemma str_eqb_refl (a : str) : str_eqb a a = true.
Proof. now apply str_eqb_eq. Qed.

Lemma str_eqb_neq (a b : str) : str_eqb a b = false <-> a <> b.
Proof.
  split.
  - intros H E. apply str_eqb_eq in E. congruence.
  - intro H. destruct (str_eqb a b) eqn:E; [|reflexivity].
    apply str_eqb_eq in E. contradiction.
Qed.

Lemma str_eqb_sym (a b : str) : str_eqb a b = str_eqb b a.
Proof.
  destruct (str_eqb a b) eqn:E.
  - apply str_eqb_eq in E. subst. symmetry. apply str_eqb_refl.
  - symmetry. apply str_eqb_neq. apply str_eqb_neq in E. congruence.
Qed.

Lemma mem_In (x : str) (l : list str) : mem x l = true <-> In x l.
Proof.
  unfold mem. rewrite existsb_exists. split.
  - intros [y [Hy E]]. apply str_eqb_eq in E. now subst.
  - intro H. exists x. split; [assumption | apply str_eqb_refl].
Qed.

Section DictFacts.
Variable V : Type.
Implicit Types (d : dict V) (k : str) (v : V).

Lemma get_set d k v k' :
  get (set d k v) k' = if str_eqb k' k then Some v else get d k'.
Proof.
  induction d as [|[k0 v0] d IH]; simpl.
  - reflexivity.
  - destruct (str_eqb k k0) eqn:E; simpl.
    + apply str_eqb_eq in E. subst k0.
      destruct (str_eqb k' k); reflexivity.
    + rewrite IH. destruct (str_eqb k' k0) eqn:E0; [|reflexivity].
      apply str_eqb_eq in E0. subst k0.
      destruct (str_eqb k' k) eqn:E1; [|reflexivity].
      apply str_eqb_eq in E1. subst. rewrite str_eqb_refl in E. discriminate.
Qed.

Lemma get_None_not_key d k : get d k = None <-> ~ In k (keys d).
Proof.
  induction d as [|[k0 v0] d IH]; simpl.
  - tauto.
  - destruct (str_eqb k k0) eqn:E.
    + apply str_eqb_eq in E. subst. split; [discriminate | intro H; exfalso; auto].
    + apply str_eqb_neq in E. rewrite IH. split.
      * intros H [H1 | H1]; [congruence | contradiction].
      * intros H H1. apply H. now right.
Qed.

Lemma has_In d k : has d k = true <-> In k (keys d).
Proof.
  unfold has. destruct (get d k) eqn:E.
  - split; [intros _ | reflexivity].
    destruct (in_dec (list_eq_dec ascii_dec) k (keys d)) as [H | H]; [assumption|].
    apply get_None_not_key in H. congruence.
  - apply get_None_not_key in E. split; [discriminate | contradiction].
Qed.

Lemma keys_set d k v :
  keys (set d k v) = if has d k then keys d else keys d ++ [k].
Proof.
  unfold has. induction d as [|[k0 v0] d IH]; simpl.
  - reflexivity.
  - destruct (str_eqb k k0) eqn:E; simpl; [reflexivity|].
    rewrite IH. destruct (get d k); reflexivity.
Qed.

Lemma wf_set d k v : wf d -> wf (set d k v).
Proof.
  unfold wf. intro H. rewrite keys_set. destruct (has d k) eqn:E; [assumption|].
  apply NoDup_app; [assumption | repeat constructor; intros [] | ].
  intros x Hx [Hk | []]. subst x.
  apply has_In in Hx. congruence.
Qed.

Lemma get_In d k v : get d k = Some v -> In (k, v) d.
Proof.
  induction d as [|[k0 v0] d IH]; simpl; [discriminate|].
  destruct (str_eqb k k0) eqn:E.
  - apply str_eqb_eq in E. subst. intro H. inversion H. now left.
  - intro H. right. now apply IH.
Qed.

Lemma In_get d k v : wf d -> In (k, v) d -> get d k = Some v.
Proof.
  unfold wf, keys. induction d as [|[k0 v0] d IH]; simpl; [intros _ []|].
  intros Hnd [H | H].
  - inversion H; subst. now rewrite str_eqb_refl.
  - inversion Hnd; subst. destruct (str_eqb k k0) eqn:E.
    + apply str_eqb_eq in E. subst k0. exfalso. apply H2.
      change k with (fst (k, v)). now apply in_map.
    + now apply IH.
Qed.
End DictFacts.

(** ** Real comparisons *)

Lemma Rltb_true (a b : R) : Rltb a b = true <-> a < b.
Proof. unfold Rltb. destruct (Rlt_dec a b); split; intros; (assumption || reflexivity || discriminate || contradiction). Qed.

Lemma Rltb_false (a b : R) : Rltb a b = false <-> b <= a.
Proof.
  unfold Rltb. destruct (Rlt_dec a b); split; intros; try reflexivity; try discriminate; lra.
Qed.

Lemma Reqb_true (a b : R) : Reqb a b = true <-> a = b.
Proof. unfold Reqb. destruct (Req_dec_T a b); split; intros; (assumption || reflexivity || discriminate || contradiction). Qed.

Lemma Reqb_false (a b : R) : Reqb a b = false <-> a <> b.
Proof. unfold Reqb. destruct (Req_dec_T a b); split; intros; (assumption || reflexivity || discriminate || contradiction). Qed.

Lemma ln_10_pos : 0 < ln 10.
Proof. rewrite <- ln_1. apply ln_increasing; lra. Qed.

Lemma log10_pos (x : R) : 1 < x -> 0 < log10 x.
Proof.
  intro H. unfold log10. apply Rdiv_lt_0_compat; [|apply ln_10_pos].
  rewrite <- ln_1. apply ln_increasing; lra.
Qed.

Lemma log10_1 : log10 1 = 0.
Proof. unfold log10. rewrite ln_1. unfold Rdiv. apply Rmult_0_l. Qed.

Lemma log10_increasing (x y : R) : 0 < x -> x < y -> log10 x < log10 y.
Proof.
  intros Hx Hxy. unfold log10, Rdiv.
  apply Rmult_lt_compat_r; [apply Rinv_0_lt_compat, ln_10_pos|].
  now apply ln_increasing.
Qed.

Lemma log10_nonneg (x : R) : 1 <= x -> 0 <= log10 x.
Proof.
  intros [H | H].
  - left. now apply log10_pos.
  - subst. rewrite log10_1. lra.
Qed.

(** ** The document frequencies and the inverse document frequencies *)

Lemma get_map_values (A B : Type) (f : A -> B) (d : dict A) (k : str) :
  get (map (fun e => (fst e, f (snd e))) d) k = option_map f (get d k).
Proof.
  induction d as [|[k0 v0] d IH]; simpl; [reflexivity|].
  destruct (str_eqb k k0); [reflexivity | exact IH].
Qed.

Lemma keys_map_values (A B : Type) (f : A -> B) (d : dict A) :
  keys (map (fun e => (fst e, f (snd e))) d) = keys d.
Proof. unfold keys. rewrite map_map. reflexivity. Qed.

Lemma count_terms_get (ks : list str) (acc : dict nat) (t : str) :
  NoDup ks ->
  get (fold_left count_term ks acc) t
  = if mem t ks then Some (get_or acc t 0 + 1)%nat else get acc t.
Proof.
  revert acc. induction ks as [|k ks IH]; intros acc Hnd; simpl.
  - reflexivity.
  - inversion Hnd as [|? ? Hk Hks]; subst.
    rewrite IH by assumption.
    assert (G : get (count_term acc k) t
                = if str_eqb t k then Some (get_or acc k 0 + 1)%nat else get acc t).
    { unfold count_term. apply get_set. }
    unfold get_or at 1. rewrite G.
    destruct (str_eqb t k) eqn:E; simpl.
    + apply str_eqb_eq in E. subst k.
      destruct (mem t ks) eqn:M; [|reflexivity].
      apply mem_In in M. contradiction.
    + reflexivity.
Qed.

(** What the accumulator holds after the documents [tabs]. *)
Lemma document_frequency_from (tabs : list TermTable) (acc : dict nat) (t : str) :
  Forall (@wf nat) tabs ->
  get (fold_left (fun df termos_doc => fold_left TFIDF.incr (keys termos_doc) df)
                 tabs acc) t
  = match length (filter (fun termos => has termos t) tabs) with
    | O => get acc t
    | n => Some (get_or acc t 0 + n)%nat
    end.
Proof.
  revert acc. induction tabs as [|tab tabs IH]; intros acc Hwf; simpl.
  - reflexivity.
  - inversion Hwf as [|? ? Htab Htabs]; subst.
    rewrite IH by assumption.
    change TFIDF.incr with count_term.
    unfold get_or at 1. rewrite count_terms_get by exact Htab.
    destruct (has tab t) eqn:Hh.
    + assert (M : mem t (keys tab) = true) by (apply mem_In; now apply has_In).
      rewrite M. simpl.
      destruct (length (filter (fun termos => has termos t) tabs)); f_equal; lia.
    + assert (M : mem t (keys tab) = false).
      { destruct (mem t (keys tab)) eqn:M; [|reflexivity].
        apply mem_In, has_In in M. congruence. }
      rewrite M. reflexivity.
Qed.

Lemma document_frequency_get (pt : dict TermTable) (t : str) :
  Forall (@wf nat) (values pt) ->
  get (TFIDF.document_frequency pt) t
  = if (df_of pt t =? 0)%nat then None else Some (df_of pt t).
Proof.
  intro H. unfold TFIDF.document_frequency, df_of.
  rewrite document_frequency_from by assumption.
  destruct (length (filter (fun termos => has termos t) (values pt))); reflexivity.
Qed.

Lemma df_of_le (pt : dict TermTable) (t : str) : (df_of pt t <= length pt)%nat.
Proof.
  unfold df_of. etransitivity; [apply filter_length_le|].
  unfold values. now rewrite length_map.
Qed.

Lemma idf_value_pos (N d : nat) : (1 <= d <= N)%nat -> 0 < TFIDF.idf_value N d.
Proof.
  intros [Hd HN]. unfold TFIDF.idf_value. apply log10_pos.
  assert (0 < INR d) by (apply lt_0_INR; lia).
  assert (0 < INR N) by (apply lt_0_INR; lia).
  assert (0 < INR N / INR d) by (now apply Rdiv_lt_0_compat).
  lra.
Qed.

Lemma build_index_fresh (cm : CorpusManager) :
  (1 <= length (processed_terms cm))%nat ->
  TFIDF._build_index TFIDF.init cm
  = let idf' := TFIDF.build_idf (length (processed_terms cm))
                  (TFIDF.document_frequency (processed_terms cm)) in
    TFIDF.mkService (TFIDF.build_tf_idf_index idf' (processed_terms cm)) idf' true.
Proof.
  intro H. unfold TFIDF._build_index. simpl.
  destruct (length (processed_terms cm) =? 0)%nat eqn:E; [|reflexivity].
  apply Nat.eqb_eq in E. lia.
Qed.

Lemma idf_of_fresh_index (cm : CorpusManager) (t : str) :
  (1 <= length (processed_terms cm))%nat ->
  Forall (@wf nat) (values (processed_terms cm)) ->
  get (TFIDF.idf (TFIDF._build_index TFIDF.init cm)) t
  = if (df_of (processed_terms cm) t =? 0)%nat then None
    else Some (log10 (1 + INR (length (processed_terms cm))
                         / INR (df_of (processed_terms cm) t))).
Proof.
  intros HN Hwf. rewrite build_index_fresh by assumption. simpl.
  unfold TFIDF.build_idf. rewrite get_map_values.
  rewrite document_frequency_get by assumption.
  destruct (df_of (processed_terms cm) t =? 0)%nat; reflexivity.
Qed.

(** C3: for a corpus of N >= 1 documents the index build stores
    idf(t) = log10(1 + N / df(t)) for every term t of the corpus, where
    df(t) is the number of documents whose table has t (and stores nothing
    for any other term); 1 <= df(t) <= N; and log10(1 + N / d) is strictly
    positive for every 1 <= d <= N, d = N included. *)
Theorem idf_formula_and_positivity (cm : CorpusManager) :
  let pt := processed_terms cm in
  let N := length pt in
  (1 <= N)%nat ->
  Forall (@wf nat) (values pt) ->
  (forall t,
      get (TFIDF.idf (TFIDF._build_index TFIDF.init cm)) t
      = if (df_of pt t =? 0)%nat then None
        else Some (log10 (1 + INR N / INR (df_of pt t))))
  /\ (forall t, has (TFIDF.idf (TFIDF._build_index TFIDF.init cm)) t = true ->
                (1 <= df_of pt t <= N)%nat)
  /\ (forall d, (1 <= d <= N)%nat -> 0 < log10 (1 + INR N / INR d))
  /\ 0 < log10 (1 + INR N / INR N).
Proof.
  intros pt N HN Hwf. split; [|split; [|split]].
  - intro t. now apply idf_of_fresh_index.
  - intros t H. unfold has in H. rewrite idf_of_fresh_index in H by assumption.
    fold pt in H. split; [|apply df_of_le].
    destruct (df_of pt t =? 0)%nat eqn:E; [discriminate|].
    apply Nat.eqb_neq in E. lia.
  - intros d Hd. now apply (@idf_value_pos N d).
  - apply (@idf_value_pos N N). lia.
Qed.

(** ** Vectors: the Cauchy-Schwarz inequality and the cosine *)

Lemma sum_sq_nonneg (v : list R) : 0 <= sum_sq v.
Proof.
  induction v as [|x v IH].
  - unfold sum_sq, np.sum. simpl. lra.
  - change (sum_sq (x :: v)) with (x * x + sum_sq v).
    pose proof (Rle_0_sqr x) as H. unfold Rsqr in H. lra.
Qed.

Lemma sum_sq_cons (x : R) (v : list R) : sum_sq (x :: v) = x * x + sum_sq v.
Proof. reflexivity. Qed.

Lemma cauchy_schwarz (u v : list R) :
  np.dot u v * np.dot u v <= sum_sq u * sum_sq v.
Proof.
  revert v. induction u as [|x u IH]; intros [|y v]; simpl np.dot.
  - rewrite Rmult_0_l. apply Rmult_le_pos; apply sum_sq_nonneg.
  - rewrite Rmult_0_l. apply Rmult_le_pos; apply sum_sq_nonneg.
  - rewrite Rmult_0_l. apply Rmult_le_pos; apply sum_sq_nonneg.
  - rewrite !sum_sq_cons. specialize (IH v).
    pose proof (sum_sq_nonneg u) as HA. pose proof (sum_sq_nonneg v) as HB.
    set (A := sum_sq u) in *. set (B := sum_sq v) in *. set (C := np.dot u v) in *.
    assert (H2 : 2 * (C * (x * y)) <= A * (y * y) + B * (x * x)).
    { assert (Hs : 0 <= A * (y * y) + B * (x * x)) by nra.
      assert (Hq : (2 * (C * (x * y))) * (2 * (C * (x * y)))
                   <= (A * (y * y) + B * (x * x)) * (A * (y * y) + B * (x * x))).
      { assert (0 <= (A * (y * y) - B * (x * x)) * (A * (y * y) - B * (x * x)))
          by apply Rle_0_sqr.
        assert (0 <= (x * y) * (x * y)) by apply Rle_0_sqr.
        assert ((C * C) * ((x * y) * (x * y)) <= (A * B) * ((x * y) * (x * y)))
          by (apply Rmult_le_compat_r; assumption).
        nra. }
      destruct (Rle_lt_dec (2 * (C * (x * y))) (A * (y * y) + B * (x * x)));
        [assumption|]. nra. }
    nra.
Qed.

Lemma norm_sq (v : list R) : np.norm v * np.norm v = sum_sq v.
Proof. unfold np.norm. apply sqrt_sqrt. apply sum_sq_nonneg. Qed.

Lemma norm_nonneg (v : list R) : 0 <= np.norm v.
Proof. unfold np.norm. apply sqrt_pos. Qed.

Lemma dot_scale (u v : list R) (a b : R) :
  a <> 0 -> b <> 0 ->
  np.dot (np.scale u a) (np.scale v b) = np.dot u v / (a * b).
Proof.
  intros Ha Hb. revert v. induction u as [|x u IH]; intros [|y v]; simpl;
    try (unfold Rdiv; now rewrite Rmult_0_l).
  rewrite IH. field. split; assumption.
Qed.

Lemma dot_le_norms (u v : list R) : np.dot u v <= np.norm u * np.norm v.
Proof.
  pose proof (cauchy_schwarz u v) as H.
  rewrite <- (norm_sq u), <- (norm_sq v) in H.
  pose proof (norm_nonneg u). pose proof (norm_nonneg v).
  destruct (Rle_lt_dec (np.dot u v) (np.norm u * np.norm v)); [assumption|].
  assert (0 <= np.norm u * np.norm v) by (now apply Rmult_le_pos).
  nra.
Qed.

(** The cosine of two non-zero vectors is at most 1. *)
Lemma cosine_le_1 (u v : list R) :
  0 < np.norm u -> 0 < np.norm v ->
  np.dot (np.scale u (np.norm u)) (np.scale v (np.norm v)) <= 1.
Proof.
  intros Hu Hv. rewrite dot_scale by lra.
  assert (0 < np.norm u * np.norm v) by (now apply Rmult_lt_0_compat).
  pose proof (dot_le_norms u v) as Hd.
  unfold Rdiv. apply Rmult_le_reg_r with (r := np.norm u * np.norm v); [assumption|].
  rewrite Rmult_assoc, Rinv_l, Rmult_1_r, Rmult_1_l by lra. exact Hd.
Qed.

(** ** Subsequences and the order of occurrence *)

Section ListFacts.
Variable A : Type.
Implicit Types (l : list A) (x y : A).

Lemma subseq_refl l : subseq l l.
Proof. induction l; constructor; assumption. Qed.

Lemma subseq_nil_l l : subseq [] l.
Proof. induction l; constructor; assumption. Qed.

Lemma subseq_trans l1 l2 l3 : subseq l1 l2 -> subseq l2 l3 -> subseq l1 l3.
Proof.
  intros H12 H23. revert l1 H12.
  induction H23 as [|x l2 l3 H IH|x l2 l3 H IH]; intros l1 H12.
  - assumption.
  - constructor. now apply IH.
  - inversion H12; subst.
    + constructor. now apply IH.
    + apply subseq_keep. now apply IH.
Qed.

Lemma subseq_In l1 l2 x : subseq l1 l2 -> In x l1 -> In x l2.
Proof.
  induction 1 as [|y l1 l2 H IH|y l1 l2 H IH]; simpl; intro Hx.
  - assumption.
  - right. now apply IH.
  - destruct Hx as [-> | Hx]; [now left | right; now apply IH].
Qed.

Lemma subseq_length l1 l2 : subseq l1 l2 -> (length l1 <= length l2)%nat.
Proof. induction 1; simpl; lia. Qed.

Lemma subseq_NoDup l1 l2 : subseq l1 l2 -> NoDup l2 -> NoDup l1.
Proof.
  induction 1 as [|y l1 l2 H IH|y l1 l2 H IH]; intro Hnd.
  - constructor.
  - inversion Hnd; subst. now apply IH.
  - inversion Hnd; subst. constructor; [|now apply IH].
    intro Hy. eapply subseq_In in Hy; eauto.
Qed.

Lemma subseq_sorted (R : A -> A -> Prop) l1 l2 :
  subseq l1 l2 -> StronglySorted R l2 -> StronglySorted R l1.
Proof.
  induction 1 as [|y l1 l2 H IH|y l1 l2 H IH]; intro Hs.
  - constructor.
  - inversion Hs; subst. now apply IH.
  - inversion Hs as [|? ? Hs' Hall]; subst. constructor; [now apply IH|].
    rewrite Forall_forall in *. intros z Hz. apply Hall.
    eapply subseq_In; eauto.
Qed.

Lemma subseq_firstn n l : subseq (firstn n l) l.
Proof.
  revert n. induction l as [|x l IH]; intros [|n]; simpl.
  - constructor.
  - constructor.
  - apply subseq_nil_l.
  - apply subseq_keep, IH.
Qed.

Lemma subseq_filter (f : A -> bool) l : subseq (filter f l) l.
Proof.
  induction l as [|x l IH]; simpl; [constructor|].
  destruct (f x); constructor; assumption.
Qed.

Lemma subseq_split l1 l2 x l :
  subseq (l1 ++ x :: l2) l ->
  exists m1 m2, l = m1 ++ x :: m2 /\ subseq l1 m1 /\ subseq l2 m2.
Proof.
  intro H. remember (l1 ++ x :: l2) as k eqn:E. revert l1 E.
  induction H as [|y k l H IH|y k l H IH]; intros l1 E.
  - destruct l1; discriminate.
  - destruct (IH l1 E) as [m1 [m2 [-> [H1 H2]]]].
    exists (y :: m1), m2. repeat split; [|assumption]. now constructor.
  - destruct l1 as [|z l1]; simpl in E; inversion E; subst.
    + exists [], l. repeat split; [constructor | assumption].
    + destruct (IH l1 eq_refl) as [m1 [m2 [-> [H1 H2]]]].
      exists (z :: m1), m2. repeat split; [|assumption]. now constructor.
Qed.

Lemma subseq_precedes l1 l2 x y :
  subseq l1 l2 -> precedes l1 x y -> precedes l2 x y.
Proof.
  intros H [a [b [c ->]]].
  apply subseq_split in H as [m1 [m2 [-> [_ H2]]]].
  apply subseq_split in H2 as [n1 [n2 [-> _]]].
  now exists m1, n1, n2.
Qed.

Lemma precedes_cons l x y z : precedes l x y -> precedes (z :: l) x y.
Proof. intros [a [b [c ->]]]. now exists (z :: a), b, c. Qed.

Lemma precedes_head l x y : In y l -> precedes (x :: l) x y.
Proof.
  intro H. apply in_split in H as [b [c ->]]. now exists [], b, c.
Qed.

Lemma precedes_In l x y : precedes l x y -> In x l /\ In y l.
Proof.
  intros [a [b [c ->]]]. split.
  - apply in_or_app. right. now left.
  - apply in_or_app. right. right. apply in_or_app. right. now left.
Qed.

Lemma precedes_inv l x y z :
  precedes (z :: l) x y -> (x = z /\ In y l) \/ precedes l x y.
Proof.
  intros [[|w a] [b [c E]]]; simpl in E; inversion E; subst.
  - left. split; [reflexivity|]. apply in_or_app. right. now left.
  - right. now exists a, b, c.
Qed.
End ListFacts.

Lemma subseq_map (A B : Type) (f : A -> B) (l1 l2 : list A) :
  subseq l1 l2 -> subseq (map f l1) (map f l2).
Proof. induction 1; simpl; constructor; assumption. Qed.

Lemma precedes_map (A B : Type) (f : A -> B) (l : list A) (x y : A) :
  precedes l x y -> precedes (map f l) (f x) (f y).
Proof.
  intros [a [b [c ->]]]. exists (map f a), (map f b), (map f c).
  now rewrite map_app, map_cons, map_app, map_cons.
Qed.

(** ** The stable sort *)

Section SortFacts.
Variable A : Type.
Variable before : A -> A -> bool.
(** [x] may stand in front of [y]. *)
Let ok (x y : A) : Prop := before y x = false.
Hypothesis before_asym : forall x y, before y x = true -> before x y = false.
Hypothesis ok_trans : forall x y z, ok x y -> ok y z -> ok x z.

Lemma insert_perm (x : A) (l : list A) : Permutation (x :: l) (Py.insert before x l).
Proof.
  induction l as [|y l IH]; simpl; [reflexivity|].
  destruct (before y x); [|reflexivity].
  etransitivity; [apply perm_swap|]. now constructor.
Qed.

Lemma sorted_perm (l : list A) : Permutation l (Py.sorted before l).
Proof.
  induction l as [|x l IH]; simpl; [reflexivity|].
  etransitivity; [|apply insert_perm]. now constructor.
Qed.

Lemma sorted_In (l : list A) (x : A) : In x (Py.sorted before l) <-> In x l.
Proof.
  split; apply Permutation_in; [symmetry|]; apply sorted_perm.
Qed.

Lemma sorted_length (l : list A) : length (Py.sorted before l) = length l.
Proof. symmetry. apply Permutation_length, sorted_perm. Qed.

Lemma insert_sorted (x : A) (l : list A) :
  StronglySorted ok l -> StronglySorted ok (Py.insert before x l).
Proof.
  induction 1 as [|y l Hs IH Hall]; simpl.
  - repeat constructor.
  - destruct (before y x) eqn:E.
    + constructor; [assumption|].
      rewrite Forall_forall in *. intros z Hz.
      apply (Permutation_in _ (Permutation_sym (insert_perm x l))) in Hz.
      destruct Hz as [<- | Hz]; [now apply before_asym | now apply Hall].
    + constructor; [now constructor|].
      constructor; [exact E|].
      rewrite Forall_forall in *. intros z Hz.
      apply ok_trans with y; [exact E | now apply Hall].
Qed.

Lemma sorted_sorted (l : list A) : StronglySorted ok (Py.sorted before l).
Proof.
  induction l as [|x l IH]; simpl; [constructor | now apply insert_sorted].
Qed.

Lemma insert_precedes (a : A) (l : list A) (x y : A) :
  precedes (Py.insert before a l) x y ->
  precedes l x y \/ (x = a /\ In y l) \/ (y = a /\ before x a = true).
Proof.
  induction l as [|z l IH]; simpl; intro H.
  - destruct H as [[|? [|? ?]] [b [c E]]]; simpl in E; inversion E;
      destruct b; discriminate.
  - destruct (before z a) eqn:E.
    + apply precedes_inv in H as [[-> Hy] | H].
      * apply (Permutation_in _ (Permutation_sym (insert_perm a l))) in Hy.
        destruct Hy as [<- | Hy].
        -- right. right. now split.
        -- left. now apply precedes_head.
      * apply IH in H as [H | [[-> Hy] | H]].
        -- left. now apply precedes_cons.
        -- right. left. split; [reflexivity | now right].
        -- right. right. assumption.
    + apply precedes_inv in H as [[-> Hy] | H].
      * right. left. now split.
      * now left.
Qed.

(** Stability: of two elements neither of which has to go first, the one
    that comes first in the output came first in the input. *)
Lemma sorted_stable (l : list A) (x y : A) :
  precedes (Py.sorted before l) x y ->
  before x y = true \/ precedes l x y.
Proof.
  revert x y. induction l as [|a l IH]; simpl; intros x y H.
  - destruct H as [[|? ?] [b [c E]]]; discriminate.
  - apply insert_precedes in H as [H | [[-> Hy] | [-> Hb]]].
    + apply IH in H as [H | H]; [now left | right; now apply precedes_cons].
    + right. apply precedes_head. exact (proj1 (sorted_In l y) Hy).
    + now left.
Qed.
End SortFacts.

(** ** Ranking: sorting by score, truncation, assembly of the results *)

Lemma higher_asym (x y : str * R) : higher y x = true -> higher x y = false.
Proof. unfold higher. rewrite Rltb_true, Rltb_false. lra. Qed.

Lemma higher_trans (x y z : str * R) :
  higher y x = false -> higher z y = false -> higher z x = false.
Proof. unfold higher. rewrite !Rltb_false. lra. Qed.

Lemma sort_by_score_descending (l : list (str * R)) : descending (sort_by_score l).
Proof.
  unfold descending, sort_by_score.
  pose proof (sorted_sorted higher higher_asym higher_trans l) as H.
  eapply StronglySorted_ind with (P := StronglySorted (fun x y => snd y <= snd x));
    [constructor | | exact H].
  intros a l' _ IH Hall. constructor; [exact IH|].
  eapply Forall_impl; [|exact Hall]. intros b Hb. unfold higher in Hb.
  now apply Rltb_false in Hb.
Qed.

Lemma sort_by_score_stable (l : list (str * R)) (x y : str * R) :
  precedes (sort_by_score l) x y -> snd y < snd x \/ precedes l x y.
Proof.
  intro H. apply sorted_stable in H as [H | H]; [left | now right].
  unfold higher in H. now apply Rltb_true in H.
Qed.

Lemma sort_by_score_In (l : list (str * R)) (x : str * R) :
  In x (sort_by_score l) <-> In x l.
Proof. apply sorted_In. Qed.

Lemma sort_by_score_length (l : list (str * R)) :
  length (sort_by_score l) = length l.
Proof. apply sorted_length. Qed.

Lemma sort_by_score_keys_NoDup (l : list (str * R)) :
  NoDup (map fst l) -> NoDup (map fst (sort_by_score l)).
Proof.
  intro H. eapply Permutation_NoDup; [|exact H].
  apply Permutation_map. apply sorted_perm.
Qed.

Lemma slice_to_subseq (A : Type) (l : list A) (k : Z) : subseq (slice_to l k) l.
Proof. unfold slice_to. destruct (0 <=? k)%Z; apply subseq_firstn. Qed.

Lemma slice_to_length (A : Type) (l : list A) (k : Z) :
  (0 <= k)%Z -> (length (slice_to l k) <= Z.to_nat k)%nat.
Proof.
  intro H. unfold slice_to. apply Z.leb_le in H. rewrite H.
  rewrite length_firstn. lia.
Qed.

Lemma slice_to_all (A : Type) (l : list A) (k : Z) :
  (Z.of_nat (length l) <= k)%Z -> slice_to l k = l.
Proof.
  intro H. unfold slice_to.
  assert (E : (0 <=? k)%Z = true) by (apply Z.leb_le; lia). rewrite E.
  apply firstn_all2. lia.
Qed.

Lemma get_document_in_found (docs : list Document) (i : str) :
  In i (map doc_id docs) -> exists d, get_document_in docs i = Some d /\ doc_id d = i.
Proof.
  induction docs as [|d docs IH]; simpl; [intros []|].
  intro H. destruct (str_eqb (doc_id d) i) eqn:E.
  - apply str_eqb_eq in E. now exists d.
  - destruct H as [H | H]; [|now apply IH].
    apply str_eqb_neq in E. contradiction.
Qed.

Section BuildResults.
Variables (cm : CorpusManager) (query_terms : list str) (query : str).

Lemma build_results_subseq (seen : list str) (docs : list (str * R)) :
  subseq (map id_score (build_results cm query_terms query seen docs)) docs.
Proof.
  revert seen. induction docs as [|[i sc] docs IH]; intro seen; simpl.
  - constructor.
  - destruct (mem i seen); [constructor; apply IH|].
    destruct (get_document cm i); [|constructor; apply IH].
    destruct (text_processing.extract_snippet _ _ _ _) as [snip mw].
    simpl. apply subseq_keep. apply IH.
Qed.

Lemma build_results_ids (seen : list str) (docs : list (str * R)) :
  NoDup (map schemas.id (build_results cm query_terms query seen docs))
  /\ forall r, In r (build_results cm query_terms query seen docs) ->
               ~ In (schemas.id r) seen.
Proof.
  revert seen. induction docs as [|[i sc] docs IH]; intro seen; simpl.
  - split; [constructor | intros r []].
  - destruct (mem i seen) eqn:M; [apply IH|].
    assert (Hi : ~ In i seen).
    { intro H. apply mem_In in H. congruence. }
    destruct (IH (i :: seen)) as [Hnd Hout].
    assert (Hout' : forall r, In r (build_results cm query_terms query (i :: seen) docs)
                              -> ~ In (schemas.id r) seen).
    { intros r Hr Hin. apply (Hout r Hr). now right. }
    destruct (get_document cm i); [|now split].
    destruct (text_processing.extract_snippet _ _ _ _) as [snip mw].
    simpl. split.
    + constructor; [|assumption]. intro Hin. apply in_map_iff in Hin as [r [E Hr]].
      apply (Hout r Hr). now left.
    + intros r [<- | Hr]; [exact Hi | now apply Hout'].
Qed.

(** When every identifier is new and has a document, nothing is left out. *)
Lemma build_results_complete (seen : list str) (docs : list (str * R)) :
  NoDup (map fst docs) ->
  (forall i, In i (map fst docs) -> ~ In i seen) ->
  (forall i, In i (map fst docs) -> In i (map doc_id (documents cm))) ->
  map id_score (build_results cm query_terms query seen docs) = docs.
Proof.
  revert seen. induction docs as [|[i sc] docs IH]; intros seen Hnd Hnew Hdoc; simpl.
  - reflexivity.
  - assert (M : mem i seen = false).
    { destruct (mem i seen) eqn:M; [|reflexivity].
      apply mem_In in M. exfalso. apply (Hnew i); [now left | assumption]. }
    rewrite M. unfold get_document.
    destruct (get_document_in_found (documents cm) i) as [d [-> _]].
    { apply Hdoc. now left. }
    destruct (text_processing.extract_snippet _ _ _ _) as [snip mw].
    simpl. unfold id_score at 1. simpl. f_equal.
    inversion Hnd; subst. apply IH.
    + assumption.
    + intros j Hj [<- | Hs]; [contradiction|].
      apply (Hnew j); [now right | assumption].
    + intros j Hj. apply Hdoc. now right.
Qed.
End BuildResults.

(** What both scorers guarantee about the list they return, [scored] being
    the documents with a score > 0 in the scorer's document order. *)
Lemma ranked_results (cm : CorpusManager) (query_terms : list str) (query : str)
      (scored : list (str * R)) (top_k : Z) :
  let results :=
    build_results cm query_terms query [] (slice_to (sort_by_score scored) top_k) in
  ((0 <= top_k)%Z ->
   (length results <= Nat.min (Z.to_nat top_k) (length scored))%nat)
  /\ descending (map id_score results)
  /\ NoDup (map schemas.id results)
  /\ (forall r1 r2, precedes results r1 r2 ->
                    schemas.score r1 = schemas.score r2 ->
                    precedes scored (id_score r1) (id_score r2)).
Proof.
  intro results.
  assert (Hsub : subseq (map id_score results) (slice_to (sort_by_score scored) top_k))
    by apply build_results_subseq.
  assert (Hsub' : subseq (map id_score results) (sort_by_score scored)).
  { eapply subseq_trans; [exact Hsub | apply slice_to_subseq]. }
  split; [|split; [|split]].
  - intro Hk. apply subseq_length in Hsub. rewrite length_map in Hsub.
    pose proof (slice_to_length (sort_by_score scored) Hk) as H1.
    pose proof (subseq_length (slice_to_subseq (sort_by_score scored) top_k)) as H2.
    rewrite sort_by_score_length in H2. lia.
  - eapply subseq_sorted; [exact Hsub' | apply sort_by_score_descending].
  - apply build_results_ids.
  - intros r1 r2 Hp Heq.
    apply (precedes_map id_score) in Hp.
    apply (subseq_precedes Hsub') in Hp.
    apply sort_by_score_stable in Hp as [Hp | Hp]; [|assumption].
    unfold id_score in Hp. simpl in Hp. lra.
Qed.

(** ** Dictionaries filled by a loop *)

Section FoldSet.
Variables (A B : Type) (f : str -> A -> B).

Let step (acc : dict B) (e : str * A) : dict B :=
  set acc (fst e) (f (fst e) (snd e)).

Lemma fold_set_get (l : dict A) (acc : dict B) (k : str) :
  wf l ->
  get (fold_left step l acc) k
  = match get l k with Some v => Some (f k v) | None => get acc k end.
Proof.
  unfold wf, keys. revert acc. induction l as [|[k0 v0] l IH]; intros acc Hnd; simpl.
  - reflexivity.
  - inversion Hnd as [|? ? Hk Hl]; subst. rewrite IH by assumption.
    unfold step. simpl. rewrite get_set.
    destruct (str_eqb k k0) eqn:E.
    + apply str_eqb_eq in E. subst k0.
      assert (G : get l k = None) by (now apply get_None_not_key).
      now rewrite G.
    + reflexivity.
Qed.

Lemma fold_set_keys (l : dict A) (acc : dict B) :
  NoDup (keys acc ++ keys l) ->
  keys (fold_left step l acc) = keys acc ++ keys l.
Proof.
  revert acc. induction l as [|[k0 v0] l IH]; intros acc Hnd; simpl.
  - now rewrite app_nil_r.
  - assert (Hk : has acc k0 = false).
    { destruct (has acc k0) eqn:E; [|reflexivity].
      apply has_In in E. apply NoDup_remove_2 in Hnd.
      exfalso. apply Hnd. apply in_or_app. now left. }
    assert (Ek : keys (step acc (k0, v0)) = keys acc ++ [k0]).
    { unfold step. simpl. rewrite keys_set. now rewrite Hk. }
    rewrite IH; rewrite Ek, <- app_assoc; [reflexivity|exact Hnd].
Qed.
End FoldSet.

Lemma tf_value_0 : TFIDF.tf_value 0 = 0.
Proof. reflexivity. Qed.

Lemma tf_value_pos (c : nat) : (1 <= c)%nat -> 1 <= TFIDF.tf_value c.
Proof.
  intro H. unfold TFIDF.tf_value.
  assert (E : (0 <? c)%nat = true) by (apply Nat.ltb_lt; lia). rewrite E.
  assert (0 <= log10 (INR c)).
  { apply log10_nonneg. change 1 with (INR 1). apply le_INR. lia. }
  lra.
Qed.

Lemma tf_value_nonneg (c : nat) : 0 <= TFIDF.tf_value c.
Proof.
  destruct c; [rewrite tf_value_0; lra|].
  assert (1 <= TFIDF.tf_value (S c)) by (apply tf_value_pos; lia). lra.
Qed.

(** The stored weight of a term in a document is the weight of its count;
    a term that the document lacks counts 0 and weighs 0. *)
Lemma index_entry (idf : dict R) (pt : dict TermTable) (i t : str) :
  tables_wf pt ->
  get_or (get_or (TFIDF.build_tf_idf_index idf pt) i []) t 0
  = TFIDF.weight idf t (get_or (get_or pt i []) t 0%nat).
Proof.
  intros [Hwf Htabs]. unfold TFIDF.build_tf_idf_index.
  unfold get_or at 2 4.
  rewrite (fold_set_get (fun _ termos => TFIDF.doc_weights idf termos)) by assumption.
  destruct (get pt i) as [tab|] eqn:E; simpl.
  - assert (Htab : wf tab).
    { rewrite Forall_forall in Htabs. apply Htabs.
      apply get_In in E. change tab with (snd (i, tab)). now apply in_map. }
    unfold TFIDF.doc_weights, get_or.
    rewrite (fold_set_get (fun termo freq => TFIDF.weight idf termo freq)) by assumption.
    destruct (get tab t); simpl; [reflexivity|].
    unfold TFIDF.weight. rewrite tf_value_0. now rewrite Rmult_0_l.
  - unfold get_or. simpl. unfold TFIDF.weight. rewrite tf_value_0.
    now rewrite Rmult_0_l.
Qed.

Lemma index_keys (idf : dict R) (pt : dict TermTable) :
  wf pt -> keys (TFIDF.build_tf_idf_index idf pt) = keys pt.
Proof.
  intro H. unfold TFIDF.build_tf_idf_index.
  now rewrite (fold_set_keys (fun _ termos => TFIDF.doc_weights idf termos)).
Qed.

Lemma build_index_reachable (cm : CorpusManager) (self : TFIDF.Service) :
  TFIDF_reachable cm self ->
  TFIDF._build_index self cm = TFIDF._build_index TFIDF.init cm.
Proof.
  intros [-> | ->]; [reflexivity|].
  unfold TFIDF._build_index. simpl.
  destruct (length (processed_terms cm) =? 0)%nat eqn:E; simpl.
  - reflexivity.
  - reflexivity.
Qed.

Lemma build_index_empty (cm : CorpusManager) :
  length (processed_terms cm) = 0%nat ->
  TFIDF._build_index TFIDF.init cm = TFIDF.init.
Proof. intro H. unfold TFIDF._build_index. simpl. now rewrite H. Qed.

(** ** The similarities *)

Lemma In_set (V : Type) (d : dict V) (k k' : str) (v v' : V) :
  In (k', v') (set d k v) -> (k' = k /\ v' = v) \/ In (k', v') d.
Proof.
  induction d as [|[k0 v0] d IH]; simpl.
  - intros [H | []]. inversion H. now left.
  - destruct (str_eqb k k0) eqn:E; simpl.
    + apply str_eqb_eq in E. subst k0. intros [H | H].
      * inversion H. now left.
      * right. now right.
    + intros [H | H]; [right; now left|].
      apply IH in H as [H | H]; [now left | right; now right].
Qed.

Section FoldKeep.
Variable g : str -> option R.

Let step (sims : dict R) (i : str) : dict R :=
  match g i with Some sim => set sims i sim | None => sims end.

Lemma fold_keep_In (ks : list str) (acc : dict R) (i : str) (sim : R) :
  In (i, sim) (fold_left step ks acc) ->
  In (i, sim) acc \/ (In i ks /\ g i = Some sim).
Proof.
  revert acc. induction ks as [|k ks IH]; intros acc H; simpl in *.
  - now left.
  - apply IH in H as [H | [H1 H2]]; [|right; split; [now right | assumption]].
    unfold step in H. destruct (g k) as [s|] eqn:E; [|now left].
    apply In_set in H as [[-> ->] | H]; [|now left].
    right. split; [now left | assumption].
Qed.

Lemma fold_keep_keys (ks : list str) (acc : dict R) :
  NoDup ks -> (forall k, In k ks -> ~ In k (keys acc)) ->
  exists ks', subseq ks' ks /\ keys (fold_left step ks acc) = keys acc ++ ks'.
Proof.
  revert acc. induction ks as [|k ks IH]; intros acc Hnd Hnew; simpl.
  - exists []. split; [constructor | now rewrite app_nil_r].
  - inversion Hnd as [|? ? Hk Hks]; subst.
    assert (Hacc : has acc k = false).
    { destruct (has acc k) eqn:E; [|reflexivity].
      apply has_In in E. exfalso. apply (Hnew k); [now left | assumption]. }
    unfold step at 2. destruct (g k) as [s|].
    + destruct (IH (set acc k s) Hks) as [ks' [Hsub Hkeys]].
      { intros j Hj. rewrite keys_set, Hacc. intro Hin.
        apply in_app_or in Hin as [Hin | [<- | []]]; [|contradiction].
        apply (Hnew j); [now right | assumption]. }
      exists (k :: ks'). split; [now constructor|].
      rewrite Hkeys, keys_set, Hacc, <- app_assoc. reflexivity.
    + destruct (IH acc Hks) as [ks' [Hsub Hkeys]].
      { intros j Hj. apply Hnew. now right. }
      exists ks'. split; [now constructor | assumption].
Qed.

Lemma fold_keep_wf (ks : list str) (acc : dict R) :
  wf acc -> wf (fold_left step ks acc).
Proof.
  revert acc. induction ks as [|k ks IH]; intros acc H; simpl; [assumption|].
  apply IH. unfold step. destruct (g k); [now apply wf_set | assumption].
Qed.
End FoldKeep.

Lemma similarity_of_multi (n : nat) (qv dv : list R) (sim : R) :
  0 < np.norm qv ->
  TFIDF.similarity_of false n (np.scale qv (np.norm qv)) dv = Some sim ->
  0 < sim <= 1.
Proof.
  intros Hq. unfold TFIDF.similarity_of.
  destruct (negb (length dv =? n)%nat); [discriminate|].
  destruct (Rltb 0 (np.sum dv)); [|discriminate].
  destruct (Rltb 0 (np.norm dv)) eqn:Hd; [|discriminate].
  destruct (Rltb 0 (np.dot (np.scale dv (np.norm dv)) (np.scale qv (np.norm qv))))
    eqn:Hs; [|discriminate].
  intro H. inversion H; subst. apply Rltb_true in Hd. apply Rltb_true in Hs.
  split; [assumption|]. now apply cosine_le_1.
Qed.

Lemma similarity_of_single (n : nat) (qvn dv : list R) (sim : R) :
  TFIDF.similarity_of true n qvn dv = Some sim ->
  sim = nth 0 dv 0 /\ 0 < sim.
Proof.
  unfold TFIDF.similarity_of.
  destruct (negb (length dv =? n)%nat); [discriminate|].
  destruct (Rltb 0 (np.sum dv)); [|discriminate].
  destruct (Rltb 0 (nth 0 dv 0)) eqn:Hs; [|discriminate].
  intro H. inversion H; subst. apply Rltb_true in Hs. now split.
Qed.

(** Every stored similarity is the one of its document. *)
Lemma similarities_In (self : TFIDF.Service) (query_terms : list str) (i : str) (sim : R) :
  In (i, sim) (TFIDF.similarities self query_terms) ->
  let query_vector := TFIDF.query_tfidf_values (TFIDF.idf self) query_terms in
  0 < np.norm query_vector
  /\ In i (keys (TFIDF.tf_idf_index self))
  /\ TFIDF.similarity_of (length query_terms =? 1)%nat (length query_vector)
       (np.scale query_vector (np.norm query_vector))
       (TFIDF.doc_vector (TFIDF.tf_idf_index self) i query_terms) = Some sim.
Proof.
  unfold TFIDF.similarities. intro H. cbv zeta in *.
  set (query_vector := TFIDF.query_tfidf_values (TFIDF.idf self) query_terms) in *.
  destruct ((length query_vector =? 0)%nat || Reqb (np.sum query_vector) 0);
    [destruct H|].
  destruct (Rltb 0 (np.norm query_vector)) eqn:Hn; [|destruct H].
  apply Rltb_true in Hn. split; [assumption|].
  apply (fold_keep_In
           (fun i => TFIDF.similarity_of (length query_terms =? 1)%nat
                       (length query_vector)
                       (np.scale query_vector (np.norm query_vector))
                       (TFIDF.doc_vector (TFIDF.tf_idf_index self) i query_terms)))
    in H.
  destruct H as [[] | H]. exact H.
Qed.

Lemma similarities_keys (self : TFIDF.Service) (query_terms : list str) :
  NoDup (keys (TFIDF.tf_idf_index self)) ->
  subseq (keys (TFIDF.similarities self query_terms)) (keys (TFIDF.tf_idf_index self)).
Proof.
  intro Hnd. unfold TFIDF.similarities.
  set (query_vector := TFIDF.query_tfidf_values (TFIDF.idf self) query_terms).
  destruct ((length query_vector =? 0)%nat || Reqb (np.sum query_vector) 0);
    [apply subseq_nil_l|].
  destruct (Rltb 0 (np.norm query_vector)); [|apply subseq_nil_l].
  destruct (@fold_keep_keys
              (fun i => TFIDF.similarity_of (length query_terms =? 1)%nat
                          (length query_vector)
                          (np.scale query_vector (np.norm query_vector))
                          (TFIDF.doc_vector (TFIDF.tf_idf_index self) i query_terms))
              (keys (TFIDF.tf_idf_index self)) [] Hnd) as [ks' [Hsub Hkeys]].
  { intros k _ []. }
  rewrite Hkeys. exact Hsub.
Qed.

Lemma similarities_wf (self : TFIDF.Service) (query_terms : list str) :
  wf (TFIDF.similarities self query_terms).
Proof.
  unfold TFIDF.similarities.
  set (query_vector := TFIDF.query_tfidf_values (TFIDF.idf self) query_terms).
  destruct ((length query_vector =? 0)%nat || Reqb (np.sum query_vector) 0);
    [constructor|].
  destruct (Rltb 0 (np.norm query_vector)); [|constructor].
  apply fold_keep_wf. constructor.
Qed.

Lemma sorted_docs_eq (self : TFIDF.Service) (processed : list str) :
  TFIDF.sorted_docs self processed
  = sort_by_score (TFIDF.similarities self (TFIDF.termos_encontrados self processed)).
Proof.
  unfold TFIDF.sorted_docs. destruct processed as [|p ps]; [reflexivity|].
  destruct (TFIDF.termos_encontrados self (p :: ps)); reflexivity.
Qed.

Lemma search_results_In (self : TFIDF.Service) (cm : CorpusManager)
      (pre : PreprocessingService) (query : str) (top_k : Z) (r : schemas.ResultItem) :
  In r (snd (TFIDF.search self cm pre query top_k)) ->
  In (id_score r)
     (TFIDF.similarities (TFIDF._build_index self cm)
        (TFIDF.termos_encontrados (TFIDF._build_index self cm) (process_query pre query))).
Proof.
  unfold TFIDF.search. simpl. intro H.
  apply (in_map id_score) in H.
  eapply subseq_In in H; [|apply build_results_subseq].
  eapply subseq_In in H; [|apply slice_to_subseq].
  rewrite sorted_docs_eq in H. exact (proj1 (sort_by_score_In _ _) H).
Qed.

(** ** C1: the range of the TF-IDF scores *)

Lemma raw_weight_increasing (N d c1 c2 : nat) :
  (1 <= d <= N)%nat -> (1 <= c1 < c2)%nat ->
  (1 + log10 (INR c1)) * log10 (1 + INR N / INR d)
  < (1 + log10 (INR c2)) * log10 (1 + INR N / INR d).
Proof.
  intros Hd Hc. apply Rmult_lt_compat_r.
  - now apply (@idf_value_pos N d).
  - apply Rplus_lt_compat_l. apply log10_increasing.
    + apply lt_0_INR. lia.
    + apply lt_INR. lia.
Qed.

Lemma termos_encontrados_has (self : TFIDF.Service) (processed : list str) (t : str) :
  In t (TFIDF.termos_encontrados self processed) -> has (TFIDF.idf self) t = true.
Proof. unfold TFIDF.termos_encontrados. intro H. now apply filter_In in H. Qed.

(** The score of a single-term query over a built index. *)
Lemma single_term_score (cm : CorpusManager) (pre : PreprocessingService)
      (query : str) (top_k : Z) (self : TFIDF.Service) (r : schemas.ResultItem) (t : str) :
  let pt := processed_terms cm in
  TFIDF_reachable cm self -> tables_wf pt ->
  In r (snd (TFIDF.search self cm pre query top_k)) ->
  TFIDF.termos_encontrados (TFIDF._build_index self cm) (process_query pre query) = [t] ->
  exists count,
    get (get_or pt (schemas.id r) []) t = Some count
    /\ (1 <= count)%nat
    /\ (1 <= df_of pt t <= length pt)%nat
    /\ schemas.score r
       = (1 + log10 (INR count)) * log10 (1 + INR (length pt) / INR (df_of pt t)).
Proof.
  intros pt Hreach Hwf Hr Hqt.
  apply search_results_In in Hr. rewrite Hqt in Hr.
  pose proof (termos_encontrados_has (TFIDF._build_index self cm)
                (process_query pre query) t) as Hhas.
  rewrite Hqt in Hhas. specialize (Hhas (or_introl eq_refl)).
  rewrite (build_index_reachable Hreach) in Hr, Hhas.
  assert (HN : (1 <= length pt)%nat).
  { destruct (length pt) eqn:E; [|lia].
    rewrite build_index_empty in Hhas by exact E. discriminate. }
  apply similarities_In in Hr. cbv zeta in Hr. destruct Hr as [_ [_ Hsim]].
  change (length [t] =? 1)%nat with true in Hsim.
  apply similarity_of_single in Hsim as [Hval Hpos].
  unfold id_score in Hval, Hpos. simpl in Hval, Hpos.
  rewrite build_index_fresh in Hval by exact HN. simpl in Hval.
  rewrite index_entry in Hval by exact Hwf. fold pt in Hval.
  destruct Hwf as [_ Htabs].
  unfold has in Hhas. rewrite idf_of_fresh_index in Hhas by assumption.
  fold pt in Hhas.
  assert (Hidf : get_or (TFIDF.build_idf (length pt) (TFIDF.document_frequency pt)) t 0
                 = log10 (1 + INR (length pt) / INR (df_of pt t))
                 /\ (1 <= df_of pt t)%nat).
  { unfold get_or, TFIDF.build_idf. rewrite get_map_values.
    rewrite document_frequency_get by assumption.
    destruct (df_of pt t =? 0)%nat eqn:E; [discriminate|].
    apply Nat.eqb_neq in E. simpl. split; [reflexivity | lia]. }
  destruct Hidf as [Hidf Hdf].
  unfold TFIDF.weight in Hval. rewrite Hidf in Hval.
  remember (get_or (get_or pt (schemas.id r) []) t 0%nat) as count eqn:Ecount.
  exists count.
  assert (Hc : (1 <= count)%nat).
  { destruct count; [|lia]. rewrite tf_value_0, Rmult_0_l in Hval. lra. }
  split; [|split; [exact Hc|split; [split; [exact Hdf | apply df_of_le]|]]].
  - unfold get_or at 1 in Ecount.
    destruct (get (get_or pt (schemas.id r) []) t); [now subst | lia].
  - rewrite Hval. unfold TFIDF.tf_value.
    assert (E : (0 <? count)%nat = true) by (apply Nat.ltb_lt; lia).
    now rewrite E.
Qed.

Section FoldKeepAny.
Variables (V : Type) (g : str -> option V).

Let step (sims : dict V) (i : str) : dict V :=
  match g i with Some sim => set sims i sim | None => sims end.

Lemma fold_keep_any_In (ks : list str) (acc : dict V) (i : str) (sim : V) :
  In (i, sim) (fold_left step ks acc) ->
  In (i, sim) acc \/ (In i ks /\ g i = Some sim).
Proof.
  revert acc. induction ks as [|k ks IH]; intros acc H; simpl in *.
  - now left.
  - apply IH in H as [H | [H1 H2]]; [|right; split; [now right | assumption]].
    unfold step in H. destruct (g k) as [s|] eqn:E; [|now left].
    apply In_set in H as [[-> ->] | H]; [|now left].
    right. split; [now left | assumption].
Qed.
End FoldKeepAny.

(** Every similarity stored on doubles is the one of its document. *)
Lemma similarities64_In (log10 : float64.float -> float64.float)
      (self : TFIDF64.Service) (query_terms : list str) (i : str) (sim : float64.float) :
  In (i, sim) (TFIDF64.similarities log10 self query_terms) ->
  let query_vector := TFIDF64.query_tfidf_values log10 (TFIDF64.idf self) query_terms in
  TFIDF64.similarity_of (length query_terms =? 1)%nat (length query_vector)
    (np64.scale query_vector (np64.norm query_vector))
    (TFIDF64.doc_vector (TFIDF64.tf_idf_index self) i query_terms) = Some sim.
Proof.
  unfold TFIDF64.similarities. intro H. cbv zeta in *.
  set (query_vector := TFIDF64.query_tfidf_values log10 (TFIDF64.idf self) query_terms)
    in *.
  destruct ((length query_vector =? 0)%nat
            || float64.eqb (np64.sum query_vector) float64.zero); [destruct H|].
  destruct (float64.ltb float64.zero (np64.norm query_vector)); [|destruct H].
  apply (fold_keep_any_In
           (fun i => TFIDF64.similarity_of (length query_terms =? 1)%nat
                       (length query_vector)
                       (np64.scale query_vector (np64.norm query_vector))
                       (TFIDF64.doc_vector (TFIDF64.tf_idf_index self) i query_terms)))
    in H.
  destruct H as [[] | [_ H]]. exact H.
Qed.

(** What the tests of the loop let through, and what was computed. *)
Lemma similarity64_of_value (single : bool) (n : nat)
      (qvn dv : list float64.float) (sim : float64.float) :
  TFIDF64.similarity_of single n qvn dv = Some sim ->
  float64.ltb float64.zero (np64.sum dv) = true
  /\ float64.ltb float64.zero sim = true
  /\ sim = if single then nth 0 dv float64.zero
           else np64.dot (np64.scale dv (np64.norm dv)) qvn.
Proof.
  unfold TFIDF64.similarity_of.
  destruct (negb (length dv =? n)%nat); [discriminate|].
  destruct (float64.ltb float64.zero (np64.sum dv)); [|discriminate].
  destruct single.
  - destruct (float64.ltb float64.zero (nth 0 dv float64.zero)) eqn:E; [|discriminate].
    intro H. inversion H; subst. now repeat split.
  - destruct (float64.ltb float64.zero (np64.norm dv)); [|discriminate].
    destruct (float64.ltb float64.zero _) eqn:E; [|discriminate].
    intro H. inversion H; subst. now repeat split.
Qed.

Lemma result_scores_subseq (cm : CorpusManager) (seen : list str)
      (docs : list (str * float64.float)) :
  subseq (TFIDF64.result_scores cm seen docs) docs.
Proof.
  revert seen. induction docs as [|[i sc] docs IH]; intro seen; simpl.
  - constructor.
  - destruct (mem i seen); [constructor; apply IH|].
    destruct (get_document cm i); constructor; apply IH.
Qed.

Lemma search64_In (log10 : float64.float -> float64.float) (self : TFIDF64.Service)
      (cm : CorpusManager) (pre : PreprocessingService) (query : str) (top_k : Z)
      (i : str) (s : float64.float) :
  In (i, s) (snd (TFIDF64.search log10 self cm pre query top_k)) ->
  In (i, s)
     (TFIDF64.similarities log10 (TFIDF64._build_index log10 self cm)
        (TFIDF64.termos_encontrados (TFIDF64._build_index log10 self cm)
           (process_query pre query))).
Proof.
  unfold TFIDF64.search. simpl. intro H.
  eapply subseq_In in H; [|apply result_scores_subseq].
  eapply subseq_In in H; [|apply slice_to_subseq].
  unfold TFIDF64.sorted_docs in H.
  destruct (process_query pre query) as [|p ps]; [destruct H|].
  destruct (TFIDF64.termos_encontrados _ (p :: ps)) eqn:E; [destruct H|].
  now apply sorted_In in H.
Qed.

(** The terms that survive are the terms of the processed query that some
    document holds, in the order of the query and with their repeats. *)
Lemma termos_encontrados_spec (cm : CorpusManager) (self : TFIDF.Service)
      (processed : list str) :
  TFIDF_reachable cm self -> tables_wf (processed_terms cm) ->
  TFIDF.termos_encontrados (TFIDF._build_index self cm) processed
  = filter (fun t => (1 <=? df_of (processed_terms cm) t)%nat) processed.
Proof.
  intros Hreach [Hwf Htabs]. rewrite (build_index_reachable Hreach).
  unfold TFIDF.termos_encontrados. apply filter_ext. intro t. unfold has.
  destruct (length (processed_terms cm)) eqn:EN.
  - rewrite build_index_empty by exact EN. simpl.
    destruct (processed_terms cm); [reflexivity | discriminate].
  - rewrite idf_of_fresh_index by (assumption || lia).
    destruct (df_of (processed_terms cm) t) eqn:E; reflexivity.
Qed.

Section Index64.
Variable log10 : float64.float -> float64.float.

(** A product with 0.0 is 0.0, -0.0 or not a number: never above 0. *)
Lemma mul_zero_not_positive (x : float64.float) :
  float64.ltb float64.zero (float64.mul float64.zero x) = false.
Proof. destruct x as [s|s| |s m e]; try destruct s; reflexivity. Qed.

Lemma build_index64_reachable (cm : CorpusManager) (self : TFIDF64.Service) :
  TFIDF64_reachable log10 cm self ->
  TFIDF64._build_index log10 self cm = TFIDF64._build_index log10 TFIDF64.init cm.
Proof.
  intros [-> | ->]; [reflexivity|].
  unfold TFIDF64._build_index. simpl.
  destruct (length (processed_terms cm) =? 0)%nat; reflexivity.
Qed.

Lemma idf64_of_fresh_index (cm : CorpusManager) (t : str) :
  Forall (@wf nat) (values (processed_terms cm)) ->
  get (TFIDF64.idf (TFIDF64._build_index log10 TFIDF64.init cm)) t
  = if (df_of (processed_terms cm) t =? 0)%nat then None
    else Some (TFIDF64.idf_value log10 (length (processed_terms cm))
                                 (df_of (processed_terms cm) t)).
Proof.
  intro Hwf. unfold TFIDF64._build_index. simpl.
  destruct (length (processed_terms cm) =? 0)%nat eqn:EN; simpl.
  - apply Nat.eqb_eq in EN.
    destruct (processed_terms cm); [reflexivity | discriminate].
  - unfold TFIDF64.build_idf. rewrite get_map_values.
    rewrite document_frequency_get by assumption.
    destruct (df_of (processed_terms cm) t =? 0)%nat; reflexivity.
Qed.

(** The stored weight of a term in a document is the weight of its count;
    nothing is stored for a term that the document lacks. *)
Lemma index64_entry (idf : dict float64.float) (pt : dict TermTable) (i t : str) :
  tables_wf pt ->
  get (get_or (TFIDF64.build_tf_idf_index log10 idf pt) i []) t
  = option_map (TFIDF64.weight log10 idf t) (get (get_or pt i []) t).
Proof.
  intros [Hwf Htabs]. unfold TFIDF64.build_tf_idf_index.
  unfold get_or.
  rewrite (fold_set_get (fun _ termos => TFIDF64.doc_weights log10 idf termos))
    by assumption.
  destruct (get pt i) as [tab|] eqn:E; simpl; [|reflexivity].
  assert (Htab : wf tab).
  { rewrite Forall_forall in Htabs. apply Htabs.
    apply get_In in E. change tab with (snd (i, tab)). now apply in_map. }
  unfold TFIDF64.doc_weights.
  rewrite (fold_set_get (fun termo freq => TFIDF64.weight log10 idf termo freq))
    by assumption.
  now destruct (get tab t).
Qed.

(** The score of a single-term query on doubles, over a built index. *)
Lemma single_term_score64 (cm : CorpusManager) (pre : PreprocessingService)
      (query : str) (top_k : Z) (self : TFIDF64.Service) (i t : str)
      (s : float64.float) :
  let pt := processed_terms cm in
  TFIDF64_reachable log10 cm self -> tables_wf pt ->
  In (i, s) (snd (TFIDF64.search log10 self cm pre query top_k)) ->
  TFIDF64.termos_encontrados (TFIDF64._build_index log10 self cm)
    (process_query pre query) = [t] ->
  exists count,
    get (get_or pt i []) t = Some count
    /\ (1 <= count)%nat
    /\ (1 <= df_of pt t <= length pt)%nat
    /\ s = float64.mul
             (float64.add float64.one (log10 (float64.of_nat count)))
             (log10 (float64.add float64.one
                       (float64.div (float64.of_nat (length pt))
                                    (float64.of_nat (df_of pt t))))).
Proof.
  intros pt Hreach Hwf Hin Hqt.
  apply search64_In in Hin. rewrite Hqt in Hin.
  assert (Hhas : has (TFIDF64.idf (TFIDF64._build_index log10 self cm)) t = true).
  { assert (H : In t (TFIDF64.termos_encontrados (TFIDF64._build_index log10 self cm)
                        (process_query pre query))) by (rewrite Hqt; now left).
    unfold TFIDF64.termos_encontrados in H. now apply filter_In in H. }
  rewrite (build_index64_reachable Hreach) in Hin, Hhas.
  apply similarities64_In in Hin. cbv zeta in Hin.
  change (length [t] =? 1)%nat with true in Hin.
  apply similarity64_of_value in Hin as [_ [Hpos Hval]].
  cbn [TFIDF64.doc_vector map nth] in Hval.
  unfold has in Hhas. rewrite idf64_of_fresh_index in Hhas by apply Hwf.
  fold pt in Hhas.
  destruct (df_of pt t =? 0)%nat eqn:Edf; [discriminate|].
  apply Nat.eqb_neq in Edf.
  assert (Hidf : get_or (TFIDF64.idf (TFIDF64._build_index log10 TFIDF64.init cm)) t
                        float64.zero
                 = TFIDF64.idf_value log10 (length pt) (df_of pt t)).
  { unfold get_or. rewrite idf64_of_fresh_index by apply Hwf. fold pt.
    assert (E : (df_of pt t =? 0)%nat = false) by (now apply Nat.eqb_neq).
    now rewrite E. }
  assert (Hix : TFIDF64.tf_idf_index (TFIDF64._build_index log10 TFIDF64.init cm)
                = TFIDF64.build_tf_idf_index log10
                    (TFIDF64.idf (TFIDF64._build_index log10 TFIDF64.init cm)) pt).
  { unfold TFIDF64._build_index. simpl. fold pt.
    destruct (length pt =? 0)%nat eqn:EN; [|reflexivity].
    apply Nat.eqb_eq in EN. pose proof (df_of_le pt t). lia. }
  rewrite Hix in Hval. unfold get_or at 1 in Hval.
  rewrite index64_entry in Hval by exact Hwf.
  destruct (get (get_or pt i []) t) as [count|] eqn:Ec; simpl in Hval.
  - exists count. split; [reflexivity|].
    unfold TFIDF64.weight in Hval. rewrite Hidf in Hval.
    unfold TFIDF64.tf_value in Hval.
    destruct count as [|c].
    + change (0 <? 0)%nat with false in Hval. cbv iota in Hval.
      rewrite Hval, mul_zero_not_positive in Hpos. discriminate.
    + split; [lia|]. split; [split; [lia | apply df_of_le]|].
      exact Hval.
  - subst s. discriminate.
Qed.

Lemma termos_encontrados64_spec (cm : CorpusManager) (self : TFIDF64.Service)
      (processed : list str) :
  TFIDF64_reachable log10 cm self -> tables_wf (processed_terms cm) ->
  TFIDF64.termos_encontrados (TFIDF64._build_index log10 self cm) processed
  = filter (fun t => (1 <=? df_of (processed_terms cm) t)%nat) processed.
Proof.
  intros Hreach [Hwf Htabs]. rewrite (build_index64_reachable Hreach).
  unfold TFIDF64.termos_encontrados. apply filter_ext. intro t. unfold has.
  rewrite idf64_of_fresh_index by assumption.
  destruct (df_of (processed_terms cm) t) eqn:E; reflexivity.
Qed.
End Index64.

(** C1, as the code has it. On doubles, whatever [math.log10] returns: every
    score that [TFIDFService.search] returns belongs to a document whose
    restricted vector is not all zero and passed the test [> 0]; it is the
    stored weight of the term in the document when the list of surviving
    terms has one element, the computed cosine of the restricted document
    vector and the query vector otherwise; and for one surviving term it is
    the double (1 + log10(count)) * log10(1 + N/df), count being the count
    of the term in the document. In exact arithmetic: the cosine
    of two vectors is at most 1; a score returned for more than one
    surviving term is positive; for one surviving term the score is the
    raw weight (1 + log10(count)) * log10(1 + N/df); and that weight is
    strictly increasing in the count. The surviving terms are the terms of
    the processed query that some document holds, repeats included. *)
Theorem tfidf_score_sign_and_raw_weight
        (cm : CorpusManager) (pre : PreprocessingService) (query : str) (top_k : Z) :
  let pt := processed_terms cm in
  let N := length pt in
  (forall log10 self i s,
      In (i, s) (snd (TFIDF64.search log10 self cm pre query top_k)) ->
      let st := TFIDF64._build_index log10 self cm in
      let query_terms := TFIDF64.termos_encontrados st (process_query pre query) in
      let qv := TFIDF64.query_tfidf_values log10 (TFIDF64.idf st) query_terms in
      let dv := TFIDF64.doc_vector (TFIDF64.tf_idf_index st) i query_terms in
      float64.ltb float64.zero (np64.sum dv) = true
      /\ float64.ltb float64.zero s = true
      /\ s = if (length query_terms =? 1)%nat then nth 0 dv float64.zero
             else np64.dot (np64.scale dv (np64.norm dv))
                           (np64.scale qv (np64.norm qv)))
  /\ (forall log10 self i s t,
         TFIDF64_reachable log10 cm self -> tables_wf pt ->
         In (i, s) (snd (TFIDF64.search log10 self cm pre query top_k)) ->
         TFIDF64.termos_encontrados (TFIDF64._build_index log10 self cm)
           (process_query pre query) = [t] ->
         exists count,
           get (get_or pt i []) t = Some count
           /\ (1 <= count)%nat
           /\ (1 <= df_of pt t <= N)%nat
           /\ s = float64.mul
                    (float64.add float64.one (log10 (float64.of_nat count)))
                    (log10 (float64.add float64.one
                              (float64.div (float64.of_nat N)
                                           (float64.of_nat (df_of pt t))))))
  /\ (forall u v : list R,
         0 < np.norm u -> 0 < np.norm v ->
         np.dot (np.scale u (np.norm u)) (np.scale v (np.norm v)) <= 1)
  /\ (forall self r,
         In r (snd (TFIDF.search self cm pre query top_k)) ->
         (1 < length (TFIDF.termos_encontrados (TFIDF._build_index self cm)
                        (process_query pre query)))%nat ->
         0 < schemas.score r)
  /\ (forall self r t,
         TFIDF_reachable cm self -> tables_wf pt ->
         In r (snd (TFIDF.search self cm pre query top_k)) ->
         TFIDF.termos_encontrados (TFIDF._build_index self cm)
           (process_query pre query) = [t] ->
         exists count,
           get (get_or pt (schemas.id r) []) t = Some count
           /\ (1 <= count)%nat
           /\ (1 <= df_of pt t <= N)%nat
           /\ schemas.score r
              = (1 + log10 (INR count)) * log10 (1 + INR N / INR (df_of pt t)))
  /\ (forall d c1 c2,
         (1 <= d <= N)%nat -> (1 <= c1 < c2)%nat ->
         (1 + log10 (INR c1)) * log10 (1 + INR N / INR d)
         < (1 + log10 (INR c2)) * log10 (1 + INR N / INR d))
  /\ (forall self,
         TFIDF_reachable cm self -> tables_wf pt ->
         TFIDF.termos_encontrados (TFIDF._build_index self cm) (process_query pre query)
         = filter (fun t => (1 <=? df_of pt t)%nat) (process_query pre query))
  /\ (forall log10 self,
         TFIDF64_reachable log10 cm self -> tables_wf pt ->
         TFIDF64.termos_encontrados (TFIDF64._build_index log10 self cm)
           (process_query pre query)
         = filter (fun t => (1 <=? df_of pt t)%nat) (process_query pre query)).
Proof.
  intros pt N. split; [|split; [|split; [|split; [|split; [|split; [|split]]]]]].
  - intros log10 self i s Hin st query_terms qv dv.
    apply search64_In, similarities64_In in Hin. cbv zeta in Hin.
    apply similarity64_of_value in Hin. exact Hin.
  - intros log10 self i s t. apply single_term_score64.
  - exact cosine_le_1.
  - intros self r Hr Hlen.
    apply search_results_In in Hr. apply similarities_In in Hr.
    cbv zeta in Hr. destruct Hr as [Hnorm [_ Hsim]].
    assert (E : (length (TFIDF.termos_encontrados (TFIDF._build_index self cm)
                           (process_query pre query)) =? 1)%nat = false)
      by (apply Nat.eqb_neq; lia).
    rewrite E in Hsim.
    unfold id_score in Hsim. simpl in Hsim.
    exact (proj1 (@similarity_of_multi _ _ _ _ Hnorm Hsim)).
  - intros self r t. apply single_term_score.
  - intros d c1 c2. apply raw_weight_increasing.
  - intros self Hreach Hwf. now apply termos_encontrados_spec.
  - intros log10 self Hreach Hwf. now apply termos_encontrados64_spec.
Qed.

(** ** What the two [search] methods return over a consistent corpus *)

Lemma index_keys_reachable (cm : CorpusManager) :
  wf (processed_terms cm) ->
  subseq (keys (TFIDF.tf_idf_index (TFIDF._build_index TFIDF.init cm)))
         (keys (processed_terms cm))
  /\ NoDup (keys (TFIDF.tf_idf_index (TFIDF._build_index TFIDF.init cm))).
Proof.
  intro Hwf. unfold TFIDF._build_index. simpl.
  destruct (length (processed_terms cm) =? 0)%nat; simpl.
  - split; [apply subseq_nil_l | constructor].
  - rewrite index_keys by assumption. split; [apply subseq_refl | exact Hwf].
Qed.

Lemma index_keys_built (cm : CorpusManager) :
  wf (processed_terms cm) ->
  keys (TFIDF.tf_idf_index (TFIDF._build_index TFIDF.init cm))
  = keys (processed_terms cm).
Proof.
  intro Hwf. unfold TFIDF._build_index. simpl.
  destruct (length (processed_terms cm) =? 0)%nat eqn:E; simpl.
  - apply Nat.eqb_eq in E. destruct (processed_terms cm); [reflexivity | discriminate].
  - now apply index_keys.
Qed.

Lemma tfidf_search_scores (cm : CorpusManager) (pre : PreprocessingService)
      (query : str) (top_k : Z) (self : TFIDF.Service) :
  corpus_consistent cm -> TFIDF_reachable cm self ->
  map id_score (snd (TFIDF.search self cm pre query top_k))
  = slice_to (TFIDF.sorted_docs (TFIDF._build_index TFIDF.init cm)
                (process_query pre query)) top_k.
Proof.
  intros [[Hwf Htabs] Hdocs] Hreach. unfold TFIDF.search. simpl.
  rewrite (build_index_reachable Hreach).
  set (st := TFIDF._build_index TFIDF.init cm).
  set (all := TFIDF.sorted_docs st (process_query pre query)).
  assert (Hall : NoDup (map fst all)
                 /\ forall i, In i (map fst all) -> In i (keys (processed_terms cm))).
  { unfold all. rewrite sorted_docs_eq. split.
    - apply sort_by_score_keys_NoDup. apply similarities_wf.
    - intros i Hi. apply in_map_iff in Hi as [[j sim] [<- Hin]]. simpl.
      apply (proj1 (sort_by_score_In _ _)) in Hin.
      apply similarities_In in Hin. cbv zeta in Hin. destruct Hin as [_ [Hk _]].
      eapply subseq_In; [apply index_keys_reachable; exact Hwf | exact Hk]. }
  destruct Hall as [Hnd Hin].
  pose proof (subseq_map fst (slice_to_subseq all top_k)) as Hsub.
  apply build_results_complete.
  - eapply subseq_NoDup; eassumption.
  - intros i _ [].
  - intros i Hi. apply Hdocs, Hin. eapply subseq_In; eassumption.
Qed.

Lemma sorted_keys_perm (cm : CorpusManager) :
  Permutation (keys (processed_terms cm)) (BM25.sorted_ids cm).
Proof. apply sorted_perm. Qed.

Lemma prepare_corpus_empty (cm : CorpusManager) :
  fst (BM25._prepare_corpus cm) = [] <-> processed_terms cm = [].
Proof.
  unfold BM25._prepare_corpus. simpl. split; intro H.
  - apply map_eq_nil in H.
    pose proof (sorted_keys_perm cm) as P. rewrite H in P.
    apply Permutation_sym, Permutation_nil in P.
    destruct (processed_terms cm); [reflexivity | discriminate].
  - unfold BM25.sorted_ids. now rewrite H.
Qed.

(** The service after a BM25 search, and the index its scores come from. *)
Lemma bm25_search_reachable (cm : CorpusManager) (pre : PreprocessingService)
      (query : str) (k1 b : R) (top_k : Z) (self : BM25.Service) :
  BM25_reachable cm self ->
  process_query pre query <> [] ->
  processed_terms cm <> [] ->
  let index := rank_bm25.new (fst (BM25._prepare_corpus cm)) k1 b in
  let self' := BM25.mkService (Some index) (BM25.sorted_ids cm) true in
  BM25.search self cm pre query k1 b top_k
  = (self',
     build_results cm (process_query pre query) query []
       (slice_to (BM25.ranked self' index (process_query pre query)) top_k)).
Proof.
  intros Hreach Hq Hpt index self'.
  assert (Hc : fst (BM25._prepare_corpus cm) <> []).
  { intro H. apply prepare_corpus_empty in H. contradiction. }
  assert (Hbuilt : exists k1' b',
             BM25._build_index self cm
             = BM25.mkService
                 (Some (rank_bm25.new (fst (BM25._prepare_corpus cm)) k1' b'))
                 (BM25.sorted_ids cm) true).
  { destruct Hreach as [-> | [k1' [b' ->]]].
    - exists (12 / 10), (75 / 100). unfold BM25._build_index. simpl.
      unfold BM25._prepare_corpus in *. simpl in *.
      destruct (map _ (BM25.sorted_ids cm)); [contradiction | reflexivity].
    - now exists k1', b'. }
  destruct Hbuilt as [k1' [b' Hbuilt]].
  unfold BM25.search. rewrite Hbuilt. simpl BM25.bm25_index. cbv iota beta.
  destruct (process_query pre query) as [|t ts] eqn:Eq; [contradiction|].
  unfold BM25.refresh. simpl rank_bm25.k1. simpl rank_bm25.b.
  destruct (negb (Reqb k1 k1') || negb (Reqb b b')) eqn:E.
  - reflexivity.
  - apply orb_false_iff in E as [E1 E2].
    apply negb_false_iff in E1, E2. apply Reqb_true in E1, E2. subst k1' b'.
    reflexivity.
Qed.

Lemma doc_scores_keys (ids : list str) (scores : list R) :
  subseq (map fst (BM25.doc_scores ids scores)) ids.
Proof.
  unfold BM25.doc_scores.
  eapply subseq_trans; [apply subseq_map, subseq_filter|].
  revert scores. induction ids as [|i ids IH]; intros [|s scores]; simpl.
  - constructor.
  - constructor.
  - apply subseq_nil_l.
  - apply subseq_keep, IH.
Qed.

Lemma bm25_search_scores (cm : CorpusManager) (pre : PreprocessingService)
      (query : str) (k1 b : R) (top_k : Z) (self : BM25.Service) :
  corpus_consistent cm -> BM25_reachable cm self ->
  process_query pre query <> [] ->
  processed_terms cm <> [] ->
  let index := rank_bm25.new (fst (BM25._prepare_corpus cm)) k1 b in
  let self' := BM25.mkService (Some index) (BM25.sorted_ids cm) true in
  map id_score (snd (BM25.search self cm pre query k1 b top_k))
  = slice_to (BM25.ranked self' index (process_query pre query)) top_k.
Proof.
  intros [[Hwf Htabs] Hdocs] Hreach Hq Hpt index self'.
  rewrite (@bm25_search_reachable cm pre query k1 b top_k self Hreach Hq Hpt).
  simpl snd.
  fold index. fold self'.
  set (all := BM25.ranked self' index (process_query pre query)).
  assert (Hsub : subseq (map fst (BM25.doc_scores (BM25.sorted_ids cm)
                     (rank_bm25.get_scores index (process_query pre query))))
                   (BM25.sorted_ids cm)) by apply doc_scores_keys.
  assert (Hids : NoDup (BM25.sorted_ids cm)).
  { eapply Permutation_NoDup; [apply sorted_keys_perm | exact Hwf]. }
  assert (Hall : NoDup (map fst all)
                 /\ forall i, In i (map fst all) -> In i (keys (processed_terms cm))).
  { unfold all, BM25.ranked. simpl BM25.doc_ids. split.
    - apply sort_by_score_keys_NoDup. eapply subseq_NoDup; eassumption.
    - intros i Hi. apply in_map_iff in Hi as [[j sim] [<- Hin]]. simpl.
      apply (proj1 (sort_by_score_In _ _)) in Hin.
      apply (in_map fst) in Hin. simpl in Hin.
      eapply subseq_In in Hin; [|exact Hsub].
      eapply Permutation_in; [symmetry; apply sorted_keys_perm | exact Hin]. }
  destruct Hall as [Hnd Hin].
  pose proof (subseq_map fst (slice_to_subseq all top_k)) as Hs.
  apply build_results_complete.
  - eapply subseq_NoDup; eassumption.
  - intros i _ [].
  - intros i Hi. apply Hdocs, Hin. eapply subseq_In; eassumption.
Qed.

(** ** The sample corpus of two documents, evaluated *)

Import Examples.

Ltac nodup_strings :=
  repeat (constructor; [cbv; intuition discriminate|]); constructor.

Lemma corpus2_consistent : corpus_consistent corpus2.
Proof.
  split; [split|].
  - unfold wf. simpl. nodup_strings.
  - simpl. constructor; [|constructor; [|constructor]]; unfold wf; simpl; nodup_strings.
  - simpl. intros i H. exact H.
Qed.

Lemma corpus2_index : TFIDF._build_index TFIDF.init corpus2 = index2.
Proof. reflexivity. Qed.

Lemma norm_diag (a : R) : 0 < a -> np.norm [a; a] = a * sqrt 2.
Proof.
  intro H. unfold np.norm, np.sum. simpl.
  replace (a * a + (a * a + 0)) with ((a * a) * 2) by ring.
  rewrite sqrt_mult by nra. rewrite sqrt_square by lra. reflexivity.
Qed.

Lemma sqrt2_pos : 0 < sqrt 2.
Proof. apply sqrt_lt_R0. lra. Qed.

(** Two vectors with equal coordinates point the same way. *)
Lemma cosine_diag (a q : R) :
  0 < a -> 0 < q ->
  np.dot (np.scale [a; a] (np.norm [a; a])) (np.scale [q; q] (np.norm [q; q])) = 1.
Proof.
  intros Ha Hq. rewrite !norm_diag by assumption. simpl.
  pose proof sqrt2_pos as H2.
  assert (Hs : sqrt 2 * sqrt 2 = 2) by (apply sqrt_sqrt; lra).
  replace (a / (a * sqrt 2)) with (/ sqrt 2) by (field; lra).
  replace (q / (q * sqrt 2)) with (/ sqrt 2) by (field; lra).
  rewrite <- Rinv_mult, Hs. lra.
Qed.

Lemma similarity_of_diag (a q : R) :
  0 < a -> 0 < q ->
  TFIDF.similarity_of false 2 (np.scale [q; q] (np.norm [q; q])) [a; a] = Some 1.
Proof.
  intros Ha Hq. unfold TFIDF.similarity_of.
  change (negb (length [a; a] =? 2)%nat) with false. cbv iota.
  assert (E1 : Rltb 0 (np.sum [a; a]) = true).
  { apply Rltb_true. unfold np.sum. simpl. lra. }
  rewrite E1.
  assert (E2 : Rltb 0 (np.norm [a; a]) = true).
  { apply Rltb_true. rewrite norm_diag by assumption.
    apply Rmult_lt_0_compat; [assumption | apply sqrt2_pos]. }
  rewrite E2. rewrite cosine_diag by assumption.
  assert (E3 : Rltb 0 1 = true) by (apply Rltb_true; lra).
  now rewrite E3.
Qed.

Lemma similarity_of_one (qvn : list R) (a : R) :
  0 < a -> TFIDF.similarity_of true 1 qvn [a] = Some a.
Proof.
  intro Ha. unfold TFIDF.similarity_of.
  change (negb (length [a] =? 1)%nat) with false. cbv iota.
  assert (E1 : Rltb 0 (np.sum [a]) = true).
  { apply Rltb_true. unfold np.sum. simpl. lra. }
  rewrite E1. simpl.
  assert (E3 : Rltb 0 a = true) by (now apply Rltb_true).
  now rewrite E3.
Qed.

Lemma idf2_gato : TFIDF.idf_value 2 2 = log10 2.
Proof. unfold TFIDF.idf_value. simpl. f_equal. field. Qed.

Lemma log10_2_pos : 0 < log10 2.
Proof. apply log10_pos. lra. Qed.

Lemma log10_2_lt_1 : log10 2 < 1.
Proof.
  unfold log10. pose proof ln_10_pos as H.
  apply Rmult_lt_reg_r with (r := ln 10); [assumption|].
  unfold Rdiv. rewrite Rmult_assoc, Rinv_l, Rmult_1_r, Rmult_1_l by lra.
  apply ln_increasing; lra.
Qed.

Lemma w1_value : w1 = (1 + log10 2) * log10 2.
Proof.
  unfold w1, TFIDF.weight. change (get_or idf2 gato 0) with (TFIDF.idf_value 2 2).
  rewrite idf2_gato. unfold TFIDF.tf_value. simpl.
  replace (1 + 1) with 2 by ring. reflexivity.
Qed.

Lemma w2_value : w2 = log10 2.
Proof.
  unfold w2, TFIDF.weight. change (get_or idf2 gato 0) with (TFIDF.idf_value 2 2).
  rewrite idf2_gato. unfold TFIDF.tf_value. simpl. rewrite log10_1. ring.
Qed.

Lemma w1_pos : 0 < w1.
Proof. rewrite w1_value. pose proof log10_2_pos. nra. Qed.

Lemma w2_pos : 0 < w2.
Proof. rewrite w2_value. apply log10_2_pos. Qed.

Lemma w2_lt_w1 : w2 < w1.
Proof. rewrite w1_value, w2_value. pose proof log10_2_pos. nra. Qed.

Lemma corpus2_similarities_twice :
  TFIDF.similarities index2 [gato; gato] = [(lit "doc_1", 1); (lit "doc_2", 1)].
Proof.
  unfold TFIDF.similarities.
  set (q := TFIDF.query_tfidf_value idf2 (TFIDF.query_term_freq [gato; gato]) gato).
  change (TFIDF.query_tfidf_values (TFIDF.idf index2) [gato; gato]) with [q; q].
  assert (Hq : 0 < q).
  { unfold q, TFIDF.query_tfidf_value.
    change (get_or (TFIDF.query_term_freq [gato; gato]) gato 0%nat) with 2%nat.
    change (get_or idf2 gato 0) with (TFIDF.idf_value 2 2).
    change (if (0 <? 2)%nat then 1 + log10 (INR 2) else 0) with (TFIDF.tf_value 2).
    apply Rmult_lt_0_compat; [|rewrite idf2_gato; apply log10_2_pos].
    assert (1 <= TFIDF.tf_value 2) by (apply tf_value_pos; lia). lra. }
  change (length [q; q] =? 0)%nat with false.
  assert (E1 : Reqb (np.sum [q; q]) 0 = false).
  { apply Reqb_false. unfold np.sum. simpl. lra. }
  rewrite E1.
  assert (E2 : Rltb 0 (np.norm [q; q]) = true).
  { apply Rltb_true. rewrite norm_diag by assumption.
    apply Rmult_lt_0_compat; [assumption | apply sqrt2_pos]. }
  rewrite E2. cbv [orb].
  change (keys (TFIDF.tf_idf_index index2)) with [lit "doc_1"; lit "doc_2"].
  cbn [fold_left].
  change (TFIDF.doc_vector (TFIDF.tf_idf_index index2) (lit "doc_1") [gato; gato])
    with [w1; w1].
  change (TFIDF.doc_vector (TFIDF.tf_idf_index index2) (lit "doc_2") [gato; gato])
    with [w2; w2].
  change (length [gato; gato] =? 1)%nat with false.
  change (length [q; q]) with 2%nat.
  rewrite !similarity_of_diag by (assumption || apply w1_pos || apply w2_pos).
  reflexivity.
Qed.

Lemma corpus2_similarities_once :
  TFIDF.similarities index2 [gato] = [(lit "doc_1", w1); (lit "doc_2", w2)].
Proof.
  unfold TFIDF.similarities.
  set (q := TFIDF.query_tfidf_value idf2 (TFIDF.query_term_freq [gato]) gato).
  change (TFIDF.query_tfidf_values (TFIDF.idf index2) [gato]) with [q].
  assert (Hq : 0 < q).
  { unfold q, TFIDF.query_tfidf_value.
    change (get_or (TFIDF.query_term_freq [gato]) gato 0%nat) with 1%nat.
    change (get_or idf2 gato 0) with (TFIDF.idf_value 2 2).
    change (if (0 <? 1)%nat then 1 + log10 (INR 1) else 0) with (TFIDF.tf_value 1).
    apply Rmult_lt_0_compat; [|rewrite idf2_gato; apply log10_2_pos].
    assert (1 <= TFIDF.tf_value 1) by (apply tf_value_pos; lia). lra. }
  change (length [q] =? 0)%nat with false.
  assert (E1 : Reqb (np.sum [q]) 0 = false).
  { apply Reqb_false. unfold np.sum. simpl. lra. }
  rewrite E1.
  assert (E2 : Rltb 0 (np.norm [q]) = true).
  { apply Rltb_true. unfold np.norm, np.sum. simpl. apply sqrt_lt_R0. nra. }
  rewrite E2. cbv [orb].
  change (keys (TFIDF.tf_idf_index index2)) with [lit "doc_1"; lit "doc_2"].
  cbn [fold_left].
  change (TFIDF.doc_vector (TFIDF.tf_idf_index index2) (lit "doc_1") [gato]) with [w1].
  change (TFIDF.doc_vector (TFIDF.tf_idf_index index2) (lit "doc_2") [gato]) with [w2].
  change (length [gato] =? 1)%nat with true.
  change (length [q]) with 1%nat.
  rewrite !similarity_of_one by (apply w1_pos || apply w2_pos).
  reflexivity.
Qed.

Lemma sort_two (i j : str) (x y : R) :
  y <= x -> sort_by_score [(i, x); (j, y)] = [(i, x); (j, y)].
Proof.
  intro H. unfold sort_by_score. simpl. unfold higher. simpl.
  assert (E : Rltb x y = false) by (now apply Rltb_false). now rewrite E.
Qed.

(** The query "gato gato" over the sample corpus. *)
Lemma corpus2_search_twice (top_k : Z) :
  map id_score (snd (TFIDF.search TFIDF.init corpus2 plain (lit "gato gato") top_k))
  = slice_to [(lit "doc_1", 1); (lit "doc_2", 1)] top_k.
Proof.
  rewrite tfidf_search_scores by (apply corpus2_consistent || now left).
  rewrite corpus2_index, sorted_docs_eq.
  change (TFIDF.termos_encontrados index2 (process_query plain (lit "gato gato")))
    with [gato; gato].
  rewrite corpus2_similarities_twice, sort_two by lra. reflexivity.
Qed.

(** The query "gato" over the sample corpus. *)
Lemma corpus2_search_once (top_k : Z) :
  map id_score (snd (TFIDF.search TFIDF.init corpus2 plain (lit "gato") top_k))
  = slice_to [(lit "doc_1", w1); (lit "doc_2", w2)] top_k.
Proof.
  rewrite tfidf_search_scores by (apply corpus2_consistent || now left).
  rewrite corpus2_index, sorted_docs_eq.
  change (TFIDF.termos_encontrados index2 (process_query plain (lit "gato")))
    with [gato].
  rewrite corpus2_similarities_once, sort_two; [reflexivity|].
  left. apply w2_lt_w1.
Qed.

Lemma idf_formula_and_positivity_witness :
  get (TFIDF.idf (TFIDF._build_index TFIDF.init corpus2)) gato
  = Some (log10 (1 + INR 2 / INR 2))
  /\ 0 < log10 (1 + INR 2 / INR 2).
Proof.
  destruct (@idf_formula_and_positivity corpus2) as [H [_ [_ Hp]]].
  - simpl. lia.
  - apply corpus2_consistent.
  - split; [exact (H gato) | exact Hp].
Defined.

(** Two distinct surviving terms, one document whose vector is the query
    vector: the score comes out as 1.0000000000000002. *)
Lemma tfidf_score_above_one_counterexample :
  TFIDF64.termos_encontrados (TFIDF64._build_index libm_log10 TFIDF64.init corpus1)
    (process_query plain (lit "gato rato")) = [gato; rato]
  /\ snd (TFIDF64.search libm_log10 TFIDF64.init corpus1 plain (lit "gato rato") 10)
     = [(lit "doc_1", S754_finite false 4503599627370497 (-52))]
  /\ float64.ltb float64.one (S754_finite false 4503599627370497 (-52)) = true.
Proof. repeat split; vm_compute; reflexivity. Qed.

Lemma tfidf_score_sign_and_raw_weight_witness :
  (exists count,
      get (get_or (processed_terms corpus2) (lit "doc_1") []) gato = Some count
      /\ (1 <= count)%nat
      /\ (1 <= df_of (processed_terms corpus2) gato <= 2)%nat
      /\ S754_finite false 7055322133778838 (-54)
         = float64.mul
             (float64.add float64.one (libm_log10 (float64.of_nat count)))
             (libm_log10
                (float64.add float64.one
                   (float64.div (float64.of_nat 2)
                      (float64.of_nat (df_of (processed_terms corpus2) gato))))))
  /\ 0 < schemas.score
          (nth 0 (snd (TFIDF.search TFIDF.init corpus2 plain (lit "gato gato") 10))
               no_result)
  /\ exists count,
       get (get_or (processed_terms corpus2)
              (schemas.id
                 (nth 0 (snd (TFIDF.search TFIDF.init corpus2 plain (lit "gato") 10))
                      no_result)) []) gato = Some count
       /\ (1 <= count)%nat
       /\ (1 <= df_of (processed_terms corpus2) gato <= 2)%nat
       /\ schemas.score
            (nth 0 (snd (TFIDF.search TFIDF.init corpus2 plain (lit "gato") 10))
                 no_result)
          = (1 + log10 (INR count))
            * log10 (1 + INR 2 / INR (df_of (processed_terms corpus2) gato)).
Proof.
  pose proof (tfidf_score_sign_and_raw_weight corpus2 plain (lit "gato gato") 10) as T2.
  pose proof (tfidf_score_sign_and_raw_weight corpus2 plain (lit "gato") 10) as T1.
  cbv zeta in T1, T2.
  destruct T1 as [_ [F1 [_ [_ [S1 _]]]]]. destruct T2 as [_ [_ [_ [M2 _]]]].
  split; [|split].
  - apply (F1 libm_log10 TFIDF64.init (lit "doc_1") _ gato).
    + now left.
    + apply corpus2_consistent.
    + vm_compute. now left.
    + vm_compute. reflexivity.
  - apply (M2 TFIDF.init).
    + apply nth_In.
      rewrite <- (length_map id_score), corpus2_search_twice. simpl. lia.
    + simpl. lia.
  - apply (S1 TFIDF.init _ gato).
    + now left.
    + apply corpus2_consistent.
    + apply nth_In.
      rewrite <- (length_map id_score), corpus2_search_once. simpl. lia.
    + reflexivity.
Defined.

(** ** C2: the query vector *)

Lemma count_terms_total (l : list str) (acc : dict nat) (t : str) :
  get_or (fold_left count_term l acc) t 0%nat
  = (get_or acc t 0 + count_str t l)%nat.
Proof.
  revert acc. induction l as [|x l IH]; intro acc; simpl.
  - unfold count_str. simpl. lia.
  - rewrite IH. unfold count_term at 1. unfold get_or at 1. rewrite get_set.
    unfold count_str. simpl. destruct (str_eqb t x) eqn:E.
    + apply str_eqb_eq in E. subst x. simpl. lia.
    + reflexivity.
Qed.

Lemma query_term_freq_count (query_terms : list str) (t : str) :
  get_or (TFIDF.query_term_freq query_terms) t 0%nat = count_str t query_terms.
Proof. unfold TFIDF.query_term_freq. now rewrite count_terms_total. Qed.

Lemma count_str_pos (t : str) (l : list str) : In t l -> (1 <= count_str t l)%nat.
Proof.
  unfold count_str. induction l as [|x l IH]; simpl; [intros []|].
  intros [-> | H].
  - rewrite str_eqb_refl. simpl. lia.
  - destruct (str_eqb t x); simpl; [lia | now apply IH].
Qed.

Lemma count_str_NoDup (t : str) (l : list str) :
  NoDup l -> In t l -> count_str t l = 1%nat.
Proof.
  unfold count_str. induction 1 as [|x l Hx Hnd IH]; simpl; [intros []|].
  intros [-> | H].
  - rewrite str_eqb_refl. simpl. f_equal.
    clear IH Hnd. induction l as [|y l IH]; [reflexivity|]. simpl.
    destruct (str_eqb t y) eqn:E.
    + apply str_eqb_eq in E. subst. exfalso. apply Hx. now left.
    + apply IH. intro Hin. apply Hx. now right.
  - destruct (str_eqb t x) eqn:E; [|now apply IH].
    apply str_eqb_eq in E. subst. contradiction.
Qed.

(** What the code does with the surviving terms: the query vector has one
    coordinate for every surviving term occurrence, in the order of the
    query, and the coordinate of an occurrence of t is
    (1 + log10(count of t among the surviving terms)) * idf(t); when the
    surviving terms are pairwise distinct that is one coordinate idf(t) per
    distinct term; and a stored similarity is the raw weight of the term
    exactly when the list of surviving terms has length 1, the cosine
    otherwise. *)
Lemma query_vector_per_occurrence (self : TFIDF.Service) (processed : list str) :
  let query_terms := TFIDF.termos_encontrados self processed in
  let query_vector := TFIDF.query_tfidf_values (TFIDF.idf self) query_terms in
  query_vector
  = map (fun t => (1 + log10 (INR (count_str t query_terms)))
                  * get_or (TFIDF.idf self) t 0) query_terms
  /\ length query_vector = length query_terms
  /\ (NoDup query_terms ->
      query_vector = map (fun t => get_or (TFIDF.idf self) t 0) query_terms)
  /\ (forall i sim,
         In (i, sim) (TFIDF.similarities self query_terms) ->
         let doc_vector := TFIDF.doc_vector (TFIDF.tf_idf_index self) i query_terms in
         sim = if (length query_terms =? 1)%nat
               then get_or (get_or (TFIDF.tf_idf_index self) i []) (hd [] query_terms) 0
               else np.dot (np.scale doc_vector (np.norm doc_vector))
                           (np.scale query_vector (np.norm query_vector))).
Proof.
  intros query_terms query_vector.
  assert (Hvec : query_vector
                 = map (fun t => (1 + log10 (INR (count_str t query_terms)))
                                 * get_or (TFIDF.idf self) t 0) query_terms).
  { unfold query_vector, TFIDF.query_tfidf_values. apply map_ext_in.
    intros t Ht. unfold TFIDF.query_tfidf_value. rewrite query_term_freq_count.
    pose proof (count_str_pos t query_terms Ht) as Hc.
    assert (E : (0 <? count_str t query_terms)%nat = true)
      by (apply Nat.ltb_lt; lia).
    now rewrite E. }
  split; [exact Hvec|]. split; [|split].
  - unfold query_vector, TFIDF.query_tfidf_values. apply length_map.
  - intro Hnd. rewrite Hvec. apply map_ext_in. intros t Ht.
    rewrite (@count_str_NoDup t query_terms Hnd Ht). simpl. rewrite log10_1. ring.
  - intros i sim Hin doc_vector. apply similarities_In in Hin. cbv zeta in Hin.
    destruct Hin as [_ [_ Hsim]]. fold query_vector in Hsim. fold doc_vector in Hsim.
    destruct (length query_terms =? 1)%nat eqn:E.
    + apply similarity_of_single in Hsim as [-> _].
      unfold doc_vector, TFIDF.doc_vector.
      destruct query_terms as [|t ts]; [discriminate | reflexivity].
    + unfold TFIDF.similarity_of in Hsim.
      destruct (negb (length doc_vector =? length query_vector)%nat); [discriminate|].
      destruct (Rltb 0 (np.sum doc_vector)); [|discriminate].
      destruct (Rltb 0 (np.norm doc_vector)); [|discriminate].
      destruct (Rltb 0 _); [|discriminate]. now inversion Hsim.
Qed.

(** C2, where the code departs from it: the query "gato gato" and the
    query "gato" over the two-document sample. Their surviving terms are
    the same up to the repeat, but the first has two coordinates and is not
    taken for a single-term query: on doubles both documents score
    1.0000000000000002, where the second query scores them
    0.39164905395343774 and 0.3010299956639812; in exact arithmetic 1 and
    1, against (1 + log10 2) log10 2 and log10 2. *)
Theorem repeated_term_scored_as_multi_term :
  let st := TFIDF64._build_index libm_log10 TFIDF64.init corpus2 in
  let twice := TFIDF64.termos_encontrados st (process_query plain (lit "gato gato")) in
  let once := TFIDF64.termos_encontrados st (process_query plain (lit "gato")) in
  distinct twice = once
  /\ length (TFIDF64.query_tfidf_values libm_log10 (TFIDF64.idf st) twice) = 2%nat
  /\ length (TFIDF64.query_tfidf_values libm_log10 (TFIDF64.idf st) once) = 1%nat
  /\ (length twice =? 1)%nat = false
  /\ (length once =? 1)%nat = true
  /\ snd (TFIDF64.search libm_log10 TFIDF64.init corpus2 plain (lit "gato gato") 10)
     = [(lit "doc_1", S754_finite false 4503599627370497 (-52));
        (lit "doc_2", S754_finite false 4503599627370497 (-52))]
  /\ snd (TFIDF64.search libm_log10 TFIDF64.init corpus2 plain (lit "gato") 10)
     = [(lit "doc_1", S754_finite false 7055322133778838 (-54));
        (lit "doc_2", S754_finite false 5422874305198591 (-54))]
  /\ map id_score (snd (TFIDF.search TFIDF.init corpus2 plain (lit "gato gato") 10))
     = [(lit "doc_1", 1); (lit "doc_2", 1)]
  /\ map id_score (snd (TFIDF.search TFIDF.init corpus2 plain (lit "gato") 10))
     = [(lit "doc_1", (1 + log10 2) * log10 2); (lit "doc_2", log10 2)]
  /\ log10 2 < 1.
Proof.
  cbv zeta. do 7 (split; [vm_compute; reflexivity|]). split; [|split].
  - apply corpus2_search_twice.
  - rewrite corpus2_search_once, w1_value, w2_value. reflexivity.
  - apply log10_2_lt_1.
Qed.

(** ** C4: the shape of the result lists *)

Lemma bm25_search_nothing (cm : CorpusManager) (pre : PreprocessingService)
      (query : str) (k1 b : R) (top_k : Z) (self : BM25.Service) :
  BM25_reachable cm self ->
  process_query pre query = [] \/ processed_terms cm = [] ->
  snd (BM25.search self cm pre query k1 b top_k) = [].
Proof.
  intros Hreach Hempty. unfold BM25.search.
  destruct (BM25.bm25_index (BM25._build_index self cm)) as [index|] eqn:Ei;
    [|reflexivity].
  destruct (process_query pre query) as [|t ts] eqn:Eq; [reflexivity|].
  destruct Hempty as [Hq | Hpt]; [discriminate|].
  assert (Hids : BM25.sorted_ids cm = []).
  { unfold BM25.sorted_ids. now rewrite Hpt. }
  assert (Hdoc : BM25.doc_ids (BM25._build_index self cm) = []).
  { destruct Hreach as [-> | [k1' [b' ->]]].
    - unfold BM25._build_index, BM25._prepare_corpus. simpl. rewrite Hids. reflexivity.
    - simpl. exact Hids. }
  unfold BM25.refresh, BM25._prepare_corpus.
  destruct (negb (Reqb k1 (rank_bm25.k1 index)) || negb (Reqb b (rank_bm25.b index)));
    simpl; unfold BM25.ranked, BM25.doc_scores; simpl BM25.doc_ids;
    rewrite ?Hids, ?Hdoc; simpl;
    unfold slice_to; destruct (0 <=? top_k)%Z; now rewrite firstn_nil.
Qed.

(** C4, as the code has it: for 0 <= top_k each scorer returns at most
    min(top_k, number of documents with a score > 0) results, sorted
    descending by score, without a repeated identifier; results with equal
    scores keep the document order of the scorer, which is the load order
    (the order of [processed_terms]) for TF-IDF and the lexicographic order
    of the identifiers ([sorted]) for BM25. *)
Theorem result_lists_shape
        (cm : CorpusManager) (pre : PreprocessingService) (query : str)
        (k1 b : R) (top_k : Z) (tfidf_self : TFIDF.Service) (bm25_self : BM25.Service) :
  tables_wf (processed_terms cm) ->
  TFIDF_reachable cm tfidf_self ->
  BM25_reachable cm bm25_self ->
  let processed := process_query pre query in
  let st := TFIDF._build_index TFIDF.init cm in
  let tfidf_positive :=
    length (TFIDF.similarities st (TFIDF.termos_encontrados st processed)) in
  let bm25_positive :=
    length (BM25.doc_scores (BM25.sorted_ids cm)
              (rank_bm25.get_scores
                 (rank_bm25.new (fst (BM25._prepare_corpus cm)) k1 b) processed)) in
  let tfidf_results := snd (TFIDF.search tfidf_self cm pre query top_k) in
  let bm25_results := snd (BM25.search bm25_self cm pre query k1 b top_k) in
  (((0 <= top_k)%Z ->
    (length tfidf_results <= Nat.min (Z.to_nat top_k) tfidf_positive)%nat)
   /\ descending (map id_score tfidf_results)
   /\ NoDup (map schemas.id tfidf_results)
   /\ (forall r1 r2, precedes tfidf_results r1 r2 ->
                     schemas.score r1 = schemas.score r2 ->
                     precedes (keys (processed_terms cm))
                              (schemas.id r1) (schemas.id r2)))
  /\ (((0 <= top_k)%Z ->
       (length bm25_results <= Nat.min (Z.to_nat top_k) bm25_positive)%nat)
      /\ descending (map id_score bm25_results)
      /\ NoDup (map schemas.id bm25_results)
      /\ (forall r1 r2, precedes bm25_results r1 r2 ->
                        schemas.score r1 = schemas.score r2 ->
                        precedes (Py.sorted str_ltb (keys (processed_terms cm)))
                                 (schemas.id r1) (schemas.id r2))).
Proof.
  intros [Hwf Htabs] Ht Hb processed st tfidf_positive bm25_positive
         tfidf_results bm25_results.
  split.
  - unfold tfidf_results, TFIDF.search. simpl snd.
    rewrite (build_index_reachable Ht). fold st. fold processed.
    rewrite sorted_docs_eq.
    set (scored := TFIDF.similarities st (TFIDF.termos_encontrados st processed)).
    destruct (ranked_results cm (TFIDF.termos_encontrados st processed) query scored top_k)
      as [H1 [H2 [H3 H4]]].
    split; [exact H1|]. split; [exact H2|]. split; [exact H3|].
    intros r1 r2 Hp Heq. specialize (H4 r1 r2 Hp Heq).
    apply (precedes_map fst) in H4. simpl in H4.
    rewrite <- (index_keys_built cm Hwf). fold st.
    eapply subseq_precedes; [|exact H4].
    apply similarities_keys. unfold st. now apply index_keys_reachable.
  - destruct (list_eq_dec (list_eq_dec ascii_dec) processed []) as [Hq | Hq].
    { assert (E : bm25_results = []).
      { apply bm25_search_nothing; [assumption | now left]. }
      rewrite E. simpl. repeat split; try constructor; try lia.
      intros r1 r2 [[|? ?] [? [? X]]]; discriminate. }
    destruct (processed_terms cm) as [|e pt] eqn:Ept.
    { assert (E : bm25_results = []).
      { apply bm25_search_nothing; [assumption | now right]. }
      rewrite E. simpl. repeat split; try constructor; try lia.
      intros r1 r2 [[|? ?] [? [? X]]]; discriminate. }
    assert (Hpt : processed_terms cm <> []) by (rewrite Ept; discriminate).
    rewrite <- Ept in *.
    unfold bm25_results.
    rewrite (@bm25_search_reachable cm pre query k1 b top_k bm25_self Hb Hq Hpt).
    simpl snd. fold processed. unfold BM25.ranked. simpl BM25.doc_ids.
    set (scored := BM25.doc_scores (BM25.sorted_ids cm)
                     (rank_bm25.get_scores
                        (rank_bm25.new (fst (BM25._prepare_corpus cm)) k1 b) processed)).
    destruct (ranked_results cm processed query scored top_k) as [H1 [H2 [H3 H4]]].
    split; [exact H1|]. split; [exact H2|]. split; [exact H3|].
    intros r1 r2 Hp Heq. specialize (H4 r1 r2 Hp Heq).
    apply (precedes_map fst) in H4. simpl in H4.
    eapply subseq_precedes; [|exact H4]. apply doc_scores_keys.
Qed.

(** ** The sample corpus of ten documents under BM25 *)

Lemma corpus10_consistent : corpus_consistent corpus10.
Proof.
  split; [split|].
  - unfold wf. simpl. nodup_strings.
  - simpl. repeat (constructor; [unfold wf; simpl; nodup_strings|]). constructor.
  - simpl. intros i H. exact H.
Qed.

Lemma term_score_absent (self : rank_bm25.BM25Okapi) (doc : dict nat) (dl : nat)
      (q : str) :
  get_or doc q 0%nat = 0%nat -> rank_bm25.term_score self doc dl q = 0.
Proof.
  intro H. unfold rank_bm25.term_score. rewrite H. simpl. unfold Rdiv.
  rewrite !Rmult_0_l. apply Rmult_0_r.
Qed.

Lemma raw_idf_10_2_pos : 0 < rank_bm25.raw_idf 10 2.
Proof.
  unfold rank_bm25.raw_idf.
  assert (ln (INR 2 + 5 / 10) < ln (INR (10 - 2) + 5 / 10)); [|lra].
  apply ln_increasing; simpl; lra.
Qed.

Lemma corpus10_rato_score :
  0 < rank_bm25.term_score index10 table_rato 1 rato.
Proof.
  unfold rank_bm25.term_score.
  change (get_or (rank_bm25.idf index10) rato 0)
    with (if Rltb (rank_bm25.raw_idf 10 2) 0
          then rank_bm25.epsilon index10 * rank_bm25.average_idf index10
          else rank_bm25.raw_idf 10 2).
  assert (E : Rltb (rank_bm25.raw_idf 10 2) 0 = false).
  { apply Rltb_false. left. apply raw_idf_10_2_pos. }
  rewrite E.
  change (rank_bm25.avgdl index10) with (INR 10 / INR 10).
  change (rank_bm25.k1 index10) with (12 / 10).
  change (rank_bm25.b index10) with (75 / 100).
  change (get_or table_rato rato 0%nat) with 1%nat.
  replace (INR 10 / INR 10) with 1 by (simpl; field).
  simpl INR.
  replace (1 * (12 / 10 + 1) / (1 + 12 / 10 * (1 - 75 / 100 + 75 / 100 * 1 / 1)))
    with 1 by field.
  rewrite Rmult_1_r. apply raw_idf_10_2_pos.
Qed.

(** BM25 over the ten documents, query "rato", default parameters. *)
Lemma corpus10_bm25_search (top_k : Z) :
  map id_score
      (snd (BM25.search BM25.init corpus10 plain (lit "rato") (12 / 10) (75 / 100) top_k))
  = slice_to [(lit "doc_10", 0 + rank_bm25.term_score index10 table_rato 1 rato);
              (lit "doc_2", 0 + rank_bm25.term_score index10 table_rato 1 rato)]
             top_k.
Proof.
  rewrite bm25_search_scores;
    [|apply corpus10_consistent|now left|discriminate|discriminate].
  fold index10. f_equal.
  unfold BM25.ranked. simpl BM25.doc_ids.
  change (process_query plain (lit "rato")) with [rato].
  unfold rank_bm25.get_scores.
  change (combine (rank_bm25.doc_freqs index10) (rank_bm25.doc_len index10))
    with [(table_gato, 1%nat); (table_rato, 1%nat); (table_rato, 1%nat);
          (table_gato, 1%nat); (table_gato, 1%nat); (table_gato, 1%nat);
          (table_gato, 1%nat); (table_gato, 1%nat); (table_gato, 1%nat);
          (table_gato, 1%nat)].
  change (BM25.sorted_ids corpus10)
    with (map lit ["doc_1"; "doc_10"; "doc_2"; "doc_3"; "doc_4"; "doc_5";
                   "doc_6"; "doc_7"; "doc_8"; "doc_9"]%string).
  cbn [map combine fold_left fst snd].
  rewrite (@term_score_absent index10 table_gato 1 rato) by reflexivity.
  set (s := 0 + rank_bm25.term_score index10 table_rato 1 rato).
  assert (Hs : Rltb 0 s = true).
  { apply Rltb_true. unfold s. pose proof corpus10_rato_score. lra. }
  assert (Hz : Rltb 0 (0 + 0) = false) by (apply Rltb_false; lra).
  unfold BM25.doc_scores. cbn [combine filter snd]. rewrite Hs, Hz.
  apply sort_two. lra.
Qed.

Lemma result_lists_shape_witness :
  descending
    (map id_score (snd (TFIDF.search TFIDF.init corpus2 plain (lit "gato") 10)))
  /\ NoDup
       (map schemas.id
            (snd (BM25.search BM25.init corpus2 plain (lit "gato") (12 / 10) (75 / 100) 10))).
Proof.
  destruct (@result_lists_shape corpus2 plain (lit "gato") (12 / 10) (75 / 100) 10
              TFIDF.init BM25.init) as [[_ [H1 _]] [_ [_ [H2 _]]]].
  - apply corpus2_consistent.
  - now left.
  - now left.
  - split; [exact H1 | exact H2].
Defined.

Lemma tie_order_counterexample :
  keys (processed_terms corpus10)
  = map lit ["doc_1"; "doc_2"; "doc_3"; "doc_4"; "doc_5";
             "doc_6"; "doc_7"; "doc_8"; "doc_9"; "doc_10"]%string
  /\ (exists s,
         0 < s
         /\ map id_score
                (snd (BM25.search BM25.init corpus10 plain (lit "rato")
                                  (12 / 10) (75 / 100) 10))
            = [(lit "doc_10", s); (lit "doc_2", s)])
  /\ (Z.of_nat (length (snd (TFIDF.search TFIDF.init corpus2 plain (lit "gato") (-1))))
      > Z.min (-1)
              (Z.of_nat (length (TFIDF.similarities
                                   (TFIDF._build_index TFIDF.init corpus2) [gato]))))%Z.
Proof.
  split; [reflexivity|]. split.
  - exists (0 + rank_bm25.term_score index10 table_rato 1 rato). split.
    + pose proof corpus10_rato_score. lra.
    + rewrite corpus10_bm25_search. reflexivity.
  - rewrite <- (length_map id_score), corpus2_search_once.
    rewrite corpus2_index, corpus2_similarities_once. simpl. lia.
Qed.

(** ** C7: the parameters of the BM25 index *)

(** C7: when [BM25Service.search] is called with a non-empty processed
    query and an index exists after [_build_index], the scores are read from
    an index whose (k1, b) are the requested ones: when they differ from
    those of the cached index the index is rebuilt from the term tables with
    the requested values, when they are equal the cached index is used and
    the service is unchanged; and over a reachable service the index used is
    always the one built from the tables with the requested (k1, b). *)
Theorem bm25_index_has_requested_parameters
        (cm : CorpusManager) (pre : PreprocessingService) (query : str)
        (k1 b : R) (top_k : Z) (self : BM25.Service) (cached : rank_bm25.BM25Okapi) :
  process_query pre query <> [] ->
  BM25.bm25_index (BM25._build_index self cm) = Some cached ->
  let query_terms := process_query pre query in
  let out := BM25.search self cm pre query k1 b top_k in
  exists used,
    BM25.bm25_index (fst out) = Some used
    /\ rank_bm25.k1 used = k1
    /\ rank_bm25.b used = b
    /\ snd out
       = build_results cm query_terms query []
           (slice_to
              (sort_by_score
                 (BM25.doc_scores (BM25.doc_ids (fst out))
                    (rank_bm25.get_scores used query_terms))) top_k)
    /\ (k1 <> rank_bm25.k1 cached \/ b <> rank_bm25.b cached ->
        used = rank_bm25.new (fst (BM25._prepare_corpus cm)) k1 b
        /\ BM25.doc_ids (fst out) = snd (BM25._prepare_corpus cm))
    /\ (k1 = rank_bm25.k1 cached /\ b = rank_bm25.b cached ->
        used = cached /\ fst out = BM25._build_index self cm)
    /\ (BM25_reachable cm self ->
        used = rank_bm25.new (fst (BM25._prepare_corpus cm)) k1 b).
Proof.
  intros Hq Hcached query_terms out. unfold out, BM25.search. rewrite Hcached.
  fold query_terms. destruct query_terms as [|t ts] eqn:Eq; [contradiction|].
  unfold BM25.refresh.
  destruct (negb (Reqb k1 (rank_bm25.k1 cached)) || negb (Reqb b (rank_bm25.b cached)))
    eqn:E.
  - exists (rank_bm25.new (fst (BM25._prepare_corpus cm)) k1 b). simpl.
    split; [reflexivity|]. split; [reflexivity|]. split; [reflexivity|].
    split; [reflexivity|]. split; [intros _; now split|]. split; [|reflexivity].
    intros [H1 H2]. apply orb_true_iff in E as [E | E];
      apply negb_true_iff, Reqb_false in E; contradiction.
  - apply orb_false_iff in E as [E1 E2].
    apply negb_false_iff, Reqb_true in E1. apply negb_false_iff, Reqb_true in E2.
    exists cached. simpl. split; [exact Hcached|].
    split; [now symmetry|]. split; [now symmetry|]. split; [reflexivity|].
    split; [intros [H | H]; contradiction|]. split; [now split|].
    intros [-> | [k1' [b' ->]]].
    + unfold BM25._build_index in Hcached. simpl in Hcached.
      destruct (fst (BM25._prepare_corpus cm)) eqn:Ec;
        unfold BM25._prepare_corpus in *; simpl in *; rewrite Ec in Hcached;
        simpl in Hcached; [discriminate|].
      inversion Hcached; subst cached. simpl in E1, E2. rewrite Ec. now subst.
    + simpl in Hcached. inversion Hcached; subst cached. simpl in E1, E2. now subst.
Qed.

Lemma bm25_index_has_requested_parameters_witness :
  exists used,
    BM25.bm25_index
      (fst (BM25.search BM25.init corpus10 plain (lit "rato") 2 (1 / 2) 10))
    = Some used
    /\ rank_bm25.k1 used = 2
    /\ rank_bm25.b used = 1 / 2.
Proof.
  destruct (@bm25_index_has_requested_parameters corpus10 plain (lit "rato")
              2 (1 / 2) 10 BM25.init index10) as [used [H1 [H2 [H3 _]]]].
  - discriminate.
  - reflexivity.
  - exists used. split; [exact H1 | split; [exact H2 | exact H3]].
Defined.

(** ** C5: a query that normalises to nothing *)

Lemma process_query_empty_string (pre : PreprocessingService) :
  process_query pre [] = [].
Proof.
  unfold process_query. simpl.
  destruct (if use_spacy pre then nlp pre else None); reflexivity.
Qed.

Lemma process_query_all_discarded (pre : PreprocessingService) (query : str) :
  (if use_spacy pre then nlp pre else None) = None ->
  Forall (fun termo => (length (normalize_term termo) <= 2)%nat
                       \/ mem (normalize_term termo) (stopwords pre) = true)
         (split (lower query)) ->
  process_query pre query = [].
Proof.
  intros Hrule Hall. unfold process_query. rewrite Hrule.
  induction Hall as [|termo l H _ IH]; simpl; [reflexivity|].
  rewrite IH, app_nil_r. unfold stem_term.
  destruct H as [H | H].
  - assert (E : (2 <? length (normalize_term termo))%nat = false)
      by (apply Nat.ltb_ge; lia).
    now rewrite E.
  - rewrite H. now rewrite andb_false_r.
Qed.

(** C5: when the query normalises to the empty term sequence,
    [SearchService.search] returns two empty result lists, tfidfTime = 0 and
    bm25Time = 0, preprocessTime >= 0 for a clock that does not run
    backwards, calls neither scorer and leaves the service as it was; the
    empty string normalises to nothing under either strategy, and so does,
    under the rule-based strategy, a query all of whose tokens are
    stopwords or have at most two letters. *)
Theorem empty_query_short_circuit
        (self : SearchService.Service) (perf_counter : nat -> R)
        (query : str) (k1 b : R) (top_k : option Z) :
  (process_query (SearchService.preprocessing self) query = [] ->
   perf_counter 1%nat <= perf_counter 2%nat ->
   let out := SearchService.search self perf_counter query k1 b top_k in
   let response := snd (fst out) in
   SearchService.tfidf response = []
   /\ SearchService.bm25 response = []
   /\ schemas.tfidfTime (SearchService.metrics response) = 0
   /\ schemas.bm25Time (SearchService.metrics response) = 0
   /\ 0 <= schemas.preprocessTime (SearchService.metrics response)
   /\ snd out = []
   /\ fst (fst out) = self)
  /\ process_query (SearchService.preprocessing self) [] = []
  /\ ((if use_spacy (SearchService.preprocessing self)
       then nlp (SearchService.preprocessing self) else None) = None ->
      Forall (fun termo =>
                (length (normalize_term termo) <= 2)%nat
                \/ mem (normalize_term termo)
                       (stopwords (SearchService.preprocessing self)) = true)
             (split (lower query)) ->
      process_query (SearchService.preprocessing self) query = []).
Proof.
  split; [|split].
  - intros Hq Hclock. unfold SearchService.search. rewrite Hq. simpl.
    repeat split; try reflexivity. nra.
  - apply process_query_empty_string.
  - apply process_query_all_discarded.
Qed.

Lemma empty_query_short_circuit_witness :
  let out := SearchService.search service2 ticking (lit "para o") (12 / 10) (75 / 100) None in
  SearchService.tfidf (snd (fst out)) = []
  /\ SearchService.bm25 (snd (fst out)) = []
  /\ schemas.tfidfTime (SearchService.metrics (snd (fst out))) = 0
  /\ schemas.bm25Time (SearchService.metrics (snd (fst out))) = 0
  /\ 0 <= schemas.preprocessTime (SearchService.metrics (snd (fst out)))
  /\ snd out = []
  /\ fst (fst out) = service2.
Proof.
  apply (proj1 (@empty_query_short_circuit service2 ticking (lit "para o")
                  (12 / 10) (75 / 100) None)).
  - reflexivity.
  - unfold ticking. simpl. lra.
Defined.

(** ** C6: documents and queries are not normalised alike *)

(** C6 fails on the code. [process_text] cleans the text with [clean_text],
    which turns every character outside the alphabet into a space, before it
    splits; [process_query] splits the raw query and only then deletes such
    characters with [normalize_term]. The word "guarda-chuva" is indexed as
    the two terms of "guarda" and "chuva" and queried as the one term of
    "guardachuva", whatever the stemmer. Under the spaCy strategy
    [process_text] also drops the words of [self.stopwords], which
    [process_query] keeps. *)
Theorem document_and_query_normalisation_differ (stem : str -> str) :
  let rule_based := mkPreprocessing false None (Some stem) [] [] in
  let rich := mkPreprocessing true (Some whitespace_model) None [lit "casa"] [] in
  process_text rule_based (lit "guarda-chuva")
  = count_term (count_term [] (stem (lit "guarda"))) (stem (lit "chuva"))
  /\ process_query rule_based (lit "guarda-chuva") = [stem (lit "guardachuva")]
  /\ process_text plain (lit "guarda-chuva")
     = [(lit "guarda", 1%nat); (lit "chuva", 1%nat)]
  /\ process_query plain (lit "guarda-chuva") = [lit "guardachuva"]
  /\ process_text rich (lit "casa") = []
  /\ process_query rich (lit "casa") = [lit "casa"].
Proof. cbv zeta. repeat split; reflexivity. Qed.

(** ** C10: the default [top_k] *)

Lemma doc_scores_no_query (ids : list str) (docs : list (dict nat * nat)) :
  BM25.doc_scores ids (map (fun _ => 0) docs) = [].
Proof.
  unfold BM25.doc_scores. revert docs.
  induction ids as [|i ids IH]; intros [|d docs]; simpl; try reflexivity.
  assert (E : Rltb 0 0 = false) by (apply Rltb_false; lra).
  rewrite E. apply IH.
Qed.

Lemma keys_length_le_documents (cm : CorpusManager) :
  corpus_consistent cm ->
  (length (keys (processed_terms cm)) <= length (documents cm))%nat.
Proof.
  intros [[Hwf _] Hdocs]. rewrite <- (length_map doc_id (documents cm)).
  apply NoDup_incl_length; [exact Hwf | exact Hdocs].
Qed.

Lemma sorted_docs_length (cm : CorpusManager) (processed : list str) :
  corpus_consistent cm ->
  (length (TFIDF.sorted_docs (TFIDF._build_index TFIDF.init cm) processed)
   <= length (documents cm))%nat.
Proof.
  intro Hc. pose proof (keys_length_le_documents Hc) as Hlen.
  destruct Hc as [[Hwf _] _].
  rewrite sorted_docs_eq, sort_by_score_length.
  rewrite <- (length_map fst). fold (keys (TFIDF.similarities
    (TFIDF._build_index TFIDF.init cm)
    (TFIDF.termos_encontrados (TFIDF._build_index TFIDF.init cm) processed))).
  destruct (index_keys_reachable cm Hwf) as [Hsub Hnd].
  pose proof (subseq_length (@similarities_keys (TFIDF._build_index TFIDF.init cm)
    (TFIDF.termos_encontrados (TFIDF._build_index TFIDF.init cm) processed) Hnd)) as H1.
  pose proof (subseq_length Hsub) as H2. lia.
Qed.

Lemma bm25_ranked_length (cm : CorpusManager) (index : rank_bm25.BM25Okapi)
      (query_terms : list str) :
  corpus_consistent cm ->
  (length (sort_by_score
             (BM25.doc_scores (BM25.sorted_ids cm)
                (rank_bm25.get_scores index query_terms)))
   <= length (documents cm))%nat.
Proof.
  intro Hc. pose proof (keys_length_le_documents Hc) as Hlen.
  rewrite sort_by_score_length. rewrite <- (length_map fst).
  pose proof (subseq_length (doc_scores_keys (BM25.sorted_ids cm)
                (rank_bm25.get_scores index query_terms))) as H1.
  pose proof (Permutation_length (sorted_keys_perm cm)) as H2. lia.
Qed.

(** C10: with [top_k = None] the orchestrator calls both scorers with the
    number of documents of the corpus as [top_k], and over a consistent
    corpus each model then returns every document with a score > 0: the
    whole sorted list, not a prefix of it. *)
Theorem default_top_k_returns_all
        (self : SearchService.Service) (perf_counter : nat -> R)
        (query : str) (k1 b : R) :
  let cm := SearchService.corpus_manager self in
  let pre := SearchService.preprocessing self in
  corpus_consistent cm ->
  TFIDF_reachable cm (SearchService.tfidf_service self) ->
  BM25_reachable cm (SearchService.bm25_service self) ->
  let out := SearchService.search self perf_counter query k1 b None in
  let response := snd (fst out) in
  let N := Z.of_nat (length (documents cm)) in
  (process_query pre query <> [] ->
   snd out = [SearchService.tfidf_search query N; SearchService.bm25_search query k1 b N])
  /\ map id_score (SearchService.tfidf response)
     = TFIDF.sorted_docs (TFIDF._build_index TFIDF.init cm) (process_query pre query)
  /\ map id_score (SearchService.bm25 response)
     = sort_by_score
         (BM25.doc_scores (BM25.sorted_ids cm)
            (rank_bm25.get_scores
               (rank_bm25.new (fst (BM25._prepare_corpus cm)) k1 b)
               (process_query pre query))).
Proof.
  intros cm pre Hc Ht Hb out response N.
  unfold response, out, SearchService.search. fold cm. fold pre.
  destruct (process_query pre query) as [|t ts] eqn:Eq.
  - simpl. split; [intro H; contradiction|]. split; [reflexivity|].
    unfold rank_bm25.get_scores. simpl. now rewrite doc_scores_no_query.
  - unfold get_all_documents. fold N.
    destruct (TFIDF.search (SearchService.tfidf_service self) cm pre query N)
      as [tfidf' tfidf_results] eqn:Et.
    destruct (BM25.search (SearchService.bm25_service self) cm pre query k1 b N)
      as [bm25' bm25_results] eqn:Eb.
    cbn [fst snd SearchService.tfidf SearchService.bm25].
    split; [reflexivity|]. split.
    + change tfidf_results with (snd (tfidf', tfidf_results)). rewrite <- Et.
      rewrite tfidf_search_scores by assumption. rewrite Eq.
      apply slice_to_all. unfold N. apply inj_le.
      now apply sorted_docs_length.
    + change bm25_results with (snd (bm25', bm25_results)). rewrite <- Eb.
      destruct (processed_terms cm) as [|e pt] eqn:Ept.
      * rewrite bm25_search_nothing by (assumption || now right).
        unfold BM25.sorted_ids. rewrite Ept. reflexivity.
      * assert (Hpt : processed_terms cm <> []) by (rewrite Ept; discriminate).
        assert (Hq : process_query pre query <> []) by (rewrite Eq; discriminate).
        rewrite (@bm25_search_scores cm pre query k1 b N _ Hc Hb Hq Hpt).
        unfold BM25.ranked. simpl BM25.doc_ids. rewrite Eq.
        apply slice_to_all. unfold N. apply inj_le.
        now apply bm25_ranked_length.
Qed.

Lemma default_top_k_returns_all_witness :
  map id_score
      (SearchService.tfidf
         (snd (fst (SearchService.search service2 ticking (lit "gato")
                                         (12 / 10) (75 / 100) None))))
  = TFIDF.sorted_docs (TFIDF._build_index TFIDF.init corpus2)
      (process_query (SearchService.preprocessing service2) (lit "gato")).
Proof.
  destruct (@default_top_k_returns_all service2 ticking (lit "gato") (12 / 10) (75 / 100))
    as [_ [H _]].
  - apply corpus2_consistent.
  - now left.
  - now left.
  - exact H.
Defined.

(** ** Characters *)

Ltac each_ascii c :=
  destruct c as [[] [] [] [] [] [] [] []]; vm_compute; intro; (reflexivity || discriminate).

Lemma isspace_not_word (c : ascii) : isspace c = true -> is_word c = false.
Proof. each_ascii c. Qed.

Lemma start_stop_not_word (c : ascii) :
  text_processing.start_stop c = true -> is_word c = false.
Proof. each_ascii c. Qed.

Lemma end_stop_not_word (c : ascii) :
  text_processing.end_stop c = true -> is_word c = false.
Proof. each_ascii c. Qed.

Lemma space_not_word : is_word space = false.
Proof. reflexivity. Qed.

(** ** Cutting a text without splitting a word *)

Lemma cuts_word_0 (text : str) : cuts_word text 0 = false.
Proof. reflexivity. Qed.

Lemma cuts_word_end (text : str) (p : nat) :
  (length text <= p)%nat -> cuts_word text p = false.
Proof.
  intro H. destruct p as [|q]; [reflexivity|]. unfold cuts_word.
  assert (E : nth_error text (S q) = None) by (now apply nth_error_None).
  rewrite E. destruct (nth_error text q); reflexivity.
Qed.

Lemma cuts_word_after (text : str) (q : nat) (c : ascii) :
  nth_error text q = Some c -> is_word c = false -> cuts_word text (S q) = false.
Proof.
  intros H Hc. unfold cuts_word. rewrite H.
  destruct (nth_error text (S q)); [now rewrite Hc | reflexivity].
Qed.

Lemma cuts_word_before (text : str) (p : nat) (c : ascii) :
  nth_error text p = Some c -> is_word c = false -> cuts_word text p = false.
Proof.
  intros H Hc. destruct p as [|q]; [reflexivity|]. unfold cuts_word. rewrite H.
  destruct (nth_error text q); [|reflexivity]. rewrite Hc. apply andb_false_r.
Qed.

Lemma lstrip_spec (p : ascii -> bool) (l : str) :
  exists n, drop_while p l = skipn n l /\ (n <= length l)%nat
            /\ Forall (fun c => p c = true) (firstn n l).
Proof.
  induction l as [|x l IH]; simpl.
  - exists 0%nat. repeat split; [lia | constructor].
  - destruct (p x) eqn:E.
    + destruct IH as [n [H1 [H2 H3]]]. exists (S n). simpl.
      repeat split; [assumption | lia | now constructor].
    + exists 0%nat. simpl. repeat split; [lia | constructor].
Qed.

Lemma rstrip_spec (p : ascii -> bool) (m : str) :
  exists k, rev (drop_while p (rev m)) = firstn k m /\ (k <= length m)%nat
            /\ Forall (fun c => p c = true) (skipn k m).
Proof.
  induction m as [|x m IH] using rev_ind.
  - exists 0%nat. simpl. repeat split; [lia | constructor].
  - rewrite rev_app_distr. simpl. destruct (p x) eqn:E.
    + destruct IH as [k [H1 [H2 H3]]]. exists k. rewrite H1.
      rewrite firstn_app. replace (k - length m)%nat with 0%nat by lia.
      simpl. rewrite app_nil_r. rewrite length_app. simpl.
      repeat split; [lia|].
      rewrite skipn_app. replace (k - length m)%nat with 0%nat by lia. simpl.
      apply Forall_app. split; [assumption | now repeat constructor].
    + exists (length (m ++ [x])). simpl. rewrite rev_involutive.
      rewrite firstn_all, skipn_all. repeat split; [lia | constructor].
Qed.

Lemma Forall_nth_error (A : Type) (P : A -> Prop) (l : list A) (i : nat) (x : A) :
  Forall P l -> nth_error l i = Some x -> P x.
Proof.
  intros H Hx. rewrite Forall_forall in H. apply H. eapply nth_error_In; eauto.
Qed.

(** [strip] of a slice is a slice again, and the new ends split no word
    when the old ones did not; [E] is what else may hold of the old end. *)
Lemma strip_slice_unsplit (text : str) (start end_ : nat) (E : Prop) :
  cuts_word text start = false ->
  cuts_word text end_ = false \/ E ->
  exists s e,
    (s <= e <= length text)%nat
    /\ strip (slice text start end_) = slice text s e
    /\ cuts_word text s = false
    /\ (cuts_word text e = false \/ (E /\ e = end_)).
Proof.
  intros Hstart Hend. unfold strip.
  set (m := slice text start end_).
  destruct (lstrip_spec isspace m) as [n [Hn1 [Hn2 Hn3]]]. rewrite Hn1.
  destruct (rstrip_spec isspace (skipn n m)) as [k [Hk1 [Hk2 Hk3]]]. rewrite Hk1.
  destruct k as [|k'].
  { exists 0%nat, 0%nat. simpl. unfold slice. simpl.
    split; [lia|]. split; [reflexivity|]. split; [reflexivity | now left]. }
  set (k := S k') in *.
  assert (Hm : skipn n m = firstn (end_ - start - n) (skipn (n + start) text)).
  { unfold m, slice. now rewrite skipn_firstn_comm, skipn_skipn. }
  assert (Hlen : length (skipn n m)
                 = Nat.min (end_ - start - n) (length text - (n + start))).
  { rewrite Hm, length_firstn, length_skipn. reflexivity. }
  assert (Hk : (k <= end_ - start - n)%nat /\ (k <= length text - (n + start))%nat)
    by (rewrite Hlen in Hk2; lia).
  destruct Hk as [Hka Hkb].
  exists (start + n)%nat, (start + n + k)%nat.
  split; [unfold k in *; lia|]. split.
  - rewrite Hm, firstn_firstn. unfold slice.
    replace (Nat.min k (end_ - start - n)) with k by lia.
    replace (start + n + k - (start + n))%nat with k by lia.
    now rewrite (Nat.add_comm n start).
  - split.
    + destruct n as [|n'].
      * now rewrite Nat.add_0_r.
      * assert (Hc : exists c, nth_error text (start + n') = Some c
                               /\ isspace c = true).
        { assert (Hin : (start + n' < length text)%nat) by (unfold k in *; lia).
          destruct (nth_error text (start + n')) as [c|] eqn:Ec;
            [|apply nth_error_None in Ec; lia].
          exists c. split; [reflexivity|].
          apply (@Forall_nth_error _ (fun c => isspace c = true)
                   (firstn (S n') m) n' c Hn3).
          rewrite nth_error_firstn.
          assert (L : (n' <? S n')%nat = true) by (apply Nat.ltb_lt; lia).
          rewrite L. unfold m, slice.
          rewrite nth_error_firstn, nth_error_skipn.
          assert (L' : (n' <? end_ - start)%nat = true)
            by (apply Nat.ltb_lt; unfold k in *; lia).
          now rewrite L'. }
        destruct Hc as [c [Hc1 Hc2]].
        replace (start + S n')%nat with (S (start + n')) by lia.
        eapply cuts_word_after; [exact Hc1 | now apply isspace_not_word].
    + destruct (Nat.eq_dec k (length (skipn n m))) as [Hfull | Hpart].
      * rewrite Hlen in Hfull.
        destruct (Nat.le_gt_cases (end_ - start - n) (length text - (n + start)))
          as [Hle | Hgt].
        -- assert (Ee : (start + n + k = end_)%nat) by lia. rewrite Ee.
           destruct Hend as [Hend | Hend]; [now left | right; now split].
        -- left. apply cuts_word_end. lia.
      * left.
        assert (Hlt : (k < length (skipn n m))%nat) by lia.
        destruct (nth_error (skipn n m) k) as [c|] eqn:Ec;
          [|apply nth_error_None in Ec; lia].
        assert (Hsp : isspace c = true).
        { apply (@Forall_nth_error _ (fun c => isspace c = true)
                   (skipn k (skipn n m)) 0 c Hk3).
          rewrite nth_error_skipn. now rewrite Nat.add_0_r. }
        rewrite Hm, nth_error_firstn, nth_error_skipn in Ec.
        destruct (k <? end_ - start - n)%nat; [|discriminate].
        apply cuts_word_before with c; [|now apply isspace_not_word].
        rewrite <- Ec. f_equal. lia.
Qed.

Lemma retreat_spec (text : str) (d : nat) :
  text_processing.retreat text d = 0%nat
  \/ text_processing.start_stop
       (text_processing.char_at text (text_processing.retreat text d)) = true.
Proof.
  induction d as [|d IH]; [now left|].
  cbn [text_processing.retreat].
  destruct (text_processing.start_stop (text_processing.char_at text (S d))) eqn:E.
  - right. exact E.
  - exact IH.
Qed.

Lemma cuts_word_after_stop (text : str) (r : nat) (stop : ascii -> bool) :
  (forall c, stop c = true -> is_word c = false) ->
  stop (text_processing.char_at text r) = true ->
  cuts_word text (S r) = false.
Proof.
  intros Hstop H. unfold text_processing.char_at in H.
  destruct (nth_error text r) as [c|] eqn:E.
  - apply cuts_word_after with c; [exact E|]. apply Hstop.
    now rewrite (nth_error_nth text r space E) in H.
  - apply cuts_word_end. apply nth_error_None in E. lia.
Qed.

Lemma adjust_start_unsplit (text : str) (d : nat) :
  cuts_word text (text_processing.adjust_start text d) = false.
Proof.
  unfold text_processing.adjust_start.
  destruct (0 <? d)%nat eqn:Ed.
  - destruct (retreat_spec text d) as [H | H].
    + rewrite H. reflexivity.
    + destruct (0 <? text_processing.retreat text d)%nat eqn:Er.
      * eapply cuts_word_after_stop; [apply start_stop_not_word | exact H].
      * apply Nat.ltb_ge in Er.
        replace (text_processing.retreat text d) with 0%nat by lia. reflexivity.
  - apply Nat.ltb_ge in Ed. replace d with 0%nat by lia. reflexivity.
Qed.

Lemma run_length_spec (stop : ascii -> bool) (s : str) :
  text_processing.run_length stop s = length s
  \/ exists c, nth_error s (text_processing.run_length stop s) = Some c
               /\ stop c = true.
Proof.
  induction s as [|x s IH]; simpl; [now left|].
  destruct (stop x) eqn:E.
  - right. exists x. now split.
  - destruct IH as [IH | IH]; [left; now f_equal | right; exact IH].
Qed.

Lemma adjust_end_unsplit (text : str) (d : nat) :
  cuts_word text (text_processing.adjust_end text d) = false.
Proof.
  unfold text_processing.adjust_end, text_processing.advance.
  destruct (d <? length text)%nat eqn:Ed; [|apply cuts_word_end; now apply Nat.ltb_ge].
  set (n := text_processing.run_length text_processing.end_stop (skipn d text)).
  destruct (d + n <? length text)%nat eqn:En;
    [|apply cuts_word_end; now apply Nat.ltb_ge].
  apply Nat.ltb_lt in Ed, En.
  destruct (run_length_spec text_processing.end_stop (skipn d text)) as [H | [c [H1 H2]]].
  - fold n in H. rewrite length_skipn in H. lia.
  - fold n in H1. rewrite nth_error_skipn in H1.
    apply cuts_word_after with c; [exact H1 | now apply end_stop_not_word].
Qed.

Lemma find_in_spec (c : ascii) (s : str) (pos : nat) :
  match find_in c s pos with
  | Some p => (pos <= p)%nat /\ nth_error s (p - pos) = Some c
              /\ forall q, (pos <= q < p)%nat -> nth_error s (q - pos) <> Some c
  | None => forall q, nth_error s q <> Some c
  end.
Proof.
  revert pos. induction s as [|x s IH]; intro pos; simpl.
  - intros [|q]; discriminate.
  - destruct (chr_eqb x c) eqn:E.
    + apply chr_eqb_eq in E. subst x. rewrite Nat.sub_diag. simpl.
      split; [lia|]. split; [reflexivity|]. intros q Hq. lia.
    + specialize (IH (S pos)). destruct (find_in c s (S pos)) as [p|].
      * destruct IH as [H1 [H2 H3]]. split; [lia|]. split.
        -- replace (p - pos)%nat with (S (p - S pos)) by lia. exact H2.
        -- intros q Hq. destruct (Nat.eq_dec q pos) as [-> | Hne].
           ++ rewrite Nat.sub_diag. simpl. intro H. inversion H; subst.
              rewrite (proj2 (chr_eqb_eq c c) eq_refl) in E. discriminate.
           ++ replace (q - pos)%nat with (S (q - S pos)) by lia. simpl.
              apply H3. lia.
      * intros [|q]; simpl.
        -- intro H. inversion H; subst.
           rewrite (proj2 (chr_eqb_eq c c) eq_refl) in E. discriminate.
        -- apply IH.
Qed.

(** [text.find(c, start)]: the first index at or after [start] that holds
    [c], and -1 (here [None]) only when there is none. *)
Lemma find_spec (text : str) (c : ascii) (start : nat) :
  (forall p, find text c start = Some p ->
             (start <= p)%nat /\ nth_error text p = Some c
             /\ forall q, (start <= q < p)%nat -> nth_error text q <> Some c)
  /\ (find text c start = None ->
      forall q, (start <= q)%nat -> nth_error text q <> Some c).
Proof.
  unfold find. pose proof (find_in_spec c (skipn start text) start) as H.
  destruct (find_in c (skipn start text) start) as [p'|]; split.
  - intros p Hp. inversion Hp; subst p'. destruct H as [H1 [H2 H3]].
    rewrite nth_error_skipn in H2. replace (start + (p - start))%nat with p in H2 by lia.
    split; [exact H1|]. split; [exact H2|]. intros q Hq.
    specialize (H3 q Hq). rewrite nth_error_skipn in H3.
    now replace (start + (q - start))%nat with q in H3 by lia.
  - discriminate.
  - discriminate.
  - intros _ q Hq. specialize (H (q - start)%nat).
    rewrite nth_error_skipn in H.
    now replace (start + (q - start))%nat with q in H by lia.
Qed.

Lemma extract_snippet_cases (text : str) (terms : list str) (context_length : nat)
      (original_query : option str) :
  text_processing.extract_snippet text terms context_length original_query
  = match snippet_match text terms original_query with
    | Some m =>
        let found := text_processing.locate text original_query in
        let '(start, end_) :=
          text_processing.window text context_length m
                                 (text_processing.best_pos found) in
        let snippet := strip (slice text start end_) in
        let snippet :=
          if (0 <? start)%nat then text_processing.ellipsis ++ snippet else snippet in
        let snippet :=
          if (end_ <? length text)%nat
          then snippet ++ text_processing.ellipsis else snippet in
        (snippet,
         distinct (map lower (filter (fun w => negb (str_eqb w []))
                                     (text_processing.matched_words found))))
    | None => text_processing.head_of_text text context_length
    end.
Proof.
  unfold text_processing.extract_snippet, snippet_match.
  destruct text as [|c text]; [reflexivity|].
  destruct terms as [|t terms]; reflexivity.
Qed.

(** ** C8: the snippet *)

(** C8, as the code has it: the snippet is a slice [text[s:e]] of the
    document text, with "..." in front and behind or not; the slice starts
    between no two word characters, and it ends between no two word
    characters except in one case: no match was found, the text is longer
    than [context_length] and holds no space character at or after
    [context_length], and then the text is cut at [context_length] itself.
    When no match is found the matched words are empty and the text is
    returned whole if it is not longer than [context_length], and otherwise
    cut at the first space character (not any whitespace) at or after
    [context_length], stripped and followed by "...". *)
Theorem snippet_is_a_slice
        (text : str) (terms : list str) (context_length : nat)
        (original_query : option str) :
  let out := text_processing.extract_snippet text terms context_length original_query in
  let matched := snippet_match text terms original_query in
  (exists s e pre suf,
      (s <= e <= length text)%nat
      /\ fst out = pre ++ slice text s e ++ suf
      /\ (pre = [] \/ pre = text_processing.ellipsis)
      /\ (suf = [] \/ suf = text_processing.ellipsis)
      /\ cuts_word text s = false
      /\ (cuts_word text e = false
          \/ (matched = None /\ (context_length < length text)%nat
              /\ find text space context_length = None /\ e = context_length)))
  /\ (matched = None ->
      snd out = []
      /\ ((length text <= context_length)%nat -> fst out = text)
      /\ ((context_length < length text)%nat ->
          (forall p, find text space context_length = Some p ->
                     fst out = strip (firstn p text) ++ text_processing.ellipsis)
          /\ (find text space context_length = None ->
              fst out = strip (firstn context_length text)
                        ++ text_processing.ellipsis)))
  /\ (forall p, find text space context_length = Some p ->
                (context_length <= p)%nat /\ nth_error text p = Some space
                /\ forall q, (context_length <= q < p)%nat ->
                             nth_error text q <> Some space)
  /\ (find text space context_length = None ->
      forall q, (context_length <= q)%nat -> nth_error text q <> Some space).
Proof.
  intros out matched. split; [|split; [|apply find_spec]].
  - unfold out. rewrite extract_snippet_cases. fold matched.
    destruct matched as [m|] eqn:Em.
    + cbv zeta. unfold text_processing.window.
      set (start := text_processing.adjust_start text _).
      set (end_ := text_processing.adjust_end text _).
      destruct (@strip_slice_unsplit text start end_ False) as [s [e [H1 [H2 [H3 H4]]]]].
      { apply adjust_start_unsplit. }
      { left. apply adjust_end_unsplit. }
      exists s, e,
        (if (0 <? start)%nat then text_processing.ellipsis else []),
        (if (end_ <? length text)%nat then text_processing.ellipsis else []).
      split; [exact H1|]. split.
      { simpl fst. rewrite H2.
        destruct (0 <? start)%nat, (end_ <? length text)%nat; simpl;
          rewrite ?app_nil_r, <- ?app_assoc; reflexivity. }
      split; [destruct (0 <? start)%nat; auto|].
      split; [destruct (end_ <? length text)%nat; auto|].
      split; [exact H3|]. destruct H4 as [H4 | [[] _]]. now left.
    + unfold text_processing.head_of_text.
      destruct (context_length <? length text)%nat eqn:El.
      * apply Nat.ltb_lt in El.
        destruct (find text space context_length) as [p|] eqn:Ef.
        -- destruct (proj1 (find_spec text space context_length) p Ef) as [Hp1 [Hp2 _]].
           destruct (@strip_slice_unsplit text 0 p False) as [s [e [H1 [H2 [H3 H4]]]]].
           { reflexivity. }
           { left. eapply cuts_word_before; [exact Hp2 | reflexivity]. }
           exists s, e, [], text_processing.ellipsis.
           split; [exact H1|]. split.
           { simpl. rewrite <- H2. unfold slice. simpl. now rewrite Nat.sub_0_r. }
           split; [now left|]. split; [now right|]. split; [exact H3|].
           destruct H4 as [H4 | [[] _]]. now left.
        -- destruct (@strip_slice_unsplit text 0 context_length True)
             as [s [e [H1 [H2 [H3 H4]]]]].
           { reflexivity. }
           { now right. }
           exists s, e, [], text_processing.ellipsis.
           split; [exact H1|]. split.
           { simpl. rewrite <- H2. unfold slice. simpl. now rewrite Nat.sub_0_r. }
           split; [now left|]. split; [now right|]. split; [exact H3|].
           destruct H4 as [H4 | [_ H4]]; [now left | right]. repeat split; assumption.
      * apply Nat.ltb_ge in El.
        exists 0%nat, (length text), [], []. split; [lia|]. split.
        { simpl. unfold slice. simpl. rewrite Nat.sub_0_r, firstn_all, app_nil_r.
          reflexivity. }
        split; [now left|]. split; [now left|]. split; [reflexivity|].
        left. apply cuts_word_end. lia.
  - intro Hm. unfold out. rewrite extract_snippet_cases. fold matched. rewrite Hm.
    unfold text_processing.head_of_text.
    destruct (context_length <? length text)%nat eqn:El.
    + apply Nat.ltb_lt in El. split; [reflexivity|]. split; [lia|]. intros _. split.
      * intros p Hp. now rewrite Hp.
      * intro Hn. now rewrite Hn.
    + apply Nat.ltb_ge in El. split; [reflexivity|]. split; [reflexivity | lia].
Qed.

Lemma snippet_is_a_slice_witness :
  snd (text_processing.extract_snippet (lit "o rato roeu a roupa do rei de roma")
         [lit "gat"] 6 (Some (lit "gato"))) = []
  /\ fst (text_processing.extract_snippet (lit "o rato roeu a roupa do rei de roma")
            [lit "gat"] 6 (Some (lit "gato")))
     = strip (firstn 6 (lit "o rato roeu a roupa do rei de roma"))
       ++ text_processing.ellipsis.
Proof.
  destruct (proj1 (proj2 (@snippet_is_a_slice
                            (lit "o rato roeu a roupa do rei de roma")
                            [lit "gat"] 6 (Some (lit "gato")))))
    as [H1 [_ H3]].
  - reflexivity.
  - split; [exact H1|].
    apply (proj1 (H3 ltac:(simpl; lia)) 6%nat). reflexivity.
Defined.

Lemma snippet_counterexample :
  text_processing.extract_snippet (lit "abcdefgh") [lit "zzz"] 4 (Some (lit "zzz"))
  = (lit "abcd...", [])
  /\ cuts_word (lit "abcdefgh") 4 = true
  /\ find (lit "abcdefgh") space 4 = None
  /\ text_processing.extract_snippet
       (lit "abcd" ++ [ascii_of_nat 9] ++ lit "efgh ijkl") [lit "zzz"] 4
       (Some (lit "zzz"))
     = (lit "abcd" ++ [ascii_of_nat 9] ++ lit "efgh...", [])
  /\ isspace (ascii_of_nat 9) = true
  /\ nth_error (lit "abcd" ++ [ascii_of_nat 9] ++ lit "efgh ijkl") 4
     = Some (ascii_of_nat 9).
Proof. repeat split; reflexivity. Qed.

(** ** C9: the fuzzy pass *)

Lemma fold_left_flat_map (A B C : Type) (f : A -> C -> A) (g : B -> list C)
      (l : list B) (a : A) :
  fold_left f (flat_map g l) a = fold_left (fun a x => fold_left f (g x) a) l a.
Proof.
  revert a. induction l as [|x l IH]; intro a; simpl; [reflexivity|].
  now rewrite fold_left_app, IH.
Qed.

Lemma fold_left_map (A B C : Type) (f : A -> C -> A) (h : B -> C)
      (l : list B) (a : A) :
  fold_left f (map h l) a = fold_left (fun a x => f a (h x)) l a.
Proof.
  revert a. induction l as [|x l IH]; intro a; simpl; [reflexivity | apply IH].
Qed.

(** The two nested loops as one loop over the candidate pairs. *)
Lemma fuzzy_pass_as_fold (text text_lower : str) (terms : list str) :
  text_processing.fuzzy_pass text text_lower terms
  = fold_left (fun st c => text_processing.fuzzy_word text_lower (fst c) st (snd c))
              (fuzzy_candidates terms (findall_words text_lower))
              (text_processing.mkFuzzy None (7 # 10) (length text)).
Proof.
  unfold text_processing.fuzzy_pass, fuzzy_candidates.
  rewrite fold_left_flat_map.
  generalize (text_processing.mkFuzzy None (7 # 10) (length text)).
  induction terms as [|term terms IH]; intro st; simpl; [reflexivity|].
  rewrite <- IH. f_equal.
  unfold text_processing.fuzzy_term. now rewrite fold_left_map.
Qed.

Lemma fuzzy_word_filtered (text_lower t w : str) (st : text_processing.Fuzzy) :
  passes_filters t w = false -> text_processing.fuzzy_word text_lower t st w = st.
Proof.
  unfold passes_filters, text_processing.fuzzy_word. intro H.
  destruct (length w <? text_processing.min_len_of (length t))%nat eqn:E1;
    [reflexivity|].
  destruct (text_processing.max_len_of (length t) <? length w)%nat eqn:E2;
    [reflexivity|].
  simpl. destruct (text_processing.first_differs t w); [reflexivity|].
  apply Nat.ltb_ge in E1, E2.
  apply Nat.leb_le in E1, E2. rewrite E1, E2 in H. discriminate.
Qed.

Lemma fuzzy_word_passed (text_lower t w : str) (st : text_processing.Fuzzy) :
  passes_filters t w = true ->
  text_processing.fuzzy_word text_lower t st w
  = let similarity := difflib.ratio t w in
    if Qle_bool (text_processing.best_similarity st) similarity
    then match word_search w text_lower with
         | Some pos =>
             if negb (Qle_bool similarity (text_processing.best_similarity st))
                || (Qeq_bool similarity (text_processing.best_similarity st)
                    && (pos <? text_processing.best_fuzzy_pos st)%nat)
             then text_processing.mkFuzzy (Some (pos, w)) similarity pos
             else st
         | None => st
         end
    else st.
Proof.
  unfold passes_filters, text_processing.fuzzy_word. intro H.
  apply andb_true_iff in H as [H H3]. apply andb_true_iff in H as [H1 H2].
  apply Nat.leb_le in H1, H2. apply negb_true_iff in H3.
  assert (E1 : (length w <? text_processing.min_len_of (length t))%nat = false)
    by (apply Nat.ltb_ge; lia).
  assert (E2 : (text_processing.max_len_of (length t) <? length w)%nat = false)
    by (apply Nat.ltb_ge; lia).
  rewrite E1, E2, H3. reflexivity.
Qed.

Lemma fuzzy_inv_step (text_lower : str) (len : nat) (seen : list (str * str))
      (st : text_processing.Fuzzy) (t w : str) :
  fuzzy_inv text_lower len seen st ->
  fuzzy_inv text_lower len (seen ++ [(t, w)])
            (text_processing.fuzzy_word text_lower t st w).
Proof.
  intros [I1 [I2 [I3 I4]]].
  assert (Hkeep : forall (Hnew : forall p,
             passes_filters t w = true -> (7 # 10 <= difflib.ratio t w)%Q ->
             word_search w text_lower = Some p -> (p < len)%nat ->
             text_processing.best_fuzzy_match st <> None
             /\ ((difflib.ratio t w < text_processing.best_similarity st)%Q
                 \/ ((difflib.ratio t w == text_processing.best_similarity st)%Q
                     /\ (text_processing.best_fuzzy_pos st <= p)%nat))),
             fuzzy_inv text_lower len (seen ++ [(t, w)]) st).
  { intro Hnew. split; [exact I1|]. split; [exact I2|]. split.
    - intros pos word Hm. destruct (I3 pos word Hm) as [Hp [t' [Hin Hrest]]].
      split; [exact Hp|]. exists t'. split; [|exact Hrest].
      apply in_or_app. now left.
    - intros t' w' p Hin Hf Hr Hs Hp. apply in_app_or in Hin as [Hin | [Hin | []]].
      + now apply (I4 t' w' p).
      + inversion Hin; subst t' w'. now apply Hnew. }
  destruct (passes_filters t w) eqn:Ef.
  2:{ rewrite fuzzy_word_filtered by exact Ef. apply Hkeep. intros; discriminate. }
  rewrite fuzzy_word_passed by exact Ef. cbv zeta.
  set (sim := difflib.ratio t w) in *.
  set (bs := text_processing.best_similarity st) in *.
  destruct (Qle_bool bs sim) eqn:Ele.
  2:{ apply Hkeep. intros p _ Hr Hs Hp.
      assert (Hlt : (sim < bs)%Q).
      { apply Qnot_le_lt. intro H. apply Qle_bool_iff in H. congruence. }
      split; [|now left].
      intro Hnone. destruct (I2 Hnone) as [Hbs _].
      rewrite Hbs in Hlt. apply Qlt_not_le in Hlt. contradiction. }
  apply Qle_bool_iff in Ele.
  destruct (word_search w text_lower) as [pos|] eqn:Es.
  2:{ apply Hkeep. intros; discriminate. }
  destruct (negb (Qle_bool sim bs)
            || (Qeq_bool sim bs && (pos <? text_processing.best_fuzzy_pos st)%nat))
    eqn:Eupd.
  - assert (Hcase : (bs < sim)%Q
                    \/ ((sim == bs)%Q /\ (pos < text_processing.best_fuzzy_pos st)%nat)).
    { apply orb_true_iff in Eupd as [H | H].
      - left. apply negb_true_iff in H. apply Qnot_le_lt. intro H'.
        apply Qle_bool_iff in H'. congruence.
      - right. apply andb_true_iff in H as [H1 H2].
        apply Qeq_bool_iff in H1. apply Nat.ltb_lt in H2. now split. }
    split; [simpl; now apply Qle_trans with bs|].
    split; [simpl; discriminate|]. split.
    + simpl. intros pos' word H. inversion H; subst pos' word.
      split; [reflexivity|]. exists t. split; [apply in_or_app; right; now left|].
      split; [exact Ef|]. split; [reflexivity | exact Es].
    + simpl. intros t' w' p Hin Hf Hr Hs Hp. split; [discriminate|].
      apply in_app_or in Hin as [Hin | [Hin | []]].
      * destruct (I4 t' w' p Hin Hf Hr Hs Hp) as [_ [Hlt | [Heq Hpos]]].
        -- left. fold bs in Hlt. now apply Qlt_le_trans with bs.
        -- fold bs in Heq. destruct Hcase as [Hlt | [Heq' Hlt]].
           ++ left. now rewrite Heq.
           ++ right. split; [now rewrite Heq, Heq' | lia].
      * inversion Hin; subst t' w'. fold sim. right.
        assert (p = pos) by congruence. subst p. split; [reflexivity | lia].
  - apply Hkeep. intros p _ Hr Hs Hp.
    assert (p = pos) by congruence. subst p.
    apply orb_false_iff in Eupd as [H1 H2].
    apply negb_false_iff in H1. apply Qle_bool_iff in H1.
    assert (Heq : (sim == bs)%Q) by (now apply Qle_antisym).
    assert (Hq : Qeq_bool sim bs = true) by (now apply Qeq_bool_iff).
    rewrite Hq in H2. simpl in H2. apply Nat.ltb_ge in H2.
    split; [|right; now split].
    intro Hnone. destruct (I2 Hnone) as [_ Hlen]. lia.
Qed.

Lemma fuzzy_inv_fold (text_lower : str) (len : nat) (cands seen : list (str * str))
      (st : text_processing.Fuzzy) :
  fuzzy_inv text_lower len seen st ->
  fuzzy_inv text_lower len (seen ++ cands)
            (fold_left (fun st c => text_processing.fuzzy_word text_lower (fst c) st (snd c))
                       cands st).
Proof.
  revert seen st. induction cands as [|[t w] cands IH]; intros seen st H; simpl.
  - now rewrite app_nil_r.
  - replace (seen ++ (t, w) :: cands) with ((seen ++ [(t, w)]) ++ cands)
      by (now rewrite <- app_assoc).
    apply IH. now apply fuzzy_inv_step.
Qed.

Lemma fuzzy_pass_inv (text : str) (terms : list str) :
  fuzzy_inv (lower text) (length text)
            (fuzzy_candidates terms (findall_words (lower text)))
            (text_processing.fuzzy_pass text (lower text) terms).
Proof.
  rewrite fuzzy_pass_as_fold.
  apply (@fuzzy_inv_fold (lower text) (length text) _ []).
  split; [simpl; apply Qle_refl|]. split; [intros _; simpl; split; reflexivity|].
  split; [intros pos word H; discriminate|]. intros t w p [].
Qed.

Lemma findall_words_from_nonempty (cur s : str) :
  Forall (fun w => w <> []) (findall_words_from cur s).
Proof.
  revert cur. induction s as [|c s IH]; intro cur; simpl.
  - destruct cur as [|x cur]; [constructor|]. constructor; [|constructor].
    simpl. intro H. apply app_eq_nil in H as [_ H]. discriminate.
  - destruct (is_word c); [apply IH|].
    destruct cur as [|x cur]; [apply IH|]. constructor; [|apply IH].
    simpl. intro H. apply app_eq_nil in H as [_ H]. discriminate.
Qed.

Lemma word_search_from_lt (pat : str) (prev : option ascii) (s : str) (pos p : nat) :
  pat <> [] -> word_search_from pat prev s pos = Some p ->
  (p < pos + length s)%nat.
Proof.
  intro Hpat. revert prev pos. induction s as [|c s IH]; intros prev pos; simpl.
  - unfold word_match_here. destruct pat as [|x pat]; [contradiction|]. simpl.
    rewrite andb_false_r. discriminate.
  - destruct (word_match_here pat prev (c :: s)).
    + intro H. inversion H. lia.
    + intro H. apply IH in H. lia.
Qed.

Lemma in_fuzzy_candidates (terms words : list str) (t w : str) :
  In (t, w) (fuzzy_candidates terms words)
  <-> exists term, In term terms /\ t = lower term /\ In w words.
Proof.
  unfold fuzzy_candidates. rewrite in_flat_map. split.
  - intros [term [H1 H2]]. apply in_map_iff in H2 as [w' [E H2]].
    inversion E; subst. now exists term.
  - intros [term [H1 [-> H2]]]. exists term. split; [exact H1|].
    apply in_map_iff. now exists w.
Qed.

Lemma below_bound (P : nat -> bool) (k : nat) :
  forallb P (seq 0 k) = true -> forall n, (n < k)%nat -> P n = true.
Proof.
  intros H n Hn. rewrite forallb_forall in H. apply H, in_seq. lia.
Qed.

(** The two bounds of the length filter are the floors of 0.7 n and 1.3 n
    for every length below 90; at 90 the product with the double 0.7 falls
    just short of 63. *)
Lemma length_bounds_below_90 (n : nat) :
  (n < 90)%nat ->
  text_processing.min_len_of n = (n * 7 / 10)%nat
  /\ text_processing.max_len_of n = (n * 13 / 10)%nat.
Proof.
  intro Hn.
  pose proof (@below_bound
                (fun n => (text_processing.min_len_of n =? n * 7 / 10)%nat
                          && (text_processing.max_len_of n =? n * 13 / 10)%nat)
                90 ltac:(vm_compute; reflexivity) n Hn) as H.
  apply andb_true_iff in H as [H1 H2]. now apply Nat.eqb_eq in H1, H2.
Qed.

(** C9, as the code has it: the result of the fuzzy pass is used only when
    the exact pass found no whole-word match; the word it selects is a text
    word compared with some candidate term, of a length between
    int(n * 0.7) and int(n * 1.3) for a candidate of n characters and with
    the candidate's first character, whose similarity ratio is at least
    0.70; whenever some comparison is acceptable a word is selected; the
    selected word has the highest similarity of all acceptable comparisons,
    and the earliest position among those of that similarity; and the two
    bounds, products of doubles, are floor(0.7 n) and floor(1.3 n) below
    n = 90, while int(90 * 0.7) is 62. *)
Theorem fuzzy_pass_selection (text : str) (original_query : option str) :
  let text_lower := lower text in
  let terms := text_processing.original_terms_of original_query in
  let words := findall_words text_lower in
  let e := text_processing.exact_pass text text_lower terms in
  let f := text_processing.fuzzy_pass text text_lower terms in
  (text_processing.best_match e <> None ->
   text_processing.locate text original_query = e)
  /\ (text_processing.best_match e = None ->
      text_processing.best_match (text_processing.locate text original_query)
      = text_processing.best_fuzzy_match f)
  /\ (forall pos word,
         text_processing.best_fuzzy_match f = Some (pos, word) ->
         exists term,
           In term terms /\ In word words
           /\ (text_processing.min_len_of (length (lower term)) <= length word
               <= text_processing.max_len_of (length (lower term)))%nat
           /\ text_processing.first_differs (lower term) word = false
           /\ (difflib.ratio (lower term) word == text_processing.best_similarity f)%Q
           /\ (7 # 10 <= text_processing.best_similarity f)%Q
           /\ word_search word text_lower = Some pos)
  /\ (forall term word p,
         In term terms -> In word words ->
         (text_processing.min_len_of (length (lower term)) <= length word
          <= text_processing.max_len_of (length (lower term)))%nat ->
         text_processing.first_differs (lower term) word = false ->
         (7 # 10 <= difflib.ratio (lower term) word)%Q ->
         word_search word text_lower = Some p ->
         exists pos w,
           text_processing.best_fuzzy_match f = Some (pos, w)
           /\ ((difflib.ratio (lower term) word < text_processing.best_similarity f)%Q
               \/ ((difflib.ratio (lower term) word
                    == text_processing.best_similarity f)%Q
                   /\ (pos <= p)%nat)))
  /\ (forall n, (n < 90)%nat ->
         text_processing.min_len_of n = (n * 7 / 10)%nat
         /\ text_processing.max_len_of n = (n * 13 / 10)%nat)
  /\ text_processing.min_len_of 90 = 62%nat.
Proof.
  intros text_lower terms words e f.
  pose proof (fuzzy_pass_inv text terms) as [I1 [I2 [I3 I4]]].
  fold text_lower in I1, I2, I3, I4. fold words in I3, I4. fold f in I1, I2, I3, I4.
  split; [|split; [|split; [|split; [|split;
    [exact length_bounds_below_90 | vm_compute; reflexivity]]]]].
  - intro H. unfold text_processing.locate. fold text_lower. fold terms. fold e.
    destruct (text_processing.best_match e); [reflexivity | contradiction].
  - intro H. unfold text_processing.locate. fold text_lower. fold terms. fold e.
    rewrite H. fold f.
    destruct (text_processing.best_fuzzy_match f); [reflexivity | exact H].
  - intros pos word Hm. destruct (I3 pos word Hm) as [_ [t [Hin [Hf [Hr Hs]]]]].
    apply in_fuzzy_candidates in Hin as [term [Hterm [-> Hw]]].
    exists term. unfold passes_filters in Hf.
    apply andb_true_iff in Hf as [Hf H3]. apply andb_true_iff in Hf as [H1 H2].
    apply Nat.leb_le in H1, H2. apply negb_true_iff in H3.
    repeat split; assumption.
  - intros term word p Hterm Hword [Hl1 Hl2] Hfirst Hr Hs.
    assert (Hin : In (lower term, word) (fuzzy_candidates terms words)).
    { apply in_fuzzy_candidates. now exists term. }
    assert (Hf : passes_filters (lower term) word = true).
    { unfold passes_filters. rewrite Hfirst.
      apply Nat.leb_le in Hl1, Hl2. now rewrite Hl1, Hl2. }
    assert (Hp : (p < length text)%nat).
    { assert (Hne : word <> []).
      { pose proof (findall_words_from_nonempty [] text_lower) as Hall.
        rewrite Forall_forall in Hall. now apply Hall. }
      pose proof (@word_search_from_lt word None text_lower 0 p Hne Hs) as Hlt.
      unfold text_lower, lower in Hlt. rewrite length_map in Hlt. exact Hlt. }
    destruct (I4 (lower term) word p Hin Hf Hr Hs Hp) as [Hsome Hbest].
    destruct (text_processing.best_fuzzy_match f) as [[pos w]|] eqn:Em;
      [|contradiction].
    exists pos, w. split; [reflexivity|].
    destruct (I3 pos w eq_refl) as [Hpos _]. rewrite Hpos in Hbest. exact Hbest.
Qed.

Lemma fuzzy_pass_selection_witness :
  exists pos w,
    text_processing.best_fuzzy_match
      (text_processing.fuzzy_pass (lit "a gatinha e os gatinhos")
         (lower (lit "a gatinha e os gatinhos"))
         (text_processing.original_terms_of (Some (lit "gatinho"))))
    = Some (pos, w)
    /\ ((difflib.ratio (lower (lit "gatinho")) (lit "gatinha")
         < text_processing.best_similarity
             (text_processing.fuzzy_pass (lit "a gatinha e os gatinhos")
                (lower (lit "a gatinha e os gatinhos"))
                (text_processing.original_terms_of (Some (lit "gatinho")))))%Q
        \/ ((difflib.ratio (lower (lit "gatinho")) (lit "gatinha")
             == text_processing.best_similarity
                  (text_processing.fuzzy_pass (lit "a gatinha e os gatinhos")
                     (lower (lit "a gatinha e os gatinhos"))
                     (text_processing.original_terms_of (Some (lit "gatinho")))))%Q
            /\ (pos <= 2)%nat)).
Proof.
  apply (proj1 (proj2 (proj2 (proj2 (@fuzzy_pass_selection
                                       (lit "a gatinha e os gatinhos")
                                       (Some (lit "gatinho"))))))
               (lit "gatinho") (lit "gatinha") 2%nat).
  - simpl. now left.
  - vm_compute. right. now left.
  - vm_compute. split; lia.
  - reflexivity.
  - vm_compute. discriminate.
  - reflexivity.
Defined.

Lemma fuzzy_pass_counterexample :
  text_processing.best_match
    (text_processing.locate (lit "o re de roma") (Some (lit "rei")))
  = Some (2%nat, lit "re")
  /\ text_processing.match_type
       (text_processing.locate (lit "o re de roma") (Some (lit "rei")))
     = Some text_processing.fuzzy
  /\ (10 * length (lit "re") < 7 * length (lit "rei"))%nat
  /\ text_processing.best_match
       (text_processing.locate (lit "a gatinha e os gatinhos") (Some (lit "gatinho")))
     = Some (15%nat, lit "gatinhos")
  /\ word_search (lit "gatinha") (lit "a gatinha e os gatinhos") = Some 2%nat
  /\ (7 # 10 <= difflib.ratio (lit "gatinho") (lit "gatinha"))%Q.
Proof.
  split; [reflexivity|]. split; [reflexivity|]. split; [simpl; lia|].
  split; [reflexivity|]. split; [reflexivity|]. vm_compute. discriminate.
Qed.

(** ** The reachable states are closed under [search] *)

Lemma tfidf_search_keeps_reachable
      (cm : CorpusManager) (pre : PreprocessingService) (query : str) (top_k : Z)
      (self : TFIDF.Service) :
  TFIDF_reachable cm self ->
  TFIDF_reachable cm (fst (TFIDF.search self cm pre query top_k)).
Proof.
  intro H. unfold TFIDF.search. simpl. right. now apply build_index_reachable.
Qed.

Lemma bm25_build_keeps_reachable (cm : CorpusManager) (self : BM25.Service) :
  BM25_reachable cm self -> BM25_reachable cm (BM25._build_index self cm).
Proof.
  intros [-> | [k1 [b ->]]].
  - unfold BM25._build_index, BM25._prepare_corpus. simpl.
    destruct (map _ (BM25.sorted_ids cm)) as [|d ds] eqn:E.
    + left. apply map_eq_nil in E. now rewrite E.
    + right. exists (12 / 10), (75 / 100). unfold BM25._prepare_corpus. simpl.
      now rewrite E.
  - right. now exists k1, b.
Qed.

Lemma bm25_search_keeps_reachable
      (cm : CorpusManager) (pre : PreprocessingService) (query : str)
      (k1 b : R) (top_k : Z) (self : BM25.Service) :
  BM25_reachable cm self ->
  BM25_reachable cm (fst (BM25.search self cm pre query k1 b top_k)).
Proof.
  intro H. apply bm25_build_keeps_reachable in H. unfold BM25.search.
  destruct (BM25.bm25_index (BM25._build_index self cm)) as [index|] eqn:Ei;
    [|exact H].
  destruct (process_query pre query) as [|t ts]; [exact H|].
  unfold BM25.refresh.
  destruct (negb (Reqb k1 (rank_bm25.k1 index)) || negb (Reqb b (rank_bm25.b index)));
    [|exact H].
  simpl. right. exists k1, b.
  destruct H as [H | [k1' [b' H]]]; rewrite H in *; [discriminate | reflexivity].
Qed.

(** ** Loading keeps the corpus consistent *)

Lemma count_terms_wf (l : list str) (acc : dict nat) :
  wf acc -> wf (fold_left count_term l acc).
Proof.
  revert acc. induction l as [|x l IH]; intros acc H; simpl; [assumption|].
  apply IH. unfold count_term. now apply wf_set.
Qed.

Lemma process_text_wf (pre : PreprocessingService) (text : str) :
  wf (process_text pre text).
Proof.
  unfold process_text.
  destruct (if use_spacy pre then nlp pre else None) as [model|].
  - generalize (model (clean_text text)). intro tokens.
    assert (H : wf (@nil (str * nat))) by constructor. revert H.
    generalize (@nil (str * nat)).
    induction tokens as [|token tokens IH]; intros acc H; simpl; [assumption|].
    apply IH.
    destruct (spacy.is_alpha token && negb (spacy.is_stop token)
              && negb (mem (spacy.text token) (stopwords pre)));
      [unfold count_term; now apply wf_set | assumption].
  - generalize (split (clean_text text)). intro palavras.
    assert (H : wf (@nil (str * nat))) by constructor. revert H.
    generalize (@nil (str * nat)).
    induction palavras as [|palavra palavras IH]; intros acc H; simpl; [assumption|].
    apply IH.
    destruct (stem_term pre (normalize_term palavra));
      [unfold count_term; now apply wf_set | assumption].
Qed.

Lemma In_values_set (V : Type) (d : dict V) (k : str) (v x : V) :
  In x (values (set d k v)) -> x = v \/ In x (values d).
Proof.
  unfold values. intro H. apply in_map_iff in H as [[k' v'] [E H]].
  simpl in E. subst v'. apply In_set in H as [[_ ->] | H]; [now left | right].
  apply in_map_iff. now exists (k', x).
Qed.

Lemma process_pdf_consistent (pre : PreprocessingService) (cm : CorpusManager)
      (i : nat) (pdf_path : PdfFile) :
  corpus_consistent cm -> corpus_consistent (process_pdf pre cm i pdf_path).
Proof.
  intros [[Hwf Htabs] Hdocs]. unfold process_pdf.
  destruct (extract_text pdf_path) as [texto|]; [|now repeat split].
  destruct (strip texto); [now repeat split|].
  split; [split|]; simpl.
  - now apply wf_set.
  - rewrite Forall_forall in *. intros x Hx.
    apply In_values_set in Hx as [-> | Hx]; [apply process_text_wf | now apply Htabs].
  - intros j Hj. rewrite keys_set in Hj. rewrite map_app. apply in_or_app.
    destruct (has (processed_terms cm) (doc_id_of i)).
    + left. now apply Hdocs.
    + apply in_app_or in Hj as [Hj | [<- | []]]; [left; now apply Hdocs | right; now left].
Qed.

(** Every corpus that [_process_pdfs] loads is consistent. *)
Lemma process_pdfs_consistent (pre : PreprocessingService) (pdf_files : list PdfFile) :
  corpus_consistent (_process_pdfs pre pdf_files empty_corpus).
Proof.
  unfold _process_pdfs.
  assert (H : corpus_consistent empty_corpus).
  { split; [split|]; simpl; [constructor | constructor | intros i []]. }
  revert H. generalize empty_corpus. generalize 0%nat.
  induction pdf_files as [|f fs IH]; intros i cm H; simpl; [assumption|].
  apply IH. now apply process_pdf_consistent.
Qed.

(** ** The fuel of the matching-block count is enough *)

Lemma common_prefix_le (popular : ascii -> bool) (a b : str) :
  (difflib.common_prefix popular a b <= length a)%nat.
Proof.
  revert b. induction a as [|x a IH]; intros [|y b]; simpl; try lia.
  destruct (chr_eqb x y && negb (popular y)); [specialize (IH b) |]; lia.
Qed.

Lemma scan_b_bound (popular : ascii -> bool) (i : nat) (a b : str) (j : nat)
      (best : nat * nat * nat) (total : nat) :
  (fst (fst best) + snd best <= total)%nat ->
  (i + length a <= total)%nat ->
  (fst (fst (difflib.scan_b popular i a b j best))
   + snd (difflib.scan_b popular i a b j best) <= total)%nat.
Proof.
  revert j best. induction b as [|y b IH]; intros j best Hbest Hi; simpl.
  - exact Hbest.
  - apply IH; [|exact Hi].
    destruct (snd best <? difflib.common_prefix popular a (y :: b))%nat;
      [|exact Hbest].
    simpl. pose proof (common_prefix_le popular a (y :: b)). lia.
Qed.

Lemma scan_a_bound (popular : ascii -> bool) (a b : str) (i : nat)
      (best : nat * nat * nat) (total : nat) :
  (fst (fst best) + snd best <= total)%nat ->
  (i + length a <= total)%nat ->
  (fst (fst (difflib.scan_a popular a b i best))
   + snd (difflib.scan_a popular a b i best) <= total)%nat.
Proof.
  revert i best. induction a as [|x a IH]; intros i best Hbest Hi; simpl.
  - exact Hbest.
  - apply IH; [|simpl in Hi; lia]. now apply scan_b_bound.
Qed.

(** The match that [find_longest_match] returns lies within [a]. *)
Lemma find_longest_match_bound (popular : ascii -> bool) (a b : str) :
  (fst (fst (difflib.find_longest_match popular a b))
   + snd (difflib.find_longest_match popular a b) <= length a)%nat.
Proof.
  unfold difflib.find_longest_match.
  pose proof (@scan_a_bound popular a b 0 (0, 0, 0)%nat (length a)) as H.
  simpl in H. specialize (H (Nat.le_0_l _) (Nat.le_refl _)).
  destruct (difflib.scan_a popular a b 0 (0, 0, 0)%nat) as [[i j] k].
  simpl in H. simpl.
  pose proof (common_prefix_le (fun _ => false) (rev (firstn i a))
                               (rev (firstn j b))) as Hl.
  pose proof (common_prefix_le (fun _ => false) (skipn (i + k) a)
                               (skipn (j + k) b)) as Hr.
  rewrite length_rev, length_firstn in Hl. rewrite length_skipn in Hr. lia.
Qed.

(** Any fuel above the length of the first sequence gives the same count:
    the recursion of [get_matching_blocks] always ends. *)
Lemma matches_fuel_enough (popular : ascii -> bool) (fuel1 fuel2 : nat) (a b : str) :
  (length a < fuel1)%nat -> (length a < fuel2)%nat ->
  difflib.matches popular fuel1 a b = difflib.matches popular fuel2 a b.
Proof.
  revert fuel2 a b. induction fuel1 as [|fuel1 IH]; intros fuel2 a b H1 H2; [lia|].
  destruct fuel2 as [|fuel2]; [lia|]. simpl.
  pose proof (find_longest_match_bound popular a b) as Hb.
  destruct (difflib.find_longest_match popular a b) as [[i j] k]. simpl in Hb.
  destruct (k =? 0)%nat eqn:Ek; [reflexivity|].
  apply Nat.eqb_neq in Ek.
  rewrite (IH fuel2 (firstn i a) (firstn j b)),
          (IH fuel2 (skipn (i + k) a) (skipn (j + k) b));
    rewrite ?length_firstn, ?length_skipn; try lia.
Qed.

Lemma doc_id_of_samples :
  doc_id_of 0 = lit "doc_1" /\ doc_id_of 9 = lit "doc_10" /\ doc_id_of 122 = lit "doc_123".
Proof. repeat split; reflexivity. Qed.

(* ================================================================== *)
(** * Further properties of the code *)
(* ================================================================== *)

(** ** What the normaliser gives back *)

Ltac all_ascii c :=
  destruct c as [[] [] [] [] [] [] [] []]; vm_compute;
  try reflexivity; try (intro; (reflexivity || discriminate)).

Lemma alphabet_lower (c : ascii) : in_alphabet c = true -> lower_chr c = c.
Proof. all_ascii c. Qed.

Lemma alphabet_not_space (c : ascii) : in_alphabet c = true -> isspace c = false.
Proof. all_ascii c. Qed.

Lemma alphabet_is_word (c : ascii) : in_alphabet c = true -> is_word c = true.
Proof. all_ascii c. Qed.

Lemma isspace_lower (c : ascii) : isspace (lower_chr c) = isspace c.
Proof. all_ascii c. Qed.

Lemma lower_chr_idem (c : ascii) : lower_chr (lower_chr c) = lower_chr c.
Proof. all_ascii c. Qed.

Lemma lower_idem (s : str) : lower (lower s) = lower s.
Proof.
  unfold lower. rewrite map_map. apply map_ext. intro c. apply lower_chr_idem.
Qed.

Lemma map_fixed (A : Type) (f : A -> A) (l : list A) :
  Forall (fun x => f x = x) l -> map f l = l.
Proof. induction 1; simpl; congruence. Qed.

Lemma filter_all (A : Type) (p : A -> bool) (l : list A) :
  Forall (fun x => p x = true) l -> filter p l = l.
Proof.
  induction 1 as [|x l Hx _ IH]; simpl; [reflexivity|]. now rewrite Hx, IH.
Qed.

Lemma filter_none (A : Type) (p : A -> bool) (l : list A) :
  Forall (fun x => p x = false) l -> filter p l = [].
Proof.
  induction 1 as [|x l Hx _ IH]; simpl; [reflexivity|]. now rewrite Hx.
Qed.

Lemma drop_while_head (p : ascii -> bool) (l : str) (c : ascii) (r : str) :
  drop_while p l = c :: r -> p c = false.
Proof.
  induction l as [|x l IH]; simpl; [discriminate|].
  destruct (p x) eqn:E; [assumption|]. intro H. now injection H as <- _.
Qed.

Lemma drop_while_fixed (p : ascii -> bool) (l : str) :
  (forall c r, l = c :: r -> p c = false) -> drop_while p l = l.
Proof.
  destruct l as [|x l]; [reflexivity|]. intro H. simpl.
  now rewrite (H x l eq_refl).
Qed.

(** [strip] takes whitespace off both ends, and nothing else. *)
Lemma strip_spec (s : str) :
  exists a b,
    s = a ++ strip s ++ b
    /\ Forall (fun c => isspace c = true) a
    /\ Forall (fun c => isspace c = true) b.
Proof.
  unfold strip.
  destruct (lstrip_spec isspace s) as [n [Hn1 [Hn2 Hn3]]]. rewrite Hn1.
  destruct (rstrip_spec isspace (skipn n s)) as [k [Hk1 [Hk2 Hk3]]]. rewrite Hk1.
  exists (firstn n s), (skipn k (skipn n s)). repeat split; try assumption.
  now rewrite !firstn_skipn.
Qed.

Lemma strip_head (s : str) (c : ascii) (r : str) :
  strip s = c :: r -> isspace c = false.
Proof.
  unfold strip.
  destruct (rstrip_spec isspace (drop_while isspace s)) as [k [Hk1 _]].
  rewrite Hk1. intro H.
  destruct (drop_while isspace s) as [|x m] eqn:E.
  - now rewrite firstn_nil in H.
  - destruct k; simpl in H; [discriminate|]. injection H as <- _.
    now apply drop_while_head in E.
Qed.

Lemma strip_last (s a : str) (c : ascii) :
  strip s = a ++ [c] -> isspace c = false.
Proof.
  unfold strip. intro H. apply (f_equal (@rev ascii)) in H.
  rewrite rev_involutive, rev_app_distr in H. simpl in H.
  now apply drop_while_head in H.
Qed.

Lemma strip_fixed (s : str) :
  (forall c r, s = c :: r -> isspace c = false) ->
  (forall a c, s = a ++ [c] -> isspace c = false) ->
  strip s = s.
Proof.
  intros Hh Hl. unfold strip. rewrite (@drop_while_fixed isspace s Hh).
  rewrite drop_while_fixed; [apply rev_involutive|].
  intros c r E. apply (Hl (rev r) c).
  apply (f_equal (@rev ascii)) in E. rewrite rev_involutive in E. exact E.
Qed.

Lemma strip_idem (s : str) : strip (strip s) = strip s.
Proof.
  apply strip_fixed; [apply strip_head | intros a c; apply strip_last].
Qed.

Lemma strip_In (s : str) (c : ascii) : In c (strip s) -> In c s.
Proof.
  intro H. destruct (strip_spec s) as [a [b [E _]]]. rewrite E.
  apply in_or_app. right. apply in_or_app. now left.
Qed.

Lemma collapse_single_spaced (b : bool) (s : str) :
  single_spaced b (collapse_spaces b s) = true.
Proof.
  revert b. induction s as [|c s IH]; intro b; [reflexivity|]. simpl.
  destruct (isspace c) eqn:E.
  - destruct b; [apply IH|]. simpl. now rewrite IH.
  - simpl. rewrite E. apply IH.
Qed.

Lemma single_spaced_collapse (b : bool) (s : str) :
  single_spaced b s = true -> collapse_spaces b s = s.
Proof.
  revert b. induction s as [|c s IH]; intro b; [reflexivity|]. simpl.
  destruct (isspace c) eqn:E.
  - destruct b; simpl; [discriminate|].
    intro H. apply andb_prop in H as [Hc H]. apply chr_eqb_eq in Hc. subst c.
    now rewrite (IH true H).
  - intro H. now rewrite (IH false H).
Qed.

Lemma single_spaced_weaken (b : bool) (s : str) :
  single_spaced b s = true -> single_spaced false s = true.
Proof.
  destruct s as [|c s]; [reflexivity|]. simpl.
  destruct (isspace c); [|trivial]. destruct b; simpl; [discriminate | trivial].
Qed.

Lemma single_spaced_skipn (n : nat) (b : bool) (s : str) :
  single_spaced b s = true -> single_spaced false (skipn n s) = true.
Proof.
  revert b s. induction n as [|n IH]; intros b s H; simpl.
  - now apply single_spaced_weaken with b.
  - destruct s as [|c s]; [reflexivity|]. simpl in H.
    destruct (isspace c).
    + apply andb_prop in H as [_ H]. now apply IH with true.
    + now apply IH with false.
Qed.

Lemma single_spaced_firstn (n : nat) (b : bool) (s : str) :
  single_spaced b s = true -> single_spaced b (firstn n s) = true.
Proof.
  revert b s. induction n as [|n IH]; intros b s H; [reflexivity|].
  destruct s as [|c s]; [reflexivity|]. simpl in *.
  destruct (isspace c).
  - apply andb_prop in H as [H1 H]. rewrite H1. simpl. now apply IH.
  - now apply IH.
Qed.

Lemma single_spaced_strip (s : str) :
  single_spaced false s = true -> single_spaced false (strip s) = true.
Proof.
  intro H. unfold strip.
  destruct (lstrip_spec isspace s) as [n [Hn1 _]]. rewrite Hn1.
  destruct (rstrip_spec isspace (skipn n s)) as [k [Hk1 _]]. rewrite Hk1.
  apply single_spaced_firstn. now apply single_spaced_skipn with false.
Qed.

Lemma single_spaced_no_double (b : bool) (a x : str) :
  single_spaced b (a ++ space :: space :: x) = false.
Proof.
  revert b. induction a as [|c a IH]; intro b; simpl.
  - now rewrite andb_false_r.
  - destruct (isspace c); [|apply IH]. rewrite IH. apply andb_false_r.
Qed.

Lemma collapse_Forall (P : ascii -> Prop) (b : bool) (s : str) :
  P space -> Forall P s -> Forall P (collapse_spaces b s).
Proof.
  intros Hs H. revert b. induction H as [|c s Hc _ IH]; intro b; simpl; [constructor|].
  destruct (isspace c); [destruct b|]; auto.
Qed.

(** [clean_text] gives a canonical text: lower-case letters of the
    alphabet and single spaces between the words, none at either end; so
    cleaning a clean text changes nothing. *)
Theorem clean_text_canonical (text : str) :
  Forall (fun c => in_alphabet c = true \/ c = space) (clean_text text)
  /\ (forall a b, clean_text text = a ++ space :: space :: b -> False)
  /\ (forall b, clean_text text = space :: b -> False)
  /\ (forall a, clean_text text = a ++ [space] -> False)
  /\ clean_text (clean_text text) = clean_text text.
Proof.
  set (keep := fun c => if in_alphabet c || chr_eqb c space then c else space).
  assert (Hchars : Forall (fun c => in_alphabet c = true \/ c = space) (clean_text text)).
  { unfold clean_text. fold keep. apply Forall_forall. intros c Hc.
    apply strip_In in Hc. revert c Hc. apply Forall_forall.
    apply collapse_Forall; [now right|]. apply Forall_forall. intros c Hc.
    apply in_map_iff in Hc as [x [<- _]]. unfold keep.
    destruct (in_alphabet x) eqn:E1; simpl; [now left|].
    destruct (chr_eqb x space) eqn:E2; [|now right].
    apply chr_eqb_eq in E2. now right. }
  assert (Hsingle : single_spaced false (clean_text text) = true).
  { unfold clean_text. apply single_spaced_strip, collapse_single_spaced. }
  assert (Hhead : forall c r, clean_text text = c :: r -> isspace c = false).
  { intros c r. unfold clean_text. apply strip_head. }
  assert (Hlast : forall a c, clean_text text = a ++ [c] -> isspace c = false).
  { intros a c. unfold clean_text. apply strip_last. }
  split; [exact Hchars|]. split; [|split; [|split]].
  - intros a b E. rewrite E, single_spaced_no_double in Hsingle. discriminate.
  - intros b E. apply Hhead in E. discriminate.
  - intros a E. apply Hlast in E. discriminate.
  - generalize dependent (clean_text text). intros r Hchars Hsingle Hhead Hlast.
    unfold clean_text. fold keep.
    assert (E1 : lower r = r).
    { apply map_fixed. eapply Forall_impl; [|exact Hchars].
      intros c [Hc | ->]; [now apply alphabet_lower | reflexivity]. }
    assert (E2 : map keep r = r).
    { apply map_fixed. eapply Forall_impl; [|exact Hchars].
      intros c [Hc | ->]; unfold keep; [now rewrite Hc | reflexivity]. }
    rewrite E1, E2, (@single_spaced_collapse false r Hsingle).
    now apply strip_fixed.
Qed.

(** [normalize_term] keeps the letters of the alphabet of the lower-cased
    term and drops everything else: its [strip] changes nothing, a second
    pass changes nothing, and the term of two pieces put together is the
    two terms put together. *)
Theorem normalize_term_keeps_letters (term : str) :
  normalize_term term = filter in_alphabet (lower term)
  /\ Forall (fun c => in_alphabet c = true) (normalize_term term)
  /\ normalize_term (normalize_term term) = normalize_term term
  /\ forall other, normalize_term (term ++ other)
                   = normalize_term term ++ normalize_term other.
Proof.
  assert (H : forall s, normalize_term s = filter in_alphabet (lower s)).
  { intro s. unfold normalize_term.
    destruct (strip_spec (lower s)) as [a [b [E [Ha Hb]]]].
    rewrite E at 2. rewrite !filter_app.
    assert (Hno : forall l, Forall (fun c => isspace c = true) l ->
                            filter in_alphabet l = []).
    { intros l Hl. apply filter_none. eapply Forall_impl; [|exact Hl].
      intros c Hc. destruct (in_alphabet c) eqn:Ec; [|reflexivity].
      apply alphabet_not_space in Ec. congruence. }
    now rewrite (Hno a Ha), (Hno b Hb), app_nil_r. }
  assert (Hall : forall s, Forall (fun c => in_alphabet c = true) (normalize_term s)).
  { intro s. rewrite H. apply Forall_forall. intros c Hc.
    now apply filter_In in Hc. }
  split; [apply H|]. split; [apply Hall|]. split.
  - rewrite (H (normalize_term term)).
    assert (E : lower (normalize_term term) = normalize_term term).
    { apply map_fixed. eapply Forall_impl; [|apply Hall].
      intros c Hc. now apply alphabet_lower. }
    rewrite E. apply filter_all, Hall.
  - intro other. rewrite !H. unfold lower. now rewrite map_app, filter_app.
Qed.

(** ** Term tables *)

Lemma count_term_positive (acc : dict nat) (x : str) :
  (forall t c, get acc t = Some c -> (1 <= c)%nat) ->
  forall t c, get (count_term acc x) t = Some c -> (1 <= c)%nat.
Proof.
  intros H t c. unfold count_term. rewrite get_set.
  destruct (str_eqb t x); [|apply H]. intro E. injection E as <-. lia.
Qed.

(** The table of a document is a dictionary of positive counts, whatever
    the strategy. *)
Theorem process_text_table_invariant (pre : PreprocessingService) (text : str) :
  wf (process_text pre text)
  /\ forall t, match get (process_text pre text) t with
               | Some c => (1 <= c)%nat
               | None => True
               end.
Proof.
  split; [apply process_text_wf|].
  assert (G : forall t c, get (process_text pre text) t = Some c -> (1 <= c)%nat).
  { unfold process_text.
    assert (H0 : forall t c, get (@nil (str * nat)) t = Some c -> (1 <= c)%nat)
      by discriminate.
    revert H0. generalize (@nil (str * nat)).
    destruct (if use_spacy pre then nlp pre else None) as [model|].
    - induction (model (clean_text text)) as [|token tokens IH]; intros acc H;
        simpl; [assumption|].
      apply IH.
      destruct (spacy.is_alpha token && negb (spacy.is_stop token)
                && negb (mem (spacy.text token) (stopwords pre)));
        [now apply count_term_positive | assumption].
    - induction (split (clean_text text)) as [|palavra palavras IH]; intros acc H;
        simpl; [assumption|].
      apply IH.
      destruct (stem_term pre (normalize_term palavra));
        [now apply count_term_positive | assumption]. }
  intro t. destruct (get (process_text pre text) t) as [c|] eqn:E; [|exact I].
  now apply G with t.
Qed.

(** ** The two paths on a clean text *)

Lemma split_from_collapse (cur : str) (b : bool) (s : str) :
  (b = true -> cur = []) ->
  split_from cur (collapse_spaces b s) = split_from cur s.
Proof.
  revert cur b. induction s as [|c s IH]; intros cur b H; [reflexivity|]. simpl.
  destruct (isspace c) eqn:E.
  - destruct b.
    + rewrite (H eq_refl). now apply IH.
    + simpl. change (isspace space) with true. cbv iota.
      rewrite (IH [] true) by reflexivity. reflexivity.
  - simpl. rewrite E. apply IH. discriminate.
Qed.

Lemma split_from_spaces (cur sp : str) :
  Forall (fun c => isspace c = true) sp -> split_from cur sp = split_from cur [].
Proof.
  intro H. revert cur. induction H as [|c sp Hc _ IH]; intro cur; [reflexivity|].
  simpl. rewrite Hc. destruct cur; rewrite IH; reflexivity.
Qed.

Lemma split_from_app_spaces (cur l sp : str) :
  Forall (fun c => isspace c = true) sp ->
  split_from cur (l ++ sp) = split_from cur l.
Proof.
  intro H. revert cur. induction l as [|c l IH]; intro cur.
  - now apply split_from_spaces.
  - simpl. destruct (isspace c); [destruct cur|]; now rewrite IH.
Qed.

Lemma split_spaces_app (sp l : str) :
  Forall (fun c => isspace c = true) sp -> split (sp ++ l) = split l.
Proof.
  unfold split. induction 1 as [|c sp Hc _ IH]; [reflexivity|].
  simpl. now rewrite Hc.
Qed.

(** [s.strip().split()] is [s.split()]. *)
Lemma split_strip (s : str) : split (strip s) = split s.
Proof.
  destruct (strip_spec s) as [a [b [E [Ha Hb]]]].
  rewrite E at 2. rewrite (split_spaces_app _ Ha). unfold split.
  now rewrite split_from_app_spaces.
Qed.

Lemma split_from_blanked (f : ascii -> ascii) (cur s : str) :
  Forall (fun c => if isspace c then isspace (f c) = true else f c = c) s ->
  split_from cur (map f s) = split_from cur s.
Proof.
  intro H. revert cur. induction H as [|c s Hc _ IH]; intro cur; [reflexivity|].
  simpl. destruct (isspace c) eqn:E.
  - rewrite Hc. destruct cur; now rewrite IH.
  - rewrite Hc, E. apply IH.
Qed.

(** The words of a text of letters and whitespace are those of its cleaned
    form. *)
Lemma split_clean_text (text : str) :
  Forall (fun c => in_alphabet c = true \/ isspace c = true) (lower text) ->
  split (clean_text text) = split (lower text).
Proof.
  intro H. unfold clean_text. rewrite split_strip. unfold split.
  rewrite split_from_collapse by discriminate.
  apply split_from_blanked. eapply Forall_impl; [|exact H].
  intros c [Hc | Hc].
  - rewrite (alphabet_not_space c Hc). now rewrite Hc.
  - rewrite Hc. destruct (in_alphabet c || chr_eqb c space); [assumption | reflexivity].
Qed.

Lemma fold_count_kept (A : Type) (g : A -> option str) (l : list A) (acc : dict nat) :
  fold_left (fun termos x => match g x with
                             | Some t => count_term termos t
                             | None => termos
                             end) l acc
  = fold_left count_term
      (flat_map (fun x => match g x with Some t => [t] | None => [] end) l) acc.
Proof.
  revert acc. induction l as [|x l IH]; intro acc; simpl; [reflexivity|].
  rewrite fold_left_app, IH. now destruct (g x).
Qed.

(** On a text of letters of the alphabet and whitespace the two rule-based
    paths agree: the table of the text as a document counts exactly the
    terms of the text as a query. *)
Theorem clean_text_same_terms_on_both_paths (pre : PreprocessingService) (text : str) :
  (if use_spacy pre then nlp pre else None) = None ->
  Forall (fun c => in_alphabet c = true \/ isspace c = true) (lower text) ->
  process_text pre text = fold_left count_term (process_query pre text) []
  /\ forall t, get_or (process_text pre text) t 0%nat
               = count_str t (process_query pre text).
Proof.
  intros Hrule Hclean.
  assert (E : process_text pre text = fold_left count_term (process_query pre text) []).
  { unfold process_text, process_query. rewrite Hrule.
    rewrite (split_clean_text _ Hclean). apply fold_count_kept. }
  split; [exact E|]. intro t. rewrite E. now rewrite count_terms_total.
Qed.

Lemma clean_text_same_terms_on_both_paths_witness :
  get_or (process_text plain (lit "Gato  rato GATO")) gato 0%nat = 2%nat.
Proof.
  assert (H : Forall (fun c => in_alphabet c = true \/ isspace c = true)
                     (lower (lit "Gato  rato GATO"))).
  { repeat (apply Forall_cons; [vm_compute; auto|]). apply Forall_nil. }
  rewrite (proj2 (@clean_text_same_terms_on_both_paths plain _ eq_refl H)).
  reflexivity.
Defined.

(** ** Loading a corpus and looking documents up *)

Lemma doc_id_of_inj (i j : nat) : doc_id_of i = doc_id_of j -> i = j.
Proof.
  unfold doc_id_of. intro H. apply app_inv_head in H.
  apply (f_equal string_of_list_ascii) in H.
  rewrite !string_of_list_ascii_of_string in H.
  apply (f_equal NilEmpty.uint_of_string) in H. rewrite !NilEmpty.usu in H.
  injection H as H. apply (f_equal Nat.of_uint) in H.
  rewrite !DecimalNat.Unsigned.of_to in H. lia.
Qed.

Lemma process_pdf_readable (pre : PreprocessingService) (cm : CorpusManager)
      (i : nat) (pdf_path : PdfFile) :
  process_pdf pre cm i pdf_path
  = match readable pdf_path with
    | Some texto =>
        mkCorpus (documents cm ++ [entry_of pre i pdf_path texto])
                 (set (texts cm) (doc_id_of i) texto)
                 (set (processed_terms cm) (doc_id_of i) (process_text pre texto))
    | None => cm
    end.
Proof.
  unfold process_pdf, readable. destruct (extract_text pdf_path) as [texto|]; [|reflexivity].
  now destruct (strip texto).
Qed.

Lemma kept_ids_from (i : nat) (pdf_files : list PdfFile) (k : str) :
  In k (kept_ids i pdf_files) ->
  exists j, (i <= j < i + length pdf_files)%nat /\ k = doc_id_of j.
Proof.
  revert i. induction pdf_files as [|f fs IH]; intros i H; simpl in H; [destruct H|].
  assert (G : In k (kept_ids (S i) fs) ->
              exists j, (i <= j < i + length (f :: fs))%nat /\ k = doc_id_of j).
  { intro Hk. destruct (IH _ Hk) as [j [Hj E]]. exists j. simpl. split; [lia | exact E]. }
  destruct (readable f); [|now apply G].
  destruct H as [<- | H]; [|now apply G].
  exists i. simpl. split; [lia | reflexivity].
Qed.

Lemma kept_ids_NoDup (i : nat) (pdf_files : list PdfFile) : NoDup (kept_ids i pdf_files).
Proof.
  revert i. induction pdf_files as [|f fs IH]; intro i; simpl; [constructor|].
  destruct (readable f); [|apply IH]. constructor; [|apply IH].
  intro H. apply kept_ids_from in H as [j [Hj E]]. apply doc_id_of_inj in E. lia.
Qed.

Lemma keys_set_fresh (V : Type) (d : dict V) (k : str) (v : V) :
  ~ In k (keys d) -> keys (set d k v) = keys d ++ [k].
Proof.
  intro H. rewrite keys_set. destruct (has d k) eqn:E; [|reflexivity].
  apply has_In in E. contradiction.
Qed.

Lemma ids_below_fresh (i j : nat) (ks : list str) :
  ids_below i ks -> (i <= j)%nat -> ~ In (doc_id_of j) ks.
Proof.
  intros H Hij Hin. destruct (H _ Hin) as [j' [Hj' E]]. apply doc_id_of_inj in E. lia.
Qed.

Lemma ids_below_snoc (i : nat) (ks : list str) :
  ids_below i ks -> ids_below (S i) (ks ++ [doc_id_of i]).
Proof.
  intros H k Hk. apply in_app_or in Hk as [Hk | [<- | []]].
  - destruct (H _ Hk) as [j [Hj E]]. exists j. split; [lia | exact E].
  - exists i. split; [lia | reflexivity].
Qed.

Lemma ids_below_S (i : nat) (ks : list str) : ids_below i ks -> ids_below (S i) ks.
Proof.
  intros H k Hk. destruct (H _ Hk) as [j [Hj E]]. exists j. split; [lia | exact E].
Qed.

Lemma process_pdfs_ids (pre : PreprocessingService) (pdf_files : list PdfFile)
      (i : nat) (cm : CorpusManager) :
  ids_below i (keys (texts cm)) -> ids_below i (keys (processed_terms cm)) ->
  let cm' := process_pdfs_from pre i pdf_files cm in
  map doc_id (documents cm') = map doc_id (documents cm) ++ kept_ids i pdf_files
  /\ keys (texts cm') = keys (texts cm) ++ kept_ids i pdf_files
  /\ keys (processed_terms cm') = keys (processed_terms cm) ++ kept_ids i pdf_files.
Proof.
  revert i cm. induction pdf_files as [|f fs IH]; intros i cm Ht Hp; simpl.
  - now rewrite !app_nil_r.
  - rewrite process_pdf_readable. destruct (readable f) as [texto|].
    + destruct (IH (S i)
                   (mkCorpus (documents cm ++ [entry_of pre i f texto])
                             (set (texts cm) (doc_id_of i) texto)
                             (set (processed_terms cm) (doc_id_of i)
                                  (process_text pre texto))))
        as [H1 [H2 H3]]; simpl.
      * rewrite keys_set_fresh by (now apply ids_below_fresh with i).
        now apply ids_below_snoc.
      * rewrite keys_set_fresh by (now apply ids_below_fresh with i).
        now apply ids_below_snoc.
      * simpl in H1, H2, H3. rewrite H1, H2, H3.
        rewrite !keys_set_fresh by (now apply ids_below_fresh with i).
        rewrite map_app. simpl. now rewrite <- !app_assoc.
    + apply IH; now apply ids_below_S.
Qed.

(** After loading into an empty container the three collections list the
    same identifiers in the same order, none twice; the identifier of a
    document is given by the place of its file in the listing, whether or
    not the files before it were kept. *)
Theorem loaded_corpus_ids (pre : PreprocessingService) (pdf_files : list PdfFile) :
  let cm := _process_pdfs pre pdf_files empty_corpus in
  map doc_id (documents cm) = kept_ids 0 pdf_files
  /\ keys (texts cm) = kept_ids 0 pdf_files
  /\ keys (processed_terms cm) = kept_ids 0 pdf_files
  /\ NoDup (kept_ids 0 pdf_files)
  /\ length (documents cm) = length (processed_terms cm).
Proof.
  assert (H0 : ids_below 0 []) by (intros k []).
  destruct (@process_pdfs_ids pre pdf_files 0%nat empty_corpus H0 H0) as [H1 [H2 H3]].
  simpl in H1, H2, H3. fold (_process_pdfs pre pdf_files empty_corpus) in H1, H2, H3.
  cbv zeta. repeat split; try assumption.
  - apply kept_ids_NoDup.
  - rewrite <- (length_map doc_id), H1, <- H3. unfold keys. now rewrite length_map.
Qed.

Lemma get_document_in_app (docs : list Document) (d : Document) (k : str) :
  get_document_in (docs ++ [d]) k
  = match get_document_in docs k with
    | Some x => Some x
    | None => if str_eqb (doc_id d) k then Some d else None
    end.
Proof.
  induction docs as [|x docs IH]; simpl; [reflexivity|].
  now destruct (str_eqb (doc_id x) k).
Qed.

Lemma get_document_in_None (docs : list Document) (k : str) :
  ~ In k (map doc_id docs) -> get_document_in docs k = None.
Proof.
  induction docs as [|x docs IH]; simpl; [reflexivity|]. intro H.
  destruct (str_eqb (doc_id x) k) eqn:E.
  - apply str_eqb_eq in E. exfalso. apply H. now left.
  - apply IH. intro Hin. apply H. now right.
Qed.

(** What the loop from index [i] on leaves for an identifier given before
    [i]: what was there. *)
Lemma process_pdfs_older (pre : PreprocessingService) (pdf_files : list PdfFile)
      (i j : nat) (cm : CorpusManager) :
  (j < i)%nat ->
  let cm' := process_pdfs_from pre i pdf_files cm in
  get_document cm' (doc_id_of j) = get_document cm (doc_id_of j)
  /\ get_document_text cm' (doc_id_of j) = get_document_text cm (doc_id_of j)
  /\ get (processed_terms cm') (doc_id_of j) = get (processed_terms cm) (doc_id_of j).
Proof.
  revert i cm. induction pdf_files as [|f fs IH]; intros i cm Hj; simpl.
  - repeat split.
  - rewrite process_pdf_readable. destruct (readable f) as [texto|].
    + destruct (IH (S i)
                   (mkCorpus (documents cm ++ [entry_of pre i f texto])
                             (set (texts cm) (doc_id_of i) texto)
                             (set (processed_terms cm) (doc_id_of i)
                                  (process_text pre texto))))
        as [H1 [H2 H3]]; [lia|].
      unfold get_document, get_document_text in *. simpl in H1, H2, H3.
      rewrite H1, H2, H3. rewrite get_document_in_app, !get_set.
      assert (E : str_eqb (doc_id_of j) (doc_id_of i) = false).
      { apply str_eqb_neq. intro E. apply doc_id_of_inj in E. lia. }
      change (doc_id (entry_of pre i f texto)) with (doc_id_of i).
      rewrite (str_eqb_sym (doc_id_of i)), !E.
      now destruct (get_document_in (documents cm) (doc_id_of j)).
    + apply IH. lia.
Qed.

Lemma process_pdfs_lookup (pre : PreprocessingService) (pdf_path : PdfFile) (i : nat) :
  forall (pdf_files : list PdfFile) (n : nat) (cm : CorpusManager),
    nth_error pdf_files i = Some pdf_path ->
    ~ In (doc_id_of (n + i)) (map doc_id (documents cm)) ->
    ~ In (doc_id_of (n + i)) (keys (texts cm)) ->
    ~ In (doc_id_of (n + i)) (keys (processed_terms cm)) ->
    let cm' := process_pdfs_from pre n pdf_files cm in
    match readable pdf_path with
    | Some texto =>
        get_document cm' (doc_id_of (n + i)) = Some (entry_of pre (n + i) pdf_path texto)
        /\ get_document_text cm' (doc_id_of (n + i)) = Some texto
        /\ get (processed_terms cm') (doc_id_of (n + i)) = Some (process_text pre texto)
    | None =>
        get_document cm' (doc_id_of (n + i)) = None
        /\ get_document_text cm' (doc_id_of (n + i)) = None
        /\ get (processed_terms cm') (doc_id_of (n + i)) = None
    end.
Proof.
  induction i as [|i IH]; intros fs n cm Hi Hd Ht Hp.
  - destruct fs as [|f fs]; [discriminate|]. injection Hi as ->.
    rewrite Nat.add_0_r in *. simpl.
    destruct (@process_pdfs_older pre fs (S n) n (process_pdf pre cm n pdf_path))
      as [H1 [H2 H3]]; [lia|].
    rewrite H1, H2, H3. rewrite process_pdf_readable.
    unfold get_document, get_document_text.
    destruct (readable pdf_path) as [texto|]; simpl.
    + rewrite get_document_in_app, !get_set, !str_eqb_refl.
      rewrite (get_document_in_None _ _ Hd).
      change (doc_id (entry_of pre n pdf_path texto)) with (doc_id_of n).
      rewrite ?str_eqb_refl. now repeat split.
    + rewrite (get_document_in_None _ _ Hd).
      repeat split; now apply get_None_not_key.
  - destruct fs as [|f fs]; [discriminate|]. simpl in Hi.
    replace (n + S i)%nat with (S n + i)%nat in * by lia. simpl process_pdfs_from.
    assert (Hne : doc_id_of n <> doc_id_of (S n + i)).
    { intro E. apply doc_id_of_inj in E. lia. }
    apply IH; [exact Hi | | |]; rewrite process_pdf_readable;
      destruct (readable f) as [texto|]; try assumption; simpl.
    + rewrite map_app. intro H. apply in_app_or in H as [H | [H | []]];
        [contradiction | now apply Hne].
    + intro H. rewrite keys_set in H. destruct (has (texts cm) (doc_id_of n));
        [contradiction|]. apply in_app_or in H as [H | [H | []]];
        [contradiction | now apply Hne].
    + intro H. rewrite keys_set in H.
      destruct (has (processed_terms cm) (doc_id_of n)); [contradiction|].
      apply in_app_or in H as [H | [H | []]]; [contradiction | now apply Hne].
Qed.

(** Loading and looking up: the file at index [i] of the listing, when it
    is kept, is found again under [doc_i+1] with its metadata, its text and
    the table of its text; when it is not kept, nothing is found under that
    identifier. *)
Theorem loaded_document_lookup (pre : PreprocessingService) (pdf_files : list PdfFile)
        (i : nat) (pdf_path : PdfFile) :
  nth_error pdf_files i = Some pdf_path ->
  let cm := _process_pdfs pre pdf_files empty_corpus in
  match readable pdf_path with
  | Some texto =>
      get_document cm (doc_id_of i) = Some (entry_of pre i pdf_path texto)
      /\ get_document_text cm (doc_id_of i) = Some texto
      /\ get (processed_terms cm) (doc_id_of i) = Some (process_text pre texto)
  | None =>
      get_document cm (doc_id_of i) = None
      /\ get_document_text cm (doc_id_of i) = None
      /\ get (processed_terms cm) (doc_id_of i) = None
  end.
Proof.
  unfold _process_pdfs. intro Hi.
  apply (@process_pdfs_lookup pre pdf_path i pdf_files 0%nat empty_corpus Hi); simpl; tauto.
Qed.

Lemma loaded_document_lookup_witness :
  get_document_text
    (_process_pdfs plain
       [mkPdfFile (lit "a") (lit "a.pdf") None;
        mkPdfFile (lit "o_gato") (lit "o_gato.pdf") (Some (lit "gato gato"))]
       empty_corpus)
    (doc_id_of 1)
  = Some (lit "gato gato").
Proof.
  exact (proj1 (proj2 (@loaded_document_lookup plain
           [mkPdfFile (lit "a") (lit "a.pdf") None;
            mkPdfFile (lit "o_gato") (lit "o_gato.pdf") (Some (lit "gato gato"))]
           1%nat _ eq_refl))).
Defined.

(** ** The cache *)

Lemma hash_eqb_eq (a b : option str) : CacheService.hash_eqb a b = true <-> a = b.
Proof.
  destruct a as [x|], b as [y|]; simpl; try (split; (discriminate || reflexivity)).
  rewrite str_eqb_eq. split; [now intros -> | now intros [= ->]].
Qed.

Lemma same_set_spec (a b : list str) :
  CacheService.same_set a b = true <-> (forall k, In k a <-> In k b).
Proof.
  unfold CacheService.same_set. rewrite andb_true_iff, !forallb_forall. split.
  - intros [H1 H2] k. split; intro H; apply mem_In; [now apply H1 | now apply H2].
  - intro H. split; intros k Hk; apply mem_In; now apply H.
Qed.

Lemma corpus_hash_get (sha : str -> option str) (files : list PdfFile)
      (acc : dict (option str)) (k : str) :
  get (fold_left (fun hashes pdf_path => set hashes (name pdf_path) (sha (name pdf_path)))
                 files acc) k
  = if mem k (map name files) then Some (sha k) else get acc k.
Proof.
  revert acc. induction files as [|f fs IH]; intro acc; simpl; [reflexivity|].
  rewrite IH, get_set. destruct (mem k (map name fs)) eqn:M.
  - now rewrite orb_true_r.
  - rewrite orb_false_r. destruct (str_eqb k (name f)) eqn:E; [|reflexivity].
    apply str_eqb_eq in E. now subst k.
Qed.

Lemma corpus_hash_keys (sha : str -> option str) (files : list PdfFile)
      (acc : dict (option str)) (k : str) :
  In k (keys (fold_left (fun hashes pdf_path =>
                           set hashes (name pdf_path) (sha (name pdf_path)))
                        files acc))
  <-> In k (keys acc) \/ In k (map name files).
Proof.
  rewrite <- !has_In. unfold has. rewrite corpus_hash_get.
  destruct (mem k (map name files)) eqn:M.
  - apply mem_In in M. tauto.
  - assert (~ In k (map name files)) by (rewrite <- mem_In; congruence). tauto.
Qed.

Lemma calculate_corpus_hash_get (corpus_path : CorpusDir) (k : str) :
  get (CacheService._calculate_corpus_hash corpus_path) k
  = if mem k (map name (pdf_files corpus_path)) then Some (sha256 corpus_path k) else None.
Proof. unfold CacheService._calculate_corpus_hash. now rewrite corpus_hash_get. Qed.

Lemma calculate_corpus_hash_keys (corpus_path : CorpusDir) (k : str) :
  In k (keys (CacheService._calculate_corpus_hash corpus_path))
  <-> In k (map name (pdf_files corpus_path)).
Proof.
  unfold CacheService._calculate_corpus_hash. rewrite corpus_hash_keys. simpl. tauto.
Qed.

Lemma calculate_corpus_hash_wf (corpus_path : CorpusDir) :
  wf (CacheService._calculate_corpus_hash corpus_path).
Proof.
  unfold CacheService._calculate_corpus_hash.
  assert (H0 : wf (@nil (str * option str))) by constructor.
  revert H0. generalize (@nil (str * option str)).
  induction (pdf_files corpus_path) as [|f fs IH]; intros acc H0; simpl; [assumption|].
  apply IH. now apply wf_set.
Qed.

Lemma calculate_corpus_hash_nil (corpus_path : CorpusDir) :
  CacheService._calculate_corpus_hash corpus_path = [] <-> pdf_files corpus_path = [].
Proof.
  split; intro H.
  - destruct (pdf_files corpus_path) as [|f fs] eqn:E; [reflexivity|].
    assert (Hin : In (name f) (keys (CacheService._calculate_corpus_hash corpus_path))).
    { apply calculate_corpus_hash_keys. rewrite E. now left. }
    rewrite H in Hin. destruct Hin.
  - unfold CacheService._calculate_corpus_hash. now rewrite H.
Qed.

(** The full check of a cache saved for the directory [saved], made against
    the directory [now]: it passes exactly when [saved] listed at least one
    PDF, the two directories list the same file names, and every file
    listed has the digest it had. *)
Theorem full_check_after_save
        (self : CacheService.Service) (documents : list Document) (texts : dict str)
        (processed_terms : dict TermTable) (saved now : CorpusDir) :
  CacheService.is_cache_valid
    (CacheService.save_cache self documents texts processed_terms saved) now false = true
  <-> pdf_files saved <> []
      /\ (forall k, In k (map name (pdf_files saved)) <-> In k (map name (pdf_files now)))
      /\ (forall k, In k (map name (pdf_files saved)) -> sha256 now k = sha256 saved k).
Proof.
  unfold CacheService.is_cache_valid, CacheService.save_cache. simpl.
  unfold CacheService._load_corpus_hash. simpl.
  destruct (CacheService._calculate_corpus_hash saved) as [|e cached] eqn:Ec.
  - apply calculate_corpus_hash_nil in Ec. split; [discriminate | tauto].
  - assert (Hne : pdf_files saved <> []).
    { intro H. apply calculate_corpus_hash_nil in H. congruence. }
    rewrite <- Ec. clear e cached Ec.
    destruct (CacheService.same_set (keys (CacheService._calculate_corpus_hash saved))
                (keys (CacheService._calculate_corpus_hash now))) eqn:Es; simpl.
    + rewrite same_set_spec in Es. rewrite forallb_forall. split.
      * intro H. split; [exact Hne|]. split.
        -- intro k. rewrite <- !calculate_corpus_hash_keys. apply Es.
        -- intros k Hk.
           assert (Hk' : In k (map name (pdf_files now))).
           { rewrite <- calculate_corpus_hash_keys, <- Es.
             now apply calculate_corpus_hash_keys. }
           assert (G : get (CacheService._calculate_corpus_hash saved) k
                       = Some (sha256 saved k)).
           { rewrite calculate_corpus_hash_get.
             now rewrite (proj2 (mem_In k _) Hk). }
           apply get_In in G. specialize (H _ G). simpl in H.
           apply andb_prop in H as [_ H]. apply hash_eqb_eq in H.
           unfold get_or in H. rewrite calculate_corpus_hash_get in H.
           now rewrite (proj2 (mem_In k _) Hk') in H.
      * intros [_ [Hsame Hsha]] [k v] Hin. simpl.
        assert (Hk : In k (map name (pdf_files saved))).
        { apply calculate_corpus_hash_keys. apply in_map_iff. now exists (k, v). }
        assert (Hk' : In k (map name (pdf_files now))) by (now apply Hsame).
        assert (Hv : v = sha256 saved k).
        { apply (@In_get _ _ k v (calculate_corpus_hash_wf saved)) in Hin. rewrite calculate_corpus_hash_get in Hin.
          rewrite (proj2 (mem_In k _) Hk) in Hin. congruence. }
        unfold has, get_or. rewrite calculate_corpus_hash_get.
        rewrite (proj2 (mem_In k _) Hk'). simpl. apply hash_eqb_eq.
        rewrite Hv. now apply Hsha.
    + split; [discriminate|]. intros [_ [Hsame _]].
      assert (Es' : CacheService.same_set
                      (keys (CacheService._calculate_corpus_hash saved))
                      (keys (CacheService._calculate_corpus_hash now)) = true).
      { apply same_set_spec. intro k. rewrite !calculate_corpus_hash_keys. apply Hsame. }
      congruence.
Qed.

(** ** Loading, with and without the cache *)

(** A first load with no usable cache processes the PDFs and saves them;
    a manager started later on that cache gets the same corpus back without
    reading a single PDF: whatever the directory then lists, and whatever
    the normaliser then is. *)
Theorem cold_load_then_warm_load
        (pre pre' : PreprocessingService) (cache : CacheService.Service)
        (corpus_path corpus_path' : CorpusDir) :
  dir_exists corpus_path = true ->
  dir_exists corpus_path' = true ->
  CacheService.is_cache_valid cache corpus_path true = false ->
  exists cache',
    Loader.load_corpus pre (Loader.init true cache) corpus_path None false
    = Loader.returns
        (Loader.mkState (_process_pdfs pre (pdf_files corpus_path) empty_corpus)
                        true true (Some cache'))
    /\ Loader.load_corpus pre' (Loader.init true cache') corpus_path' None false
       = Loader.returns
           (Loader.mkState (_process_pdfs pre (pdf_files corpus_path) empty_corpus)
                           true true (Some cache')).
Proof.
  intros Hdir Hdir' Hcold.
  set (cm := _process_pdfs pre (pdf_files corpus_path) empty_corpus).
  exists (CacheService.save_cache cache (documents cm) (texts cm) (processed_terms cm)
                                  corpus_path).
  unfold Loader.load_corpus, Loader.from_cache, Loader.init. simpl.
  rewrite Hdir, Hdir', Hcold. simpl. fold cm. split; [reflexivity|].
  now destruct cm.
Qed.

Lemma cold_load_then_warm_load_witness :
  exists cache',
    Loader.load_corpus plain (Loader.init true no_cache) (folder [gato_pdf]) None false
    = Loader.returns
        (Loader.mkState (_process_pdfs plain [gato_pdf] empty_corpus)
                        true true (Some cache'))
    /\ Loader.load_corpus plain (Loader.init true cache') (folder []) None false
       = Loader.returns
           (Loader.mkState (_process_pdfs plain [gato_pdf] empty_corpus)
                           true true (Some cache')).
Proof.
  exact (@cold_load_then_warm_load plain plain no_cache (folder [gato_pdf]) (folder [])
                                   eq_refl eq_refl eq_refl).
Defined.

(** ** Loading twice *)

Lemma set_same (V : Type) (d : dict V) (k : str) (v : V) :
  get d k = Some v -> set d k v = d.
Proof.
  induction d as [|[k' v'] d IH]; simpl; [discriminate|].
  destruct (str_eqb k k') eqn:E.
  - intro H. now injection H as ->.
  - intro H. now rewrite IH.
Qed.

Lemma process_pdf_documents (pre : PreprocessingService) (cm : CorpusManager)
      (i : nat) (pdf_path : PdfFile) :
  documents (process_pdf pre cm i pdf_path)
  = documents cm ++ documents (process_pdf pre empty_corpus i pdf_path).
Proof.
  rewrite !process_pdf_readable.
  destruct (readable pdf_path); simpl; [reflexivity | now rewrite app_nil_r].
Qed.

(** The entries a pass of the loop appends do not depend on what the
    container held. *)
Lemma process_pdfs_documents (pre : PreprocessingService) (pdf_files : list PdfFile)
      (i : nat) (cm : CorpusManager) :
  documents (process_pdfs_from pre i pdf_files cm)
  = documents cm ++ documents (process_pdfs_from pre i pdf_files empty_corpus).
Proof.
  revert i cm. induction pdf_files as [|f fs IH]; intros i cm; simpl.
  - now rewrite app_nil_r.
  - rewrite (IH (S i) (process_pdf pre cm i f)),
            (IH (S i) (process_pdf pre empty_corpus i f)).
    rewrite process_pdf_documents. now rewrite app_assoc.
Qed.

(** A pass over files whose texts and tables the container already holds
    leaves the two dictionaries as they are. *)
Lemma process_pdfs_again (pre : PreprocessingService) (pdf_files : list PdfFile)
      (i : nat) (cm : CorpusManager) :
  (forall n pdf_path texto,
      nth_error pdf_files n = Some pdf_path -> readable pdf_path = Some texto ->
      get (texts cm) (doc_id_of (i + n)) = Some texto
      /\ get (processed_terms cm) (doc_id_of (i + n)) = Some (process_text pre texto)) ->
  texts (process_pdfs_from pre i pdf_files cm) = texts cm
  /\ processed_terms (process_pdfs_from pre i pdf_files cm) = processed_terms cm.
Proof.
  revert i cm. induction pdf_files as [|f fs IH]; intros i cm H; simpl.
  - now split.
  - assert (E : texts (process_pdf pre cm i f) = texts cm
                /\ processed_terms (process_pdf pre cm i f) = processed_terms cm).
    { rewrite process_pdf_readable. destruct (readable f) as [texto|] eqn:Er; [|now split].
      destruct (H 0%nat f texto eq_refl Er) as [H1 H2]. rewrite Nat.add_0_r in H1, H2.
      simpl. now rewrite (set_same _ _ H1), (set_same _ _ H2). }
    destruct E as [E1 E2].
    destruct (IH (S i) (process_pdf pre cm i f)) as [H1 H2].
    + intros n g texto Hn Hg. rewrite E1, E2.
      replace (S i + n)%nat with (i + S n)%nat by lia. now apply (H (S n) g texto).
    + now rewrite H1, H2, E1, E2.
Qed.

(** A forced reload of a loaded corpus appends every document a second
    time, the texts and tables staying as they were: the container is not
    emptied first, and the doubled list is what goes to the cache. *)
Theorem forced_reload_repeats_documents
        (pre : PreprocessingService) (self : Loader.State) (corpus_path : CorpusDir) :
  dir_exists corpus_path = true ->
  Loader.data self = _process_pdfs pre (pdf_files corpus_path) empty_corpus ->
  let d := Loader.data self in
  let twice := mkCorpus (documents d ++ documents d) (texts d) (processed_terms d) in
  Loader.load_corpus pre self corpus_path None true
  = Loader.returns
      (Loader.mkState
         twice true (Loader.use_cache self)
         (match Loader.cache_service self with
          | Some cache =>
              if Loader.use_cache self
              then Some (CacheService.save_cache cache (documents twice) (texts twice)
                                                 (processed_terms twice) corpus_path)
              else Some cache
          | None => None
          end)).
Proof.
  intros Hdir Hdata d twice. unfold Loader.load_corpus.
  rewrite andb_false_r, Hdir. simpl negb. cbv iota.
  assert (Hc : Loader.from_cache self corpus_path None true = None).
  { unfold Loader.from_cache. destruct (Loader.cache_service self); [|reflexivity].
    now rewrite andb_false_r. }
  rewrite Hc. cbv zeta. unfold Loader.limited.
  assert (E : _process_pdfs pre (pdf_files corpus_path) (Loader.data self) = twice).
  { unfold _process_pdfs.
    pose proof (process_pdfs_documents pre (pdf_files corpus_path) 0 (Loader.data self))
      as Hdocs.
    destruct (@process_pdfs_again pre (pdf_files corpus_path) 0%nat (Loader.data self))
      as [Ht Hp].
    { intros n f texto Hn Hr. simpl.
      pose proof (@process_pdfs_lookup pre f n (pdf_files corpus_path) 0%nat empty_corpus Hn)
        as G.
      simpl in G. rewrite Hr in G. rewrite Hdata. unfold _process_pdfs.
      assert (F : ~ False) by tauto.
      destruct (G F F F) as [_ [G1 G2]]. split; [exact G1 | exact G2]. }
    fold (_process_pdfs pre (pdf_files corpus_path) empty_corpus) in Hdocs.
    rewrite <- Hdata in Hdocs. unfold twice, d.
    destruct (process_pdfs_from pre 0 (pdf_files corpus_path) (Loader.data self))
      as [docs' texts' pt'].
    simpl in Hdocs, Ht, Hp. now subst. }
  rewrite E. now destruct (Loader.cache_service self).
Qed.

Lemma forced_reload_repeats_documents_witness :
  Loader.load_corpus plain
    (Loader.mkState (_process_pdfs plain [gato_pdf] empty_corpus) true false None)
    (folder [gato_pdf]) None true
  = Loader.returns
      (Loader.mkState
         (mkCorpus [entry_of plain 0 gato_pdf (lit "gato gato");
                    entry_of plain 0 gato_pdf (lit "gato gato")]
                   [(lit "doc_1", lit "gato gato")]
                   [(lit "doc_1", [(gato, 2%nat)])])
         true false None).
Proof.
  exact (@forced_reload_repeats_documents plain
           (Loader.mkState (_process_pdfs plain [gato_pdf] empty_corpus) true false None)
           (folder [gato_pdf]) eq_refl eq_refl).
Defined.

(** ** Loading with a limit *)

Lemma kept_ids_length (i : nat) (pdf_files : list PdfFile) :
  (length (kept_ids i pdf_files) <= length pdf_files)%nat.
Proof.
  revert i. induction pdf_files as [|f fs IH]; intro i; simpl; [lia|].
  destruct (readable f); simpl; specialize (IH (S i)); lia.
Qed.

Lemma loaded_documents_length (pre : PreprocessingService) (pdf_files : list PdfFile) :
  (length (documents (_process_pdfs pre pdf_files empty_corpus)) <= length pdf_files)%nat.
Proof.
  assert (H0 : ids_below 0 []) by (intros k []).
  destruct (@process_pdfs_ids pre pdf_files 0%nat empty_corpus H0 H0) as [H1 _].
  simpl in H1. fold (_process_pdfs pre pdf_files empty_corpus) in H1.
  rewrite <- (length_map doc_id), H1. apply kept_ids_length.
Qed.

(** A first load with a limit never reads or writes the cache and keeps at
    most that many documents, those of the first files of the listing; a
    limit of 0 is no limit, and a negative limit leaves that many files
    off the end of the listing. *)
Theorem limited_load (pre : PreprocessingService) (use_cache : bool)
        (cache : CacheService.Service) (corpus_path : CorpusDir) (max_documents : Z) :
  dir_exists corpus_path = true ->
  let files :=
    if (max_documents =? 0)%Z then pdf_files corpus_path
    else if (0 <? max_documents)%Z
         then firstn (Z.to_nat max_documents) (pdf_files corpus_path)
         else firstn (length (pdf_files corpus_path) - Z.to_nat (- max_documents))
                     (pdf_files corpus_path) in
  Loader.load_corpus pre (Loader.init use_cache cache) corpus_path (Some max_documents) false
  = Loader.returns
      (Loader.mkState (_process_pdfs pre files empty_corpus) true use_cache
                      (if use_cache then Some cache else None))
  /\ ((0 < max_documents)%Z ->
      (length (documents (_process_pdfs pre files empty_corpus))
       <= Z.to_nat max_documents)%nat).
Proof.
  intros Hdir files.
  assert (E : Loader.limited (Some max_documents) (pdf_files corpus_path) = files).
  { unfold Loader.limited, files, slice_to.
    destruct (max_documents =? 0)%Z eqn:E0; [reflexivity|].
    destruct (0 <? max_documents)%Z eqn:E1.
    - apply Z.ltb_lt in E1. now rewrite (proj2 (Z.leb_le 0 max_documents)) by lia.
    - apply Z.ltb_ge in E1. apply Z.eqb_neq in E0.
      assert (E2 : (0 <=? max_documents)%Z = false) by (apply Z.leb_gt; lia).
      now rewrite E2. }
  split.
  - unfold Loader.load_corpus. rewrite E, Hdir.
    unfold Loader.from_cache, Loader.init. clearbody files.
    destruct use_cache; reflexivity.
  - intro Hpos. etransitivity; [apply loaded_documents_length|].
    unfold files. rewrite (proj2 (Z.eqb_neq max_documents 0)) by lia.
    rewrite (proj2 (Z.ltb_lt 0 max_documents)) by lia.
    rewrite length_firstn. lia.
Qed.

Lemma limited_load_witness :
  Loader.load_corpus plain (Loader.init true no_cache) (folder [blank_pdf; gato_pdf])
                     (Some 0%Z) false
  = Loader.returns
      (Loader.mkState (_process_pdfs plain [blank_pdf; gato_pdf] empty_corpus)
                      true true (Some no_cache)).
Proof.
  exact (proj1 (@limited_load plain true no_cache (folder [blank_pdf; gato_pdf]) 0%Z
                              eq_refl)).
Defined.

(** ** The statistics of the corpus *)

Lemma has_mem (V : Type) (d : dict V) (k : str) : has d k = mem k (keys d).
Proof.
  destruct (has d k) eqn:E1, (mem k (keys d)) eqn:E2; try reflexivity.
  - apply has_In, mem_In in E1. congruence.
  - apply mem_In, has_In in E2. congruence.
Qed.

Lemma incr_keys (ks : list str) (df : dict nat) :
  keys (fold_left TFIDF.incr ks df) = update (keys df) ks.
Proof.
  unfold update. revert df. induction ks as [|k ks IH]; intro df; simpl; [reflexivity|].
  rewrite IH. unfold TFIDF.incr. rewrite keys_set, has_mem. reflexivity.
Qed.

Lemma document_frequency_keys (tabs : list TermTable) (df : dict nat) :
  keys (fold_left (fun df termos_doc => fold_left TFIDF.incr (keys termos_doc) df) tabs df)
  = fold_left (fun s termos => update s (keys termos)) tabs (keys df).
Proof.
  revert df. induction tabs as [|t tabs IH]; intro df; simpl; [reflexivity|].
  now rewrite IH, incr_keys.
Qed.

Lemma update_spec (ks s : list str) :
  NoDup s ->
  NoDup (update s ks) /\ forall t, In t (update s ks) <-> In t s \/ In t ks.
Proof.
  unfold update. revert s. induction ks as [|k ks IH]; intros s Hs; simpl.
  - split; [assumption | tauto].
  - destruct (mem k s) eqn:E.
    + apply mem_In in E. destruct (IH s Hs) as [H1 H2]. split; [assumption|].
      intro t. rewrite H2. split; [tauto|]. intros [H | [<- | H]]; tauto.
    + assert (Hk : ~ In k s) by (rewrite <- mem_In; congruence).
      assert (Hs' : NoDup (s ++ [k])).
      { apply NoDup_app; [assumption | repeat constructor; intros [] |].
        intros x Hx [<- | []]. contradiction. }
      destruct (IH _ Hs') as [H1 H2]. split; [assumption|].
      intro t. rewrite H2, in_app_iff. simpl. tauto.
Qed.

Lemma all_terms_spec (tabs : list TermTable) (s : list str) :
  NoDup s ->
  let all_terms := fold_left (fun s termos => update s (keys termos)) tabs s in
  NoDup all_terms
  /\ forall t, In t all_terms <-> In t s \/ exists termos, In termos tabs /\ has termos t = true.
Proof.
  revert s. induction tabs as [|x tabs IH]; intros s Hs; simpl.
  - split; [assumption|]. intro t. split; [tauto|]. intros [H | [y [[] _]]]. exact H.
  - destruct (update_spec (keys x) Hs) as [H1 H2].
    destruct (IH _ H1) as [G1 G2]. split; [exact G1|].
    intro t. rewrite G2, H2. split.
    + intros [[H | H] | [y [Hy Ht]]].
      * now left.
      * right. exists x. split; [now left | now apply has_In].
      * right. exists y. split; [now right | exact Ht].
    + intros [H | [y [[<- | Hy] Ht]]].
      * left. now left.
      * left. right. now apply has_In.
      * right. now exists y.
Qed.

(** The statistics of a corpus with documents: the number of entries of
    [documents]; the number of distinct terms, each term of some table
    counted once, which is the size of the vocabulary of the TF-IDF index
    of the corpus; and an average length that takes the total to within
    one document count. *)
Theorem statistics_of_corpus (cm : CorpusManager) :
  documents cm <> [] ->
  let stats := get_statistics cm in
  let total := fold_right Nat.add 0%nat (map text_length (documents cm)) in
  total_documents stats = length (documents cm)
  /\ total_terms stats = length (TFIDF.idf (TFIDF._build_index TFIDF.init cm))
  /\ (exists all_terms,
         total_terms stats = length all_terms /\ NoDup all_terms
         /\ forall t, In t all_terms <-> (1 <= df_of (processed_terms cm) t)%nat)
  /\ (avg_doc_length stats * length (documents cm) <= total
      < (avg_doc_length stats + 1) * length (documents cm))%nat.
Proof.
  intro Hne. unfold get_statistics.
  destruct (documents cm) as [|d docs] eqn:Ed; [contradiction|]. cbv zeta.
  cbn [total_documents total_terms avg_doc_length].
  set (all_terms := fold_left (fun s termos => update s (keys termos))
                              (values (processed_terms cm)) []).
  split; [reflexivity|]. split; [|split].
  - unfold TFIDF._build_index. simpl TFIDF._is_indexed. cbv iota.
    destruct (length (processed_terms cm) =? 0)%nat eqn:E0.
    + apply Nat.eqb_eq in E0. apply length_zero_iff_nil in E0.
      unfold all_terms. now rewrite E0.
    + cbn [TFIDF.idf]. unfold TFIDF.build_idf. rewrite length_map.
      unfold TFIDF.document_frequency.
      rewrite <- (length_map fst). fold (keys (fold_left
        (fun df termos_doc => fold_left TFIDF.incr (keys termos_doc) df)
        (values (processed_terms cm)) (@nil (str * nat)))).
      now rewrite document_frequency_keys.
  - exists all_terms.
    destruct (@all_terms_spec (values (processed_terms cm)) [] (NoDup_nil _)) as [H1 H2].
    fold all_terms in H1, H2. split; [reflexivity|]. split; [exact H1|].
    intro t. rewrite H2. unfold df_of.
    generalize (values (processed_terms cm)). intro tabs. split.
    + intros [[] | [termos [Hin Ht]]].
      induction tabs as [|x tabs IH]; [destruct Hin|]. simpl.
      destruct Hin as [-> | Hin].
      * rewrite Ht. simpl. lia.
      * destruct (has x t); simpl; [lia | now apply IH].
    + intro H. right. induction tabs as [|x tabs IH]; simpl in H; [lia|].
      destruct (has x t) eqn:Ex.
      * exists x. split; [now left | exact Ex].
      * destruct (IH H) as [y [Hy Ht]]. exists y. split; [now right | exact Ht].
  - set (n := length (d :: docs)). set (total := fold_right Nat.add 0%nat _).
    assert (Hn : n <> 0%nat) by (unfold n; simpl; lia).
    pose proof (Nat.div_mod_eq total n) as Hdm.
    pose proof (Nat.mod_upper_bound total n Hn) as Hub. nia.
Qed.

Lemma statistics_of_corpus_witness :
  total_terms (get_statistics corpus2) = 2%nat.
Proof.
  rewrite (proj1 (proj2 (@statistics_of_corpus corpus2 ltac:(discriminate)))).
  reflexivity.
Defined.

(** ** Which documents the TF-IDF scorer returns *)

Lemma sum_nonneg (v : list R) : Forall (fun x => 0 <= x) v -> 0 <= np.sum v.
Proof. induction 1; simpl; lra. Qed.

Lemma sum_pos (v : list R) :
  Forall (fun x => 0 <= x) v -> Exists (fun x => 0 < x) v -> 0 < np.sum v.
Proof.
  intros Hv He. induction He as [x v Hx | x v He IH]; inversion Hv; subst; simpl.
  - pose proof (sum_nonneg H2). lra.
  - specialize (IH H2). lra.
Qed.

Lemma sum_pos_inv (v : list R) :
  Forall (fun x => 0 <= x) v -> 0 < np.sum v -> Exists (fun x => 0 < x) v.
Proof.
  induction 1 as [|x v Hx Hv IH]; simpl; intro H; [lra|].
  destruct (Rlt_dec 0 x) as [Hp | Hn]; [now left|]. right. apply IH. lra.
Qed.

Lemma dot_pos (u v : list R) :
  length u = length v ->
  Forall (fun x => 0 <= x) u -> Forall (fun x => 0 < x) v ->
  Exists (fun x => 0 < x) u -> 0 < np.dot u v.
Proof.
  intros Hlen Hu Hv He.
  assert (Hn : forall u v, length u = length v -> Forall (fun x => 0 <= x) u ->
                           Forall (fun x => 0 < x) v -> 0 <= np.dot u v).
  { clear. induction u as [|x u IH]; intros [|y v] Hlen Hu Hv; simpl; try lra.
    inversion Hu; inversion Hv; subst. injection Hlen as Hlen.
    specialize (IH v Hlen H2 H6). nra. }
  revert v Hlen Hv. induction He as [x u Hx | x u He IH]; intros [|y v] Hlen Hv;
    try discriminate; inversion Hu; inversion Hv; subst; injection Hlen as Hlen; simpl.
  - pose proof (Hn u v Hlen H2 H6). nra.
  - specialize (IH H2 v Hlen H6). nra.
Qed.

Lemma norm_pos (v : list R) : Exists (fun x => 0 < x) v -> 0 < np.norm v.
Proof.
  intro He. unfold np.norm. apply sqrt_lt_R0. apply sum_pos.
  - apply Forall_forall. intros y Hy. apply in_map_iff in Hy as [x [<- _]].
    pose proof (Rle_0_sqr x) as H. unfold Rsqr in H. exact H.
  - apply Exists_exists in He as [x [Hin Hx]]. apply Exists_exists.
    exists (x * x). split; [|nra]. apply in_map_iff. now exists x.
Qed.

(** A document is given a similarity exactly when one of its coordinates
    is positive. *)
Lemma similarity_of_some (n : nat) (qv dv : list R) :
  length dv = n -> length qv = n ->
  Forall (fun x => 0 <= x) dv -> Forall (fun x => 0 < x) qv ->
  (exists sim, TFIDF.similarity_of (n =? 1)%nat n (np.scale qv (np.norm qv)) dv = Some sim)
  <-> Exists (fun x => 0 < x) dv.
Proof.
  intros Hd Hq Hdv Hqv. unfold TFIDF.similarity_of.
  rewrite Hd, Nat.eqb_refl. simpl negb. cbv iota.
  destruct (Rltb 0 (np.sum dv)) eqn:Hs.
  - apply Rltb_true in Hs. pose proof (sum_pos_inv Hdv Hs) as He.
    split; [intros _; exact He | intros _].
    destruct (n =? 1)%nat eqn:E1.
    + apply Nat.eqb_eq in E1. subst n.
      destruct dv as [|x [|y dv]]; try discriminate. simpl in *.
      assert (Hx : Rltb 0 x = true) by (apply Rltb_true; lra).
      rewrite Hx. now exists x.
    + assert (Hnd : 0 < np.norm dv) by (now apply norm_pos).
      assert (Hnq : 0 < np.norm qv).
      { apply norm_pos. destruct qv as [|y qv].
        - destruct dv; [inversion He | simpl in *; congruence].
        - left. now inversion Hqv. }
      rewrite (proj2 (Rltb_true 0 (np.norm dv)) Hnd).
      assert (Hdot : 0 < np.dot (np.scale dv (np.norm dv)) (np.scale qv (np.norm qv))).
      { rewrite dot_scale by lra. apply Rdiv_lt_0_compat.
        - apply dot_pos; [congruence | assumption | assumption | assumption].
        - now apply Rmult_lt_0_compat. }
      rewrite (proj2 (Rltb_true 0 _) Hdot). eauto.
  - apply Rltb_false in Hs. split; [intros [sim H]; discriminate|].
    intro He. pose proof (sum_pos Hdv He). lra.
Qed.

Lemma fold_keep_has (g : str -> option R) (ks : list str) (acc : dict R) (i : str) :
  In i (keys acc) \/ (In i ks /\ g i <> None) ->
  In i (keys (fold_left (fun sims i => match g i with
                                       | Some sim => set sims i sim
                                       | None => sims
                                       end) ks acc)).
Proof.
  revert acc. induction ks as [|k ks IH]; intros acc H; simpl.
  - destruct H as [H | [[] _]]. exact H.
  - apply IH. destruct H as [H | [[-> | H] Hg]].
    + left. destruct (g k); [|exact H]. apply has_In. unfold has. rewrite get_set.
      destruct (str_eqb i k); [reflexivity|]. apply has_In in H. exact H.
    + left. destruct (g i) as [sim|]; [|congruence]. apply has_In. unfold has.
      now rewrite get_set, str_eqb_refl.
    + right. now split.
Qed.

(** Over a built index and terms of its vocabulary, the documents that
    get a similarity are those that hold one of the terms. *)
Lemma similarities_keys_spec (cm : CorpusManager) (query_terms : list str) (i : str) :
  tables_wf (processed_terms cm) ->
  (1 <= length (processed_terms cm))%nat ->
  let st := TFIDF._build_index TFIDF.init cm in
  Forall (fun t => has (TFIDF.idf st) t = true) query_terms ->
  (In i (keys (TFIDF.similarities st query_terms))
   <-> exists t, In t query_terms
                 /\ (1 <= get_or (get_or (processed_terms cm) i []) t 0)%nat).
Proof.
  intros Hwf HN st Hvoc.
  assert (Hidf : forall t, In t query_terms -> 0 < get_or (TFIDF.idf st) t 0).
  { intros t Ht. rewrite Forall_forall in Hvoc. specialize (Hvoc t Ht).
    unfold has, get_or in *. unfold st in *.
    rewrite idf_of_fresh_index in * by (assumption || apply Hwf).
    destruct (df_of (processed_terms cm) t =? 0)%nat eqn:E; [discriminate|].
    apply Nat.eqb_neq in E. apply idf_value_pos. split; [lia | apply df_of_le]. }
  set (qv := TFIDF.query_tfidf_values (TFIDF.idf st) query_terms).
  assert (Hqv : Forall (fun x => 0 < x) qv).
  { unfold qv, TFIDF.query_tfidf_values. apply Forall_forall. intros x Hx.
    apply in_map_iff in Hx as [t [<- Ht]]. unfold TFIDF.query_tfidf_value.
    rewrite query_term_freq_count. pose proof (count_str_pos _ _ Ht) as Hc.
    assert (E : (0 <? count_str t query_terms)%nat = true) by (apply Nat.ltb_lt; lia).
    rewrite E.
    assert (0 <= log10 (INR (count_str t query_terms))).
    { apply log10_nonneg. change 1 with (INR 1). apply le_INR. lia. }
    specialize (Hidf t Ht). nra. }
  assert (Hlen : length qv = length query_terms).
  { unfold qv, TFIDF.query_tfidf_values. apply length_map. }
  assert (Hdv : forall j,
             let dv := TFIDF.doc_vector (TFIDF.tf_idf_index st) j query_terms in
             length dv = length query_terms
             /\ Forall (fun x => 0 <= x) dv
             /\ (Exists (fun x => 0 < x) dv
                 <-> exists t, In t query_terms
                               /\ (1 <= get_or (get_or (processed_terms cm) j []) t 0)%nat)).
  { intros j dv. unfold dv, TFIDF.doc_vector.
    assert (Hw : forall t, In t query_terms ->
                   get_or (get_or (TFIDF.tf_idf_index st) j []) t 0
                   = TFIDF.tf_value (get_or (get_or (processed_terms cm) j []) t 0%nat)
                     * get_or (TFIDF.idf st) t 0).
    { intros t _. unfold st. rewrite build_index_fresh by assumption. simpl.
      now rewrite index_entry by assumption. }
    split; [apply length_map|]. split.
    - apply Forall_forall. intros x Hx. apply in_map_iff in Hx as [t [<- Ht]].
      rewrite (Hw t Ht). apply Rmult_le_pos; [apply tf_value_nonneg|].
      pose proof (Hidf t Ht). lra.
    - rewrite Exists_exists. split.
      + intros [x [Hx Hpos]]. apply in_map_iff in Hx as [t [<- Ht]]. exists t.
        split; [exact Ht|]. rewrite (Hw t Ht) in Hpos.
        destruct (get_or (get_or (processed_terms cm) j []) t 0%nat); [|lia].
        rewrite tf_value_0, Rmult_0_l in Hpos. lra.
      + intros [t [Ht Hc]].
        exists (get_or (get_or (TFIDF.tf_idf_index st) j []) t 0). split.
        * apply in_map_iff. now exists t.
        * rewrite (Hw t Ht). pose proof (tf_value_pos Hc). pose proof (Hidf t Ht). nra. }
  destruct (length query_terms =? 0)%nat eqn:Hne.
  { apply Nat.eqb_eq, length_zero_iff_nil in Hne. subst query_terms.
    split; [|intros [t [[] _]]]. unfold TFIDF.similarities. simpl. intros []. }
  split.
  - intro Hin. apply in_map_iff in Hin as [[j sim] [E Hin]]. simpl in E. subst j.
    apply similarities_In in Hin. cbv zeta in Hin. destruct Hin as [_ [_ Hsim]].
    fold qv in Hsim. rewrite Hlen in Hsim.
    destruct (Hdv i) as [Hl [Hnn Hex]]. apply Hex.
    apply (similarity_of_some Hl Hlen Hnn Hqv). now exists sim.
  - intro Hex0. pose proof Hex0 as Hex.
    destruct (Hdv i) as [Hl [Hnn Hex']]. apply Hex' in Hex.
    apply (similarity_of_some Hl Hlen Hnn Hqv) in Hex as [sim Hsim].
    unfold TFIDF.similarities. fold qv. rewrite Hlen, Hne. simpl orb.
    assert (Hsum : Reqb (np.sum qv) 0 = false).
    { apply Reqb_false. assert (0 < np.sum qv); [|lra].
      apply sum_pos.
      - eapply Forall_impl; [|exact Hqv]. intros; simpl in *; lra.
      - destruct qv; [discriminate Hlen || (simpl in Hlen; apply Nat.eqb_neq in Hne; lia)|].
        left. now inversion Hqv. }
    rewrite Hsum.
    assert (Hnorm : Rltb 0 (np.norm qv) = true).
    { apply Rltb_true, norm_pos. destruct qv.
      - simpl in Hlen. apply Nat.eqb_neq in Hne. lia.
      - left. now inversion Hqv. }
    rewrite Hnorm. apply fold_keep_has. right. split.
    + assert (Hi : In i (keys (processed_terms cm))).
      { destruct Hex0 as [t [_ Hc]]. apply has_In. unfold has. unfold get_or in Hc.
        destruct (get (processed_terms cm) i); [reflexivity|]. simpl in Hc. lia. }
      unfold st. now rewrite index_keys_built by apply Hwf.
    + rewrite Hsim. discriminate.
Qed.
Lemma counted_term_in_vocabulary (cm : CorpusManager) (i t : str) :
  tables_wf (processed_terms cm) ->
  (1 <= get_or (get_or (processed_terms cm) i []) t 0)%nat ->
  has (TFIDF.idf (TFIDF._build_index TFIDF.init cm)) t = true.
Proof.
  intros [Hwf Htabs] Hc. unfold get_or in Hc.
  destruct (get (processed_terms cm) i) as [tab|] eqn:Ei; [|simpl in Hc; lia].
  destruct (get tab t) as [c|] eqn:Et; [|lia].
  assert (Hin : In tab (values (processed_terms cm))).
  { apply get_In in Ei. change tab with (snd (i, tab)). now apply in_map. }
  assert (HN : (1 <= length (processed_terms cm))%nat).
  { destruct (processed_terms cm); [destruct Hin | simpl; lia]. }
  assert (Hdf : (1 <= df_of (processed_terms cm) t)%nat).
  { unfold df_of. revert Hin. generalize (values (processed_terms cm)).
    induction l as [|x l IH]; [intros [] | intros [-> | Hin]]; simpl.
    - unfold has at 1. rewrite Et. simpl. lia.
    - destruct (has x t); simpl; [lia | now apply IH]. }
  unfold has. rewrite idf_of_fresh_index by assumption.
  destruct (df_of (processed_terms cm) t =? 0)%nat eqn:E; [|reflexivity].
  apply Nat.eqb_eq in E. lia.
Qed.

(** With a [top_k] of at least the number of documents, TF-IDF returns
    exactly the documents that hold at least one term of the processed
    query: every such document, and no other. *)
Theorem tfidf_returns_the_matching_documents
        (cm : CorpusManager) (pre : PreprocessingService) (query : str)
        (self : TFIDF.Service) (top_k : Z) (i : str) :
  corpus_consistent cm -> TFIDF_reachable cm self ->
  (Z.of_nat (length (documents cm)) <= top_k)%Z ->
  In i (map schemas.id (snd (TFIDF.search self cm pre query top_k)))
  <-> exists t, In t (process_query pre query)
                /\ (1 <= get_or (get_or (processed_terms cm) i []) t 0)%nat.
Proof.
  intros Hc Hreach Hk.
  assert (E : map schemas.id (snd (TFIDF.search self cm pre query top_k))
              = map fst (map id_score (snd (TFIDF.search self cm pre query top_k)))).
  { rewrite map_map. reflexivity. }
  rewrite E, tfidf_search_scores by assumption. clear E.
  rewrite slice_to_all by (pose proof (sorted_docs_length (process_query pre query) Hc); lia).
  rewrite sorted_docs_eq.
  set (st := TFIDF._build_index TFIDF.init cm).
  set (qt := TFIDF.termos_encontrados st (process_query pre query)).
  assert (Hsort : In i (map fst (sort_by_score (TFIDF.similarities st qt)))
                  <-> In i (keys (TFIDF.similarities st qt))).
  { unfold keys. rewrite !in_map_iff.
    split; intros [e [He Hin]]; exists e; (split; [exact He|]);
      now apply sort_by_score_In. }
  rewrite Hsort. clear Hsort.
  destruct Hc as [Hwf _].
  destruct (length (processed_terms cm)) as [|n] eqn:EN.
  - apply length_zero_iff_nil in EN.
    assert (Est : st = TFIDF.init) by (unfold st; apply build_index_empty; now rewrite EN).
    unfold qt. rewrite Est. unfold TFIDF.termos_encontrados.
    assert (Ef : filter (has (TFIDF.idf TFIDF.init)) (process_query pre query) = []).
    { induction (process_query pre query); [reflexivity | assumption]. }
    rewrite Ef. unfold TFIDF.similarities. simpl. rewrite EN.
    split; [intros [] | intros [t [_ H]]; unfold get_or in H; simpl in H; lia].
  - assert (HN : (1 <= length (processed_terms cm))%nat) by lia.
    assert (Hvoc : Forall (fun t => has (TFIDF.idf st) t = true) qt).
    { apply Forall_forall. intros t Ht. unfold qt, TFIDF.termos_encontrados in Ht.
      now apply filter_In in Ht. }
    pose proof (@similarities_keys_spec cm qt i Hwf HN Hvoc) as Hs.
    cbv zeta in Hs. fold st in Hs. rewrite Hs. clear Hs.
    split; intros [t [Ht Hcount]]; exists t; (split; [|exact Hcount]).
    + unfold qt, TFIDF.termos_encontrados in Ht. now apply filter_In in Ht.
    + unfold qt, TFIDF.termos_encontrados. apply filter_In. split; [exact Ht|].
      now apply counted_term_in_vocabulary with i.
Qed.

Lemma tfidf_returns_the_matching_documents_witness :
  In (lit "doc_2") (map schemas.id (snd (TFIDF.search TFIDF.init corpus2 plain rato 2%Z))).
Proof.
  apply (proj2 (@tfidf_returns_the_matching_documents corpus2 plain rato TFIDF.init 2%Z
                  (lit "doc_2") corpus2_consistent (or_introl eq_refl)
                  ltac:(simpl; lia))).
  exists rato. split; [now left | vm_compute; lia].
Defined.

(** ** What the BM25 index is built from *)

Lemma count_str_app (t : str) (l1 l2 : list str) :
  count_str t (l1 ++ l2) = (count_str t l1 + count_str t l2)%nat.
Proof. unfold count_str. now rewrite filter_app, length_app. Qed.

Lemma count_str_repeat (t k : str) (n : nat) :
  count_str t (repeat k n) = if str_eqb t k then n else 0%nat.
Proof.
  unfold count_str. induction n as [|n IH]; simpl.
  - now destruct (str_eqb t k).
  - destruct (str_eqb t k); simpl; [now rewrite IH | exact IH].
Qed.

Lemma tokens_of_absent (termos : TermTable) (t : str) :
  ~ In t (keys termos) -> count_str t (BM25.tokens_of termos) = 0%nat.
Proof.
  unfold BM25.tokens_of. induction termos as [|[k n] termos IH]; simpl; intro H.
  - reflexivity.
  - rewrite count_str_app, count_str_repeat. simpl.
    destruct (str_eqb t k) eqn:E.
    + apply str_eqb_eq in E. exfalso. apply H. now left.
    + apply IH. intro Hin. apply H. now right.
Qed.

(** Expanding a table into tokens and counting them again gives the
    table's counts back. *)
Lemma tokens_of_count (termos : TermTable) (t : str) :
  wf termos -> count_str t (BM25.tokens_of termos) = get_or termos t 0%nat.
Proof.
  unfold wf, get_or. induction termos as [|[k n] termos IH]; simpl; intro H.
  - reflexivity.
  - inversion H as [|? ? Hk Hnd]; subst.
    change (BM25.tokens_of ((k, n) :: termos)) with (repeat k n ++ BM25.tokens_of termos).
    rewrite count_str_app, count_str_repeat.
    destruct (str_eqb t k) eqn:E.
    + apply str_eqb_eq in E. subst k. rewrite tokens_of_absent by exact Hk. lia.
    + now apply IH.
Qed.

Lemma tokens_of_length (termos : TermTable) :
  length (BM25.tokens_of termos) = total_count termos.
Proof.
  unfold BM25.tokens_of, total_count.
  induction termos as [|[k n] termos IH]; simpl; [reflexivity|].
  now rewrite length_app, repeat_length, IH.
Qed.

Lemma frequencies_tokens_of (termos : TermTable) (t : str) :
  wf termos ->
  get_or (rank_bm25.frequencies (BM25.tokens_of termos)) t 0%nat = get_or termos t 0%nat.
Proof.
  intro H. unfold rank_bm25.frequencies. rewrite count_terms_total.
  now rewrite tokens_of_count.
Qed.

Lemma combine_map (A B C : Type) (f : A -> B) (g : A -> C) (l : list A) :
  combine (map f l) (map g l) = map (fun x => (f x, g x)) l.
Proof. induction l as [|x l IH]; simpl; [reflexivity | now rewrite IH]. Qed.

Lemma combine_self_map (A B : Type) (g : A -> B) (l : list A) :
  combine l (map g l) = map (fun x => (x, g x)) l.
Proof. induction l as [|x l IH]; simpl; [reflexivity | now rewrite IH]. Qed.

(** The scores of the index built over a corpus, one per identifier. *)
Lemma get_scores_by_id (cm : CorpusManager) (k1 b : R) (query_terms : list str) :
  let index := rank_bm25.new (fst (BM25._prepare_corpus cm)) k1 b in
  rank_bm25.get_scores index query_terms
  = map (fun i =>
           let tokens := BM25.tokens_of (get_or (processed_terms cm) i []) in
           fold_left (fun score q =>
                        score + rank_bm25.term_score index (rank_bm25.frequencies tokens)
                                                     (length tokens) q)
                     query_terms 0)
        (BM25.sorted_ids cm).
Proof.
  intro index. unfold rank_bm25.get_scores.
  change (rank_bm25.doc_freqs index)
    with (map rank_bm25.frequencies (fst (BM25._prepare_corpus cm))).
  change (rank_bm25.doc_len index)
    with (map (@length str) (fst (BM25._prepare_corpus cm))).
  unfold BM25._prepare_corpus. simpl fst.
  rewrite !map_map, combine_map, map_map. reflexivity.
Qed.

Lemma str_ltb_irrefl (a : str) : str_ltb a a = false.
Proof.
  induction a as [|x a IH]; simpl; [reflexivity|]. now rewrite Nat.ltb_irrefl.
Qed.

Lemma str_ltb_asym (a b : str) : str_ltb b a = true -> str_ltb a b = false.
Proof.
  revert b. induction a as [|x a IH]; intros [|y b]; simpl; try congruence.
  destruct (code y <? code x)%nat eqn:E1.
  - intros _. apply Nat.ltb_lt in E1.
    now rewrite (proj2 (Nat.ltb_ge (code x) (code y))) by lia.
  - destruct (code x <? code y)%nat eqn:E2; [discriminate | apply IH].
Qed.

Lemma str_ltb_le_trans (a b c : str) :
  str_ltb b a = false -> str_ltb c b = false -> str_ltb c a = false.
Proof.
  revert b c. induction a as [|x a IH]; intros [|y b] [|z c]; simpl; try congruence.
  destruct (code y <? code x)%nat eqn:E1; [discriminate|].
  destruct (code x <? code y)%nat eqn:E2.
  - intros _. destruct (code z <? code y)%nat eqn:E3; [discriminate|].
    apply Nat.ltb_lt in E2. apply Nat.ltb_ge in E3.
    intros _. now rewrite (proj2 (Nat.ltb_ge (code z) (code x))),
                          (proj2 (Nat.ltb_lt (code x) (code z))) by lia.
  - apply Nat.ltb_ge in E1, E2. assert (Exy : code x = code y) by lia.
    intro Hab. rewrite Exy.
    destruct (code z <? code y)%nat; [discriminate|].
    destruct (code y <? code z)%nat; [reflexivity|]. now apply IH.
Qed.

(** The index mirrors the tables: one document per table, in the
    ascending order of the identifiers; the [n]-th document has the counts
    of the table of the [n]-th identifier and its total count as length;
    and [get_scores] gives one score per identifier, so that [doc_ids[i]]
    is always in range. *)
Theorem bm25_index_mirrors_the_tables
        (cm : CorpusManager) (k1 b : R) (query_terms : list str) :
  tables_wf (processed_terms cm) ->
  let pt := processed_terms cm in
  let ids := snd (BM25._prepare_corpus cm) in
  let index := rank_bm25.new (fst (BM25._prepare_corpus cm)) k1 b in
  Permutation (keys pt) ids
  /\ StronglySorted (fun x y => str_ltb y x = false) ids
  /\ rank_bm25.corpus_size index = length pt
  /\ length (rank_bm25.get_scores index query_terms) = length ids
  /\ forall n i,
       nth_error ids n = Some i ->
       exists freqs,
         nth_error (rank_bm25.doc_freqs index) n = Some freqs
         /\ nth_error (rank_bm25.doc_len index) n = Some (total_count (get_or pt i []))
         /\ forall t, get_or freqs t 0%nat = get_or (get_or pt i []) t 0%nat.
Proof.
  intros [Hwf Htabs] pt ids index.
  assert (Hperm : Permutation (keys pt) ids) by apply sorted_keys_perm.
  split; [exact Hperm|]. split; [|split; [|split]].
  - apply (sorted_sorted str_ltb str_ltb_asym str_ltb_le_trans).
  - change (rank_bm25.corpus_size index) with (length (fst (BM25._prepare_corpus cm))).
    unfold BM25._prepare_corpus. simpl fst. rewrite length_map.
    unfold BM25.sorted_ids. rewrite sorted_length. unfold keys. apply length_map.
  - unfold index. rewrite get_scores_by_id. apply length_map.
  - intros n i Hn.
    change (rank_bm25.doc_freqs index)
      with (map rank_bm25.frequencies (fst (BM25._prepare_corpus cm))).
    change (rank_bm25.doc_len index)
      with (map (@length str) (fst (BM25._prepare_corpus cm))).
    unfold BM25._prepare_corpus. simpl fst. rewrite !map_map, !nth_error_map.
    change (BM25.sorted_ids cm) with ids. rewrite Hn. simpl.
    eexists. split; [reflexivity|]. split; [now rewrite tokens_of_length|].
    intro t. apply frequencies_tokens_of.
    unfold get_or. destruct (get pt i) as [tab|] eqn:E; [|constructor].
    rewrite Forall_forall in Htabs. apply Htabs.
    apply get_In in E. change tab with (snd (i, tab)). now apply in_map.
Qed.

Lemma bm25_index_mirrors_the_tables_witness :
  rank_bm25.corpus_size (rank_bm25.new (fst (BM25._prepare_corpus corpus2)) 2 1) = 2%nat.
Proof.
  exact (proj1 (proj2 (proj2 (@bm25_index_mirrors_the_tables corpus2 2 1 []
                                (proj1 corpus2_consistent))))).
Defined.

(** ** Which documents the BM25 scorer returns *)

Lemma fold_scores_zero (index : rank_bm25.BM25Okapi) (doc : dict nat) (dl : nat)
      (query_terms : list str) (acc : R) :
  (forall t, In t query_terms -> get_or doc t 0%nat = 0%nat) ->
  fold_left (fun score q => score + rank_bm25.term_score index doc dl q) query_terms acc
  = acc.
Proof.
  revert acc. induction query_terms as [|q qs IH]; intros acc H; simpl; [reflexivity|].
  rewrite IH by (intros t Ht; apply H; now right).
  rewrite term_score_absent by (apply H; now left). lra.
Qed.

Lemma some_term_counted (termos : TermTable) (query_terms : list str) :
  (forall t, In t query_terms -> get_or termos t 0%nat = 0%nat)
  \/ exists t, In t query_terms /\ (1 <= get_or termos t 0)%nat.
Proof.
  induction query_terms as [|q qs IH]; [left; intros t []|].
  destruct (get_or termos q 0%nat) as [|c] eqn:E.
  - destruct IH as [IH | [t [Ht Hc]]].
    + left. intros t [<- | Ht]; [exact E | now apply IH].
    + right. exists t. split; [now right | exact Hc].
  - right. exists q. split; [now left | lia].
Qed.

(** BM25 never returns a document that holds none of the terms of the
    processed query, whatever [k1], [b] and [top_k] are. *)
Theorem bm25_returns_only_matching_documents
        (cm : CorpusManager) (pre : PreprocessingService) (query : str) (k1 b : R)
        (top_k : Z) (self : BM25.Service) (i : str) :
  tables_wf (processed_terms cm) -> BM25_reachable cm self ->
  In i (map schemas.id (snd (BM25.search self cm pre query k1 b top_k))) ->
  exists t, In t (process_query pre query)
            /\ (1 <= get_or (get_or (processed_terms cm) i []) t 0)%nat.
Proof.
  intros [Hwf Htabs] Hreach Hi. apply in_map_iff in Hi as [r [Er Hr]]. subst i.
  destruct (process_query pre query) as [|q0 qs] eqn:Eq.
  { rewrite bm25_search_nothing in Hr by (assumption || now left). destruct Hr. }
  destruct (processed_terms cm) as [|e0 es] eqn:Ept.
  { rewrite bm25_search_nothing in Hr by (assumption || now right). destruct Hr. }
  rewrite <- Eq, <- Ept in *.
  rewrite (@bm25_search_reachable cm pre query k1 b top_k self Hreach) in Hr
    by (rewrite ?Eq, ?Ept; discriminate).
  simpl snd in Hr. apply (in_map id_score) in Hr.
  eapply subseq_In in Hr; [|apply build_results_subseq].
  eapply subseq_In in Hr; [|apply slice_to_subseq].
  unfold BM25.ranked in Hr. apply (proj1 (sort_by_score_In _ _)) in Hr.
  simpl BM25.doc_ids in Hr. unfold BM25.doc_scores in Hr.
  apply filter_In in Hr as [Hin Hpos]. apply Rltb_true in Hpos.
  pose proof (get_scores_by_id cm k1 b (process_query pre query)) as G.
  cbv zeta in G. unfold BM25._prepare_corpus in G. simpl fst in G.
  rewrite G, combine_self_map in Hin. clear G.
  apply in_map_iff in Hin as [i [Ei _]].
  unfold id_score in Ei, Hpos. simpl in Hpos. injection Ei as Ei Es. subst i.
  set (tab := get_or (processed_terms cm) (schemas.id r) []) in *.
  assert (Htab : wf tab).
  { unfold tab, get_or. destruct (get (processed_terms cm) (schemas.id r)) as [x|] eqn:E;
      [|constructor].
    rewrite Forall_forall in Htabs. apply Htabs.
    apply get_In in E. change x with (snd (schemas.id r, x)). now apply in_map. }
  destruct (some_term_counted tab (process_query pre query)) as [Hnone | Hsome];
    [|exact Hsome].
  exfalso. rewrite fold_scores_zero in Es.
  - lra.
  - intros t Ht. rewrite frequencies_tokens_of by exact Htab. now apply Hnone.
Qed.

Lemma bm25_returns_only_matching_documents_witness :
  exists t, In t (process_query plain (lit "rato"))
            /\ (1 <= get_or (get_or (processed_terms corpus10) (lit "doc_2") []) t 0)%nat.
Proof.
  apply (@bm25_returns_only_matching_documents corpus10 plain (lit "rato")
           (12 / 10) (75 / 100) 10%Z BM25.init (lit "doc_2")
           (proj1 corpus10_consistent) (or_introl eq_refl)).
  replace (map schemas.id
             (snd (BM25.search BM25.init corpus10 plain (lit "rato") (12 / 10) (75 / 100) 10)))
    with (map fst (map id_score
             (snd (BM25.search BM25.init corpus10 plain (lit "rato") (12 / 10) (75 / 100) 10))))
    by (rewrite map_map; reflexivity).
  rewrite corpus10_bm25_search. right. now left.
Defined.

(** ** The indexes kept between two searches *)

Lemma bm25_results_as_fresh (cm : CorpusManager) (pre : PreprocessingService)
      (query : str) (k1 b : R) (top_k : Z) (self : BM25.Service) :
  BM25_reachable cm self ->
  snd (BM25.search self cm pre query k1 b top_k)
  = snd (BM25.search BM25.init cm pre query k1 b top_k).
Proof.
  intro Hreach.
  assert (H0 : BM25_reachable cm BM25.init) by (now left).
  destruct (process_query pre query) as [|q0 qs] eqn:Eq.
  { now rewrite !bm25_search_nothing by (assumption || now left). }
  destruct (processed_terms cm) as [|e0 es] eqn:Ept.
  { now rewrite !bm25_search_nothing by (assumption || now right). }
  rewrite (@bm25_search_reachable cm pre query k1 b top_k self Hreach),
          (@bm25_search_reachable cm pre query k1 b top_k BM25.init H0);
    rewrite ?Eq, ?Ept; (reflexivity || discriminate).
Qed.

Lemma tfidf_results_as_fresh (cm : CorpusManager) (pre : PreprocessingService)
      (query : str) (top_k : Z) (self : TFIDF.Service) :
  TFIDF_reachable cm self ->
  snd (TFIDF.search self cm pre query top_k)
  = snd (TFIDF.search TFIDF.init cm pre query top_k).
Proof.
  intro H. unfold TFIDF.search. simpl. now rewrite (build_index_reachable H).
Qed.

Lemma orchestrator_search_eq (self : SearchService.Service) (perf_counter : nat -> R)
      (query : str) (k1 b : R) (top_k : option Z) :
  let cm := SearchService.corpus_manager self in
  let pre := SearchService.preprocessing self in
  let k := match top_k with
           | Some k => k
           | None => Z.of_nat (length (get_all_documents cm))
           end in
  let t := TFIDF.search (SearchService.tfidf_service self) cm pre query k in
  let m := BM25.search (SearchService.bm25_service self) cm pre query k1 b k in
  let preprocess_time := (perf_counter 2%nat - perf_counter 1%nat) * 1000 in
  SearchService.search self perf_counter query k1 b top_k
  = match process_query pre query with
    | [] => (self,
             SearchService.mkResponse [] [] (schemas.mkMetrics preprocess_time 0 0), [])
    | _ =>
        (SearchService.mkService cm pre (fst t) (fst m),
         SearchService.mkResponse (snd t) (snd m)
           (schemas.mkMetrics preprocess_time
              ((perf_counter 4%nat - perf_counter 3%nat) * 1000)
              ((perf_counter 6%nat - perf_counter 5%nat) * 1000)),
         [SearchService.tfidf_search query k; SearchService.bm25_search query k1 b k])
    end.
Proof.
  intros cm pre k t m preprocess_time. unfold SearchService.search.
  fold cm. fold pre. destruct (process_query pre query); [reflexivity|].
  fold k. fold t. fold m. now destruct t, m.
Qed.

(** A service that has answered earlier searches answers the next one as a
    newly constructed service over the same corpus would, whatever the
    parameters of the earlier searches were; the search leaves the corpus
    and the normaliser as they were, and the two scorers in a state that
    earlier searches can leave them in. *)
Theorem search_answers_as_a_fresh_service
        (self : SearchService.Service) (perf_counter : nat -> R) (query : str)
        (k1 b : R) (top_k : option Z) :
  let cm := SearchService.corpus_manager self in
  let pre := SearchService.preprocessing self in
  TFIDF_reachable cm (SearchService.tfidf_service self) ->
  BM25_reachable cm (SearchService.bm25_service self) ->
  let fresh := SearchService.mkService cm pre TFIDF.init BM25.init in
  let out := SearchService.search self perf_counter query k1 b top_k in
  let out0 := SearchService.search fresh perf_counter query k1 b top_k in
  snd (fst out) = snd (fst out0)
  /\ snd out = snd out0
  /\ SearchService.corpus_manager (fst (fst out)) = cm
  /\ SearchService.preprocessing (fst (fst out)) = pre
  /\ TFIDF_reachable cm (SearchService.tfidf_service (fst (fst out)))
  /\ BM25_reachable cm (SearchService.bm25_service (fst (fst out))).
Proof.
  intros cm pre Ht Hb fresh out out0. unfold out, out0.
  rewrite !orchestrator_search_eq. unfold fresh.
  cbn [SearchService.corpus_manager SearchService.preprocessing
       SearchService.tfidf_service SearchService.bm25_service].
  fold cm. fold pre.
  destruct (process_query pre query) as [|q0 qs] eqn:Eq.
  - cbn [fst snd]. repeat split; assumption.
  - cbn [fst snd SearchService.corpus_manager SearchService.preprocessing
         SearchService.tfidf_service SearchService.bm25_service].
    rewrite (tfidf_results_as_fresh pre query _ Ht),
            (bm25_results_as_fresh pre query k1 b _ Hb).
    repeat split.
    + now apply tfidf_search_keeps_reachable.
    + now apply bm25_search_keeps_reachable.
Qed.

Lemma search_answers_as_a_fresh_service_witness :
  snd (fst (SearchService.search
              (SearchService.mkService corpus2 plain index2 BM25.init)
              ticking gato 2 1 None))
  = snd (fst (SearchService.search
                (SearchService.mkService corpus2 plain TFIDF.init BM25.init)
                ticking gato 2 1 None)).
Proof.
  exact (proj1 (@search_answers_as_a_fresh_service
                  (SearchService.mkService corpus2 plain index2 BM25.init)
                  ticking gato 2 1 None
                  (or_intror (eq_sym corpus2_index)) (or_introl eq_refl))).
Defined.

(** ** The exact pass of the snippet extractor *)

Lemma exact_inv_step (text_lower : str) (len : nat) (seen : list str)
      (st : text_processing.Exact) (x : str) :
  exact_inv text_lower len seen st ->
  exact_inv text_lower len (seen ++ [x]) (text_processing.exact_step text_lower st x).
Proof.
  unfold exact_inv, text_processing.exact_step. intro H.
  destruct (word_search x text_lower) as [pos|] eqn:Ex.
  - destruct (pos <? text_processing.best_pos st)%nat eqn:Elt.
    + apply Nat.ltb_lt in Elt. simpl.
      destruct (text_processing.best_match st) as [[p t]|].
      * destruct H as [Hp [_ [Hlen [Hs [_ [l1 [l2 [E [H1 H2]]]]]]]]]. subst p.
        repeat split; try reflexivity; try lia; try assumption.
        -- apply in_or_app. right. now left.
        -- exists seen, []. split; [reflexivity|]. split; [|intros t' p' []].
           intros t' p' Hin Hs'. rewrite E in Hin.
           apply in_app_or in Hin as [Hin | [<- | Hin]].
           ++ specialize (H1 _ _ Hin Hs'). lia.
           ++ rewrite Hs in Hs'. injection Hs' as <-. lia.
           ++ specialize (H2 _ _ Hin Hs'). lia.
      * destruct H as [Hp [Hm Hall]].
        repeat split; try reflexivity; try lia; try assumption.
        -- apply in_or_app. right. now left.
        -- exists seen, []. split; [reflexivity|]. split; [|intros t' p' []].
           intros t' p' Hin Hs'. specialize (Hall _ _ Hin Hs'). lia.
    + apply Nat.ltb_ge in Elt.
      destruct (text_processing.best_match st) as [[p t]|].
      * destruct H as [Hp [Ht [Hlen [Hs [Hm [l1 [l2 [E [H1 H2]]]]]]]]].
        repeat split; try assumption.
        exists l1, (l2 ++ [x]). split; [rewrite E, <- app_assoc; reflexivity|].
        split; [exact H1|]. intros t' p' Hin Hs'.
        apply in_app_or in Hin as [Hin | [<- | []]]; [now apply (H2 t') |].
        rewrite Ex in Hs'. injection Hs' as <-. lia.
      * destruct H as [Hp [Hm Hall]]. repeat split; try assumption.
        intros t' p' Hin Hs'. apply in_app_or in Hin as [Hin | [<- | []]];
          [now apply (Hall t') |].
        rewrite Ex in Hs'. injection Hs' as <-. lia.
  - destruct (text_processing.best_match st) as [[p t]|].
    + destruct H as [Hp [Ht [Hlen [Hs [Hm [l1 [l2 [E [H1 H2]]]]]]]]].
      repeat split; try assumption.
      exists l1, (l2 ++ [x]). split; [rewrite E, <- app_assoc; reflexivity|].
      split; [exact H1|]. intros t' p' Hin Hs'.
      apply in_app_or in Hin as [Hin | [<- | []]]; [now apply (H2 t') | congruence].
    + destruct H as [Hp [Hm Hall]]. repeat split; try assumption.
      intros t' p' Hin Hs'. apply in_app_or in Hin as [Hin | [<- | []]];
        [now apply (Hall t') | congruence].
Qed.

Lemma exact_inv_fold (text_lower : str) (len : nat) (terms seen : list str)
      (st : text_processing.Exact) :
  exact_inv text_lower len seen st ->
  exact_inv text_lower len (seen ++ terms)
            (fold_left (text_processing.exact_step text_lower) terms st).
Proof.
  revert seen st. induction terms as [|x terms IH]; intros seen st H; simpl.
  - now rewrite app_nil_r.
  - replace (seen ++ x :: terms) with ((seen ++ [x]) ++ terms)
      by (now rewrite <- app_assoc).
    apply IH. now apply exact_inv_step.
Qed.

Lemma exact_pass_inv (text text_lower : str) (terms : list str) :
  exact_inv text_lower (length text) terms
            (text_processing.exact_pass text text_lower terms).
Proof.
  unfold text_processing.exact_pass.
  apply (@exact_inv_fold text_lower (length text) terms []).
  unfold exact_inv. simpl. repeat split. intros t' p' [].
Qed.

(** The exact pass keeps, of the candidate terms that occur in the text as
    a whole word, the one whose first occurrence starts earliest, and of
    several with the same start the first in the order of the query; it
    keeps nothing only when no candidate occurs before the end of the
    text. *)
Theorem exact_pass_picks_the_earliest (text text_lower : str) (terms : list str) :
  let e := text_processing.exact_pass text text_lower terms in
  match text_processing.best_match e with
  | Some (p, t) =>
      text_processing.best_pos e = p
      /\ text_processing.match_type e = Some text_processing.exact
      /\ (p < length text)%nat
      /\ word_search t text_lower = Some p
      /\ In t (text_processing.matched_words e)
      /\ exists l1 l2,
           terms = l1 ++ t :: l2
           /\ (forall t' p', In t' l1 -> word_search t' text_lower = Some p' ->
                             (p < p')%nat)
           /\ (forall t' p', In t' l2 -> word_search t' text_lower = Some p' ->
                             (p <= p')%nat)
  | None =>
      text_processing.best_pos e = length text
      /\ text_processing.matched_words e = []
      /\ forall t' p', In t' terms -> word_search t' text_lower = Some p' ->
                       (length text <= p')%nat
  end.
Proof. exact (exact_pass_inv text text_lower terms). Qed.

(** ** The snippet shows the match *)

Lemma after_prefix_spec (pat s rest : str) :
  after_prefix pat s = Some rest -> s = pat ++ rest.
Proof.
  revert s. induction pat as [|x pat IH]; intros s; simpl.
  - intro H. now injection H as ->.
  - destruct s as [|y s]; [discriminate|].
    destruct (chr_eqb x y) eqn:E; [|discriminate].
    apply chr_eqb_eq in E. subst y. intro H. now rewrite (IH _ H).
Qed.

Lemma word_search_from_spec (pat : str) (prev : option ascii) (s : str) (pos p : nat) :
  word_search_from pat prev s pos = Some p ->
  (pos <= p <= pos + length s)%nat /\ exists rest, skipn (p - pos) s = pat ++ rest.
Proof.
  revert prev pos. induction s as [|c s IH]; intros prev pos; simpl.
  - destruct (word_match_here pat prev []) eqn:E; [|discriminate].
    intro H. injection H as <-. split; [lia|]. rewrite Nat.sub_diag. simpl.
    unfold word_match_here in E. apply andb_prop in E as [_ E].
    destruct (after_prefix pat []) as [rest|] eqn:Ea; [|discriminate].
    exists rest. now apply after_prefix_spec.
  - destruct (word_match_here pat prev (c :: s)) eqn:E.
    + intro H. injection H as <-. split; [lia|]. rewrite Nat.sub_diag. simpl.
      unfold word_match_here in E. apply andb_prop in E as [_ E].
      destruct (after_prefix pat (c :: s)) as [rest|] eqn:Ea; [|discriminate].
      exists rest. now apply after_prefix_spec.
    + intro H. apply IH in H as [Hle [rest Hr]]. split; [lia|].
      exists rest. replace (p - pos)%nat with (S (p - S pos)) by lia. exact Hr.
Qed.

(** Where [re.search] finds the word, the word stands. *)
Lemma word_search_spec (pat s : str) (p : nat) :
  word_search pat s = Some p ->
  slice s p (p + length pat) = pat /\ (p + length pat <= length s)%nat.
Proof.
  unfold word_search. intro H. apply word_search_from_spec in H as [Hp [rest Hr]].
  rewrite Nat.sub_0_r in Hr. unfold slice.
  replace (p + length pat - p)%nat with (length pat) by lia. rewrite Hr. split.
  - rewrite firstn_app, Nat.sub_diag, firstn_all. simpl. apply app_nil_r.
  - apply (f_equal (@length ascii)) in Hr.
    rewrite length_skipn, length_app in Hr. lia.
Qed.

Lemma findall_words_from_word_chars (cur s : str) :
  Forall (fun c => is_word c = true) cur ->
  Forall (Forall (fun c => is_word c = true)) (findall_words_from cur s).
Proof.
  revert cur. induction s as [|c s IH]; intros cur Hcur; simpl.
  - destruct cur; [constructor|]. constructor; [|constructor].
    now apply Forall_rev.
  - destruct (is_word c) eqn:E.
    + apply IH. now constructor.
    + destruct cur; [apply IH; constructor|].
      constructor; [now apply Forall_rev | apply IH; constructor].
Qed.

Lemma original_terms_word_chars (original_query : option str) (t : str) :
  In t (text_processing.original_terms_of original_query) ->
  t <> [] /\ Forall (fun c => is_word c = true) t.
Proof.
  unfold text_processing.original_terms_of. destruct original_query as [q|]; [|intros []].
  intro H. apply in_flat_map in H as [word [_ H]]. cbv zeta in H.
  destruct (2 <? length (filter (fun c => is_word c || in_alphabet c) word))%nat eqn:E;
    [|destruct H].
  destruct H as [<- | []]. apply Nat.ltb_lt in E. split.
  - intro H0. rewrite H0 in E. simpl in E. lia.
  - apply Forall_forall. intros c Hc. apply filter_In in Hc as [_ Hc].
    apply orb_prop in Hc as [Hc | Hc]; [exact Hc | now apply alphabet_is_word].
Qed.

(** The match the extractor settles on, by either pass: a non-empty word
    of word characters, found in the lower-cased text at the recorded
    position, and recorded among the matched words. *)
Lemma locate_match (text : str) (original_query : option str) (pos : nat) (w : str) :
  text_processing.best_match (text_processing.locate text original_query) = Some (pos, w) ->
  text_processing.best_pos (text_processing.locate text original_query) = pos
  /\ word_search w (lower text) = Some pos
  /\ w <> [] /\ Forall (fun c => is_word c = true) w
  /\ In w (text_processing.matched_words (text_processing.locate text original_query)).
Proof.
  unfold text_processing.locate. cbv zeta.
  pose proof (exact_pass_inv text (lower text)
                (text_processing.original_terms_of original_query)) as He.
  unfold exact_inv in He.
  destruct (text_processing.best_match
              (text_processing.exact_pass text (lower text)
                 (text_processing.original_terms_of original_query)))
    as [[p t]|] eqn:Ee.
  - rewrite Ee. intro H. injection H as -> ->.
    destruct He as [Hp [_ [_ [Hs [Hm [l1 [l2 [E _]]]]]]]].
    assert (Hin : In w (text_processing.original_terms_of original_query)).
    { rewrite E. apply in_or_app. right. now left. }
    destruct (original_terms_word_chars _ _ Hin) as [H1 H2].
    repeat split; assumption.
  - pose proof (fuzzy_pass_inv text (text_processing.original_terms_of original_query))
      as [_ [_ [Hf _]]].
    destruct (text_processing.best_fuzzy_match
                (text_processing.fuzzy_pass text (lower text)
                   (text_processing.original_terms_of original_query)))
      as [m|] eqn:Ef.
    + simpl. intro H. injection H as ->.
      destruct (Hf pos w eq_refl) as [Hp [t [Hin [_ [_ Hs]]]]].
      apply in_fuzzy_candidates in Hin as [term [_ [_ Hw]]].
      split; [exact Hp|]. split; [exact Hs|].
      unfold findall_words in Hw. split; [|split].
      * pose proof (findall_words_from_nonempty [] (lower text)) as Hne.
        rewrite Forall_forall in Hne. now apply Hne.
      * pose proof (@findall_words_from_word_chars [] (lower text) (Forall_nil _)) as Hwc.
        rewrite Forall_forall in Hwc. now apply Hwc.
      * apply in_or_app. right. now left.
    + rewrite Ee. discriminate.
Qed.

Lemma word_lower_not_space (c : ascii) :
  is_word (lower_chr c) = true ->
  isspace c = false /\ text_processing.start_stop c = false.
Proof.
  destruct c as [[] [] [] [] [] [] [] []]; vm_compute; intro H;
    (discriminate || (split; reflexivity)).
Qed.

Lemma lower_slice (text : str) (lo hi : nat) :
  lower (slice text lo hi) = slice (lower text) lo hi.
Proof. unfold lower, slice. now rewrite skipn_map, firstn_map. Qed.

Lemma firstn_add_split (A : Type) (a b : nat) (l : list A) :
  firstn (a + b) l = firstn a l ++ firstn b (skipn a l).
Proof.
  revert l. induction a as [|a IH]; intro l; simpl; [reflexivity|].
  destruct l as [|x l]; simpl; [now rewrite firstn_nil | now rewrite IH].
Qed.

Lemma skipn_add (A : Type) (a b : nat) (l : list A) :
  skipn (a + b) l = skipn b (skipn a l).
Proof.
  revert l. induction a as [|a IH]; intro l; simpl; [reflexivity|].
  destruct l as [|x l]; simpl; [now rewrite skipn_nil | apply IH].
Qed.

Lemma slice_split (A : Type) (l : list A) (lo mid hi : nat) :
  (lo <= mid)%nat -> (mid <= hi)%nat ->
  slice l lo hi = slice l lo mid ++ slice l mid hi.
Proof.
  intros H1 H2. unfold slice.
  replace (hi - lo)%nat with ((mid - lo) + (hi - mid))%nat by lia.
  rewrite firstn_add_split, <- skipn_add.
  now replace (lo + (mid - lo))%nat with mid by lia.
Qed.

Lemma drop_while_keeps (p : ascii -> bool) (a : str) (c : ascii) (r : str) :
  p c = false -> exists a', drop_while p (a ++ c :: r) = a' ++ c :: r.
Proof.
  intro Hc. induction a as [|x a IH]; simpl.
  - exists []. now rewrite Hc.
  - destruct (p x); [exact IH|]. now exists (x :: a).
Qed.

(** [strip] leaves a stretch alone that neither starts nor ends with
    whitespace, whatever stands around it. *)
Lemma strip_keeps_middle (a m b : str) :
  m <> [] ->
  (forall c r, m = c :: r -> isspace c = false) ->
  (forall r c, m = r ++ [c] -> isspace c = false) ->
  exists a' b', strip (a ++ m ++ b) = a' ++ m ++ b'.
Proof.
  intros Hne Hhead Hlast. unfold strip.
  assert (Ha : exists a', drop_while isspace (a ++ m ++ b) = a' ++ m ++ b).
  { destruct m as [|c0 m0]; [contradiction|].
    apply (@drop_while_keeps isspace a c0 (m0 ++ b)). now apply (Hhead c0 m0). }
  destruct Ha as [a' Ha]. rewrite Ha.
  destruct (exists_last Hne) as [r [c Er]].
  assert (E1 : rev (a' ++ m ++ b) = rev b ++ c :: (rev r ++ rev a')).
  { rewrite Er, !rev_app_distr. simpl. now rewrite <- !app_assoc. }
  rewrite E1.
  destruct (@drop_while_keeps isspace (rev b) c (rev r ++ rev a') (Hlast r c Er))
    as [b' Hb].
  rewrite Hb. exists a', (rev b'). rewrite Er.
  rewrite rev_app_distr. simpl. rewrite !rev_app_distr, !rev_involutive.
  now rewrite <- !app_assoc.
Qed.

Lemma retreat_le (text : str) (d : nat) : (text_processing.retreat text d <= d)%nat.
Proof.
  induction d as [|d IH]; [simpl; lia|]. cbn [text_processing.retreat].
  destruct (text_processing.start_stop (text_processing.char_at text (S d))); lia.
Qed.

Lemma adjust_start_le (text : str) (d pos : nat) :
  (d <= pos)%nat ->
  text_processing.start_stop (text_processing.char_at text pos) = false ->
  (text_processing.adjust_start text d <= pos)%nat.
Proof.
  intros Hd Hpos. unfold text_processing.adjust_start.
  destruct (0 <? d)%nat; [|exact Hd].
  pose proof (retreat_le text d) as Hr.
  destruct (0 <? text_processing.retreat text d)%nat eqn:E; [|lia].
  destruct (retreat_spec text d) as [H0 | Hs]; [apply Nat.ltb_lt in E; lia|].
  assert (text_processing.retreat text d <> pos) by (intro Heq; congruence). lia.
Qed.

Lemma adjust_end_ge (text : str) (d : nat) : (d <= text_processing.adjust_end text d)%nat.
Proof.
  unfold text_processing.adjust_end, text_processing.advance.
  destruct (d <? length text)%nat; [|lia].
  destruct (d + _ <? length text)%nat; lia.
Qed.

Lemma distinct_In (l : list str) (x : str) : In x (distinct l) <-> In x l.
Proof.
  induction l as [|y l IH]; simpl; [tauto|]. rewrite filter_In, IH.
  destruct (str_eqb y x) eqn:E.
  - apply str_eqb_eq in E. subst y. simpl. split; [tauto | intros _; now left].
  - apply str_eqb_neq in E. simpl. split.
    + intros [H | [H _]]; [now left | now right].
    + intros [H | H]; [now left | right; now split].
Qed.

Lemma distinct_NoDup (l : list str) : NoDup (distinct l).
Proof.
  induction l as [|y l IH]; simpl; constructor.
  - intro H. apply filter_In in H as [_ H]. now rewrite str_eqb_refl in H.
  - eapply subseq_NoDup; [apply subseq_filter | exact IH].
Qed.

Lemma snippet_around_match (text : str) (terms : list str) (context_length : nat)
      (original_query : option str) (pos : nat) (w : str) :
  snippet_match text terms original_query = Some (pos, w) ->
  let shown := slice text pos (pos + length w) in
  let out := text_processing.extract_snippet text terms context_length original_query in
  w <> []
  /\ lower shown = w
  /\ (exists before after, fst out = before ++ shown ++ after)
  /\ In w (snd out).
Proof.
  intros Hm shown out.
  assert (Hloc : text_processing.best_match (text_processing.locate text original_query)
                 = Some (pos, w)).
  { unfold snippet_match in Hm. destruct text; [discriminate|].
    destruct terms; [discriminate | exact Hm]. }
  destruct (locate_match _ _ Hloc) as [Hpos [Hs [Hne [Hword Hin]]]].
  destruct (word_search_spec _ _ Hs) as [Hslice Hlen].
  assert (Hlow : lower shown = w).
  { unfold shown. now rewrite lower_slice. }
  assert (Hshown : length shown = length w).
  { rewrite <- Hlow. unfold lower. now rewrite length_map. }
  assert (Hchars : forall c, In c shown ->
                     isspace c = false /\ text_processing.start_stop c = false).
  { intros c Hc. apply word_lower_not_space.
    rewrite Forall_forall in Hword. apply Hword. rewrite <- Hlow.
    unfold lower. now apply in_map. }
  assert (Hlt : length (lower text) = length text).
  { unfold lower. apply length_map. }
  split; [exact Hne|]. split; [exact Hlow|].
  unfold out. rewrite extract_snippet_cases, Hm. cbv zeta. rewrite Hpos.
  unfold text_processing.window. cbn [snd].
  set (start := text_processing.adjust_start text (pos - context_length / 2)).
  set (end_ := text_processing.adjust_end text
                 (Nat.min (length text) (pos + length w + context_length / 2))).
  assert (Hshown_ne : shown <> []).
  { intro H0. rewrite H0 in Hshown. simpl in Hshown.
    destruct w; [contradiction | discriminate]. }
  assert (Hstart : (start <= pos)%nat).
  { apply adjust_start_le; [lia|].
    destruct shown as [|c0 r0] eqn:Esh; [contradiction|].
    assert (Hc0 : text_processing.char_at text pos = c0).
    { unfold text_processing.char_at. unfold shown, slice in Esh.
      destruct (skipn pos text) as [|y ys] eqn:Esk.
      - now rewrite firstn_nil in Esh.
      - replace (pos + length w - pos)%nat with (length w) in Esh by lia.
        destruct (length w); [discriminate|]. simpl in Esh. injection Esh as -> _.
        rewrite <- (firstn_skipn pos text), Esk.
        assert (Hl : length (firstn pos text) = pos).
        { apply firstn_length_le. lia. }
        rewrite app_nth2 by lia. now rewrite Hl, Nat.sub_diag. }
    rewrite Hc0. apply Hchars. now left. }
  assert (Hend : (pos + length w <= end_)%nat).
  { unfold end_. etransitivity; [|apply adjust_end_ge]. lia. }
  assert (Hsplit : slice text start end_
                   = slice text start pos ++ shown ++ slice text (pos + length w) end_).
  { rewrite (@slice_split _ text start pos end_) by lia.
    now rewrite (@slice_split _ text pos (pos + length w) end_) by lia. }
  destruct (@strip_keeps_middle (slice text start pos) shown
              (slice text (pos + length w) end_) Hshown_ne) as [a' [b' Hstrip]].
  { intros c r E. apply Hchars. rewrite E. now left. }
  { intros r c E. apply Hchars. rewrite E. apply in_or_app. right. now left. }
  rewrite Hsplit, Hstrip. split.
  - destruct (0 <? start)%nat, (end_ <? length text)%nat; cbn [fst].
    + exists (text_processing.ellipsis ++ a'), (b' ++ text_processing.ellipsis).
      now rewrite <- !app_assoc.
    + exists (text_processing.ellipsis ++ a'), b'. now rewrite <- !app_assoc.
    + exists a', (b' ++ text_processing.ellipsis). now rewrite <- !app_assoc.
    + now exists a', b'.
  - assert (Hww : lower w = w) by (rewrite <- Hlow; apply lower_idem).
    destruct (0 <? start)%nat, (end_ <? length text)%nat; cbn [snd];
      apply distinct_In, in_map_iff; exists w; (split; [exact Hww|]);
      apply filter_In; (split; [exact Hin|]);
      destruct w; [contradiction | reflexivity | contradiction | reflexivity
                   | contradiction | reflexivity | contradiction | reflexivity].
Qed.

(** When the extractor settles on a match, the snippet holds the matched
    stretch of the text as the text writes it; lower-cased, that stretch
    is the matched word; and the matched word is one of the matched words
    returned. *)
Theorem snippet_shows_the_match (text : str) (terms : list str) (context_length : nat)
        (original_query : option str) (pos : nat) (w : str) :
  snippet_match text terms original_query = Some (pos, w) ->
  let shown := slice text pos (pos + length w) in
  let out := text_processing.extract_snippet text terms context_length original_query in
  w <> []
  /\ lower shown = w
  /\ (exists before after, fst out = before ++ shown ++ after)
  /\ In w (snd out).
Proof. apply snippet_around_match. Qed.

Lemma snippet_shows_the_match_witness :
  lower (slice (lit "O Gato come") 2 (2 + length gato)) = gato
  /\ In gato (snd (text_processing.extract_snippet (lit "O Gato come") [gato] 250
                                                   (Some (lit "gato")))).
Proof.
  destruct (@snippet_shows_the_match (lit "O Gato come") [gato] 250 (Some (lit "gato"))
              2%nat gato eq_refl) as [_ [H1 [_ H2]]].
  split; assumption.
Defined.

(** ** The matched words *)

(** The matched words that come with a snippet are lower-case, non-empty
    and pairwise distinct, and there are some exactly when the extractor
    settled on a match. *)
Theorem matched_words_returned (text : str) (terms : list str) (context_length : nat)
        (original_query : option str) :
  let ws := snd (text_processing.extract_snippet text terms context_length
                                                 original_query) in
  NoDup ws
  /\ (forall w, In w ws -> lower w = w /\ exists c r, w = c :: r)
  /\ match snippet_match text terms original_query with
     | Some m => In (snd m) ws
     | None => ws = []
     end.
Proof.
  cbv zeta. rewrite extract_snippet_cases.
  destruct (snippet_match text terms original_query) as [[pos w]|] eqn:Em.
  - cbv zeta.
    destruct (text_processing.window text context_length (pos, w)
                (text_processing.best_pos (text_processing.locate text original_query)))
      as [start end_].
    cbn [snd]. split; [apply distinct_NoDup|]. split.
    + intros x Hx. apply distinct_In, in_map_iff in Hx as [y [<- Hy]].
      apply filter_In in Hy as [_ Hy]. split; [apply lower_idem|].
      destruct y as [|c r]; [discriminate|]. simpl. eauto.
    + pose proof (@snippet_around_match text terms context_length original_query
                    pos w Em) as H.
      cbv zeta in H. destruct H as [_ [_ [_ H]]].
      rewrite extract_snippet_cases, Em in H. cbv zeta in H.
      destruct (text_processing.window text context_length (pos, w)
                  (text_processing.best_pos (text_processing.locate text original_query)))
        as [start' end'] eqn:Ew in H. exact H.
  - assert (E : snd (text_processing.head_of_text text context_length) = []).
    { unfold text_processing.head_of_text.
      now destruct (context_length <? length text)%nat. }
    rewrite E. split; [constructor|]. split; [intros w []|reflexivity].
Qed.

(** ** The routes *)












(** While no service is there (before startup has finished, or after it
    has failed), the search, the statistics and the listing answer 500,
    the status of an internal error: their handlers catch the 503 they
    raise themselves; only the PDF route passes the 503 on. *)
Theorem unavailable_service_status
        (perf_counter : nat -> R) (request : routes.SearchRequest)
        (on_disk : str -> bool) (doc_id : str) :
  (routes.search_documents None perf_counter request = routes.HTTPException 500
   /\ routes.search_documents (Some None) perf_counter request = routes.HTTPException 500)
  /\ (routes.get_corpus_info None = routes.HTTPException 500
      /\ routes.get_corpus_info (Some None) = routes.HTTPException 500)
  /\ (routes.list_documents None = routes.HTTPException 500
      /\ routes.list_documents (Some None) = routes.HTTPException 500)
  /\ (routes.get_pdf None on_disk doc_id = routes.HTTPException 503
      /\ routes.get_pdf (Some None) on_disk doc_id = routes.HTTPException 503).
Proof. repeat split. Qed.

(** Once a corpus is loaded from a listing, the PDF route serves under
    [doc_i+1] the file at index [i] of the listing when that file was kept
    and is still on disk, and answers 404 when it was not kept or is gone;
    it never answers 500. *)
Theorem get_pdf_serves_the_listed_file
        (pre : PreprocessingService) (pdf_files : list PdfFile) (on_disk : str -> bool)
        (i : nat) (pdf_path : PdfFile) :
  nth_error pdf_files i = Some pdf_path ->
  let manager := _process_pdfs pre pdf_files empty_corpus in
  routes.get_pdf (Some (Some manager)) on_disk (doc_id_of i)
  = match readable pdf_path, name pdf_path with
    | Some _, _ :: _ =>
        if on_disk (name pdf_path) then routes.returns (name pdf_path)
        else routes.HTTPException 404
    | _, _ => routes.HTTPException 404
    end.
Proof.
  intros Hi manager. unfold routes.get_pdf, routes.except_HTTPException_raise. simpl.
  pose proof (@process_pdfs_lookup pre pdf_path i pdf_files 0%nat empty_corpus Hi) as G.
  simpl in G. assert (F : ~ False) by tauto. specialize (G F F F).
  fold (_process_pdfs pre pdf_files empty_corpus) in G. fold manager in G.
  destruct (readable pdf_path) as [texto|].
  - destruct G as [G _]. rewrite G. simpl.
    destruct (name pdf_path); [reflexivity|]. now destruct (on_disk _).
  - destruct G as [G _]. now rewrite G.
Qed.

Lemma get_pdf_serves_the_listed_file_witness :
  routes.get_pdf (Some (Some (_process_pdfs plain [blank_pdf; gato_pdf] empty_corpus)))
                 (fun _ => true) (doc_id_of 1)
  = routes.returns (lit "o_gato.pdf").
Proof.
  exact (@get_pdf_serves_the_listed_file plain [blank_pdf; gato_pdf] (fun _ => true)
           1%nat gato_pdf eq_refl).
Defined.

(** ** The frequency report *)

Lemma add_freq_get (termos : TermTable) (acc : dict nat) (t : str) :
  wf termos ->
  get (fold_left add_freq termos acc) t
  = match get termos t with
    | Some c => Some (get_or acc t 0 + c)%nat
    | None => get acc t
    end.
Proof.
  unfold wf, keys. revert acc. induction termos as [|[k c] termos IH]; intros acc Hnd; simpl.
  - reflexivity.
  - inversion Hnd as [|? ? Hk Hl]; subst. rewrite IH by assumption.
    assert (G : get (add_freq acc (k, c)) t
                = if str_eqb t k then Some (get_or acc k 0 + c)%nat else get acc t).
    { unfold add_freq. simpl. apply get_set. }
    unfold get_or at 1. rewrite G.
    destruct (str_eqb t k) eqn:E.
    + apply str_eqb_eq in E. subst k.
      assert (G0 : get termos t = None) by (now apply get_None_not_key).
      now rewrite G0.
    + reflexivity.
Qed.

Lemma frequencias_totais_from (pt : dict TermTable) (acc : dict nat) (t : str) :
  Forall (@wf nat) (values pt) ->
  get (fold_left (fun totais e => fold_left add_freq (snd e) totais) pt acc) t
  = if existsb (fun termos => has termos t) (values pt)
    then Some (get_or acc t 0 + corpus_count pt t)%nat
    else get acc t.
Proof.
  unfold corpus_count. revert acc. induction pt as [|[i tab] pt IH]; intros acc Hwf; simpl.
  - reflexivity.
  - inversion Hwf as [|? ? Htab Htabs]; subst. rewrite IH by assumption.
    pose proof (@add_freq_get tab acc t Htab) as GA.
    assert (Hz : existsb (fun termos => has termos t) (values pt) = false ->
                 fold_right Nat.add 0%nat
                   (map (fun termos => get_or termos t 0%nat) (values pt)) = 0%nat).
    { clear. induction (values pt) as [|x l IHl]; simpl; [reflexivity|].
      intro H. apply orb_false_iff in H as [H1 H2]. rewrite (IHl H2).
      unfold has in H1. unfold get_or. now destruct (get x t). }
    remember (existsb (fun termos => has termos t) (values pt)) as ex.
    remember (fold_right Nat.add 0%nat
                (map (fun termos => get_or termos t 0%nat) (values pt))) as rest.
    unfold get_or, has in *. rewrite GA.
    destruct (get tab t) as [c|]; destruct ex; simpl; try reflexivity; f_equal;
      try rewrite (Hz eq_refl); destruct (get acc t); lia.
Qed.

Lemma existsb_has_df (pt : dict TermTable) (t : str) :
  existsb (fun termos => has termos t) (values pt) = negb (df_of pt t =? 0)%nat.
Proof.
  unfold df_of. induction (values pt) as [|x l IH]; simpl; [reflexivity|].
  destruct (has x t); simpl; [reflexivity | exact IH].
Qed.

Lemma frequencias_totais_get (pt : dict TermTable) (t : str) :
  Forall (@wf nat) (values pt) ->
  get (frequencias_totais pt) t
  = if (df_of pt t =? 0)%nat then None else Some (corpus_count pt t).
Proof.
  intro H. unfold frequencias_totais. rewrite frequencias_totais_from by assumption.
  rewrite existsb_has_df. now destruct (df_of pt t =? 0)%nat.
Qed.

Lemma frequencias_totais_wf (pt : dict TermTable) : wf (frequencias_totais pt).
Proof.
  unfold frequencias_totais.
  assert (H0 : wf (@nil (str * nat))) by constructor. revert H0.
  generalize (@nil (str * nat)).
  induction pt as [|[i tab] pt IH]; intros acc H; simpl; [assumption|].
  apply IH. clear IH. revert acc H.
  induction tab as [|e tab IH]; intros acc H; simpl; [assumption|].
  apply IH. unfold add_freq. now apply wf_set.
Qed.

Lemma values_by_key (V : Type) (d : dict V) (default : V) :
  wf d -> map (fun i => get_or d i default) (keys d) = values d.
Proof.
  unfold wf, keys, values. induction d as [|[k v] d IH]; intro H; simpl; [reflexivity|].
  inversion H as [|? ? Hk Hd]; subst. unfold get_or at 1. simpl.
  rewrite str_eqb_refl. f_equal. rewrite <- IH by assumption.
  apply map_ext_in. intros i Hi. unfold get_or. simpl.
  destruct (str_eqb i k) eqn:E; [|reflexivity].
  apply str_eqb_eq in E. subst. contradiction.
Qed.

Lemma sum_perm (l1 l2 : list nat) :
  Permutation l1 l2 -> fold_right Nat.add 0%nat l1 = fold_right Nat.add 0%nat l2.
Proof. induction 1; simpl; lia. Qed.

Lemma filter_length_perm (A : Type) (f : A -> bool) (l1 l2 : list A) :
  Permutation l1 l2 -> length (filter f l1) = length (filter f l2).
Proof.
  induction 1 as [|x l l' _ IH|x y l|l l' l'' _ IH1 _ IH2]; simpl.
  - reflexivity.
  - destruct (f x); simpl; lia.
  - destruct (f x), (f y); reflexivity.
  - congruence.
Qed.

(** The details of a term, against the tables. *)
Lemma detalhes_spec (cm : CorpusManager) (t : str) :
  tables_wf (processed_terms cm) ->
  fold_right Nat.add 0%nat (map snd (detalhes_por_doc cm t))
  = corpus_count (processed_terms cm) t
  /\ length (detalhes_por_doc cm t) = df_of (processed_terms cm) t.
Proof.
  intros [Hwf Htabs]. unfold detalhes_por_doc, corpus_count, df_of.
  set (pt := processed_terms cm) in *.
  set (titles := doc_titles (documents cm)).
  assert (P : Permutation (map (fun i => get_or pt i []) (Py.sorted str_ltb (keys pt)))
                          (values pt)).
  { rewrite <- (@values_by_key _ pt [] Hwf). apply Permutation_map.
    apply Permutation_sym, sorted_perm. }
  assert (G : forall ids,
             fold_right Nat.add 0%nat
               (map snd (flat_map (fun i => match get (get_or pt i []) t with
                                            | Some freq_doc => [(get_or titles i i, freq_doc)]
                                            | None => []
                                            end) ids))
             = fold_right Nat.add 0%nat
                 (map (fun termos => get_or termos t 0%nat)
                      (map (fun i => get_or pt i []) ids))
             /\ length (flat_map (fun i => match get (get_or pt i []) t with
                                           | Some freq_doc => [(get_or titles i i, freq_doc)]
                                           | None => []
                                           end) ids)
                = length (filter (fun termos => has termos t)
                                 (map (fun i => get_or pt i []) ids))).
  { induction ids as [|i ids [IH1 IH2]]; simpl; [now split|].
    set (tab := get_or pt i []).
    change (get_or tab t 0%nat) with (match get tab t with Some v => v | None => 0%nat end).
    unfold has at 1.
    destruct (get tab t) as [c|]; simpl; rewrite IH1, IH2; split; reflexivity. }
  destruct (G (Py.sorted str_ltb (keys pt))) as [G1 G2]. rewrite G1, G2. split.
  - apply sum_perm. now apply Permutation_map.
  - now apply filter_length_perm.
Qed.

Lemma StronglySorted_map (A B : Type) (R : A -> A -> Prop) (R' : B -> B -> Prop)
      (f : A -> B) (l : list A) :
  (forall x y, R x y -> R' (f x) (f y)) ->
  StronglySorted R l -> StronglySorted R' (map f l).
Proof.
  intros H Hs. induction Hs as [|x l Hs IH Hall]; simpl; constructor; [exact IH|].
  rewrite Forall_forall in *. intros y Hy. apply in_map_iff in Hy as [z [<- Hz]].
  apply H. now apply Hall.
Qed.

Lemma key_ltb_asym (x y : str * nat) :
  str_ltb (fst y) (fst x) = true -> str_ltb (fst x) (fst y) = false.
Proof. apply str_ltb_asym. Qed.

Lemma key_ltb_trans (x y z : str * nat) :
  str_ltb (fst y) (fst x) = false -> str_ltb (fst z) (fst y) = false ->
  str_ltb (fst z) (fst x) = false.
Proof. apply str_ltb_le_trans. Qed.

(** The frequency report has one line per term of the vocabulary, in the
    ascending order of the terms and none twice; the line of a term gives
    the total of its counts over all documents, which is the sum of the
    counts it lists per document, and lists as many documents as hold the
    term: its document frequency. *)
Theorem frequency_report_lines (cm : CorpusManager) :
  tables_wf (processed_terms cm) ->
  let pt := processed_terms cm in
  let termo_of (linha : str * nat * list (str * nat)) := fst (fst linha) in
  StronglySorted (fun l1 l2 => str_ltb (termo_of l2) (termo_of l1) = false) (linhas cm)
  /\ NoDup (map termo_of (linhas cm))
  /\ (forall t, In t (map termo_of (linhas cm)) <-> (1 <= df_of pt t)%nat)
  /\ Forall (fun linha =>
               let '(t, freq_total, detalhes) := linha in
               freq_total = corpus_count pt t
               /\ freq_total = fold_right Nat.add 0%nat (map snd detalhes)
               /\ length detalhes = df_of pt t)
            (linhas cm).
Proof.
  intros Hwf pt termo_of. unfold linhas. fold pt.
  set (ft := frequencias_totais pt).
  set (sorted_ft := Py.sorted (fun y x => str_ltb (fst y) (fst x)) ft).
  assert (Hperm : Permutation ft sorted_ft) by apply sorted_perm.
  assert (Hterms : map termo_of (map (fun e => (fst e, snd e, detalhes_por_doc cm (fst e)))
                                     sorted_ft)
                   = map fst sorted_ft).
  { rewrite map_map. reflexivity. }
  split; [|split; [|split]].
  - apply StronglySorted_map
      with (R := fun x y : str * nat => str_ltb (fst y) (fst x) = false).
    + intros x y H. exact H.
    + apply (sorted_sorted (fun y x => str_ltb (fst y) (fst x))
                           key_ltb_asym key_ltb_trans).
  - rewrite Hterms. eapply Permutation_NoDup; [apply Permutation_map; exact Hperm|].
    apply frequencias_totais_wf.
  - intro t. rewrite Hterms.
    assert (E : In t (map fst sorted_ft) <-> In t (keys ft)).
    { split; apply Permutation_in; apply Permutation_map;
        [now apply Permutation_sym | exact Hperm]. }
    rewrite E, <- has_In. unfold has, ft.
    rewrite frequencias_totais_get by apply Hwf.
    destruct (df_of pt t =? 0)%nat eqn:E0.
    + apply Nat.eqb_eq in E0. split; [discriminate | lia].
    + apply Nat.eqb_neq in E0. split; [lia | reflexivity].
  - apply Forall_forall. intros [[t total] det] Hin.
    apply in_map_iff in Hin as [[t' total'] [E Hin]]. simpl in E. injection E as -> -> <-.
    apply (Permutation_in _ (Permutation_sym Hperm)) in Hin.
    apply (@In_get _ _ t total (frequencias_totais_wf pt)) in Hin.
    unfold ft in Hin. rewrite frequencias_totais_get in Hin by apply Hwf.
    destruct (df_of pt t =? 0)%nat; [discriminate|]. injection Hin as <-.
    destruct (detalhes_spec cm t Hwf) as [H1 H2]. fold pt in H1, H2.
    split; [reflexivity|]. split; [now rewrite H1 | exact H2].
Qed.

Lemma frequency_report_lines_witness :
  generate_frequency_report corpus2
  = lit "gato/3 [2] -> doc_1/2 doc_2/1" ++ [ascii_of_nat 10] ++ lit "rato/1 [1] -> doc_2/1"
  /\ Forall (fun linha =>
               let '(t, freq_total, detalhes) := linha in
               freq_total = corpus_count (processed_terms corpus2) t
               /\ freq_total = fold_right Nat.add 0%nat (map snd detalhes)
               /\ length detalhes = df_of (processed_terms corpus2) t)
            (linhas corpus2).
Proof.
  split; [reflexivity|].
  exact (proj2 (proj2 (proj2 (@frequency_report_lines corpus2 (proj1 corpus2_consistent))))).
Defined.
